(** * A worker thread pool over a mutex-protected FIFO task queue

    Shallow embedding of [threadpool.c] and of the sleep wrapper of
    [platform.c]; then of [disable_quick_edit.c], of the driver [main.c],
    of [endian.c] and of [zip_logs.c].

    - Pointers are integers, [NULL] is 0.  The nodes obtained from [malloc]
      live in a finite map from addresses to [task_node_t] records; [free]
      deletes the entry, and reading through an address that is not in the
      map has no defined behaviour (the functions below return [None]).
    - What [malloc] and [platform_thread_create] answer is not decided by the
      program: the answer is an extra argument of the function that asks.
    - Calls that leave the program (the platform wrappers, [fprintf] on
      [stderr], the invocation of a task body) are appended to a trace.
    - The functions of [threadpool.c] come first as their caller sees them,
      one call at a time.  Then come the threads: [worker_thread], a
      submission and the shutdown as program points, with one shared-memory
      access or platform call per step and any interleaving of the steps.
    - The definitions are followed by the proofs: the queue, the pool, the
      sleep wrapper, and last the threads. *)

From Stdlib Require Import ZArith List Lia.
From stdpp Require Import base option list gmap strings pretty.

Local Open Scope Z_scope.

(** ** Data model (threadpool.h) *)

Definition NULL : Z := 0.

(** [task_node_t]: [func] and [arg] are the task, [next] the forward link. *)
Record task_node_t := TaskNode { func : Z; arg : Z; next : Z }.

(** [task_queue_t]: the two list ends.  The [lock] and [cond] members are
    platform objects; the calls made on them are in the trace. *)
Record task_queue_t := TaskQueue { front : Z; rear : Z }.

(** [thread_pool_t].  [threads] is [None] for a null pointer and otherwise
    the allocated array; a slot is [None] while no handle has been written to
    it (its content is indeterminate). *)
Record thread_pool_t := ThreadPool {
  threads : option (list (option Z));
  num_threads : Z;
  queue : task_queue_t;
  keep_running : Z
}.

(** Calls on the platform layer (platform.h). *)
Inductive platform_call :=
| MutexInit | MutexDestroy | MutexLock | MutexUnlock
| CondInit | CondDestroy | CondWait | CondSignal | CondBroadcast
| ThreadCreate (slot : Z) (handle : option Z)
| ThreadJoin (handle : option Z)
| Usleep (usec : Z)
| WinSleep (msec : Z).

Inductive event :=
| Stderr (msg : string)
| Platform (c : platform_call)
| Invoke (f a : Z).

(** The part of the machine outside the pool structure. *)
Record world := World {
  heap : gmap Z task_node_t;
  trace : list event
}.

Definition emit (e : event) (w : world) : world :=
  {| heap := heap w; trace := trace w ++ [e] |}.

Definition call (c : platform_call) : world -> world := emit (Platform c).

Definition set_heap (h : gmap Z task_node_t) (w : world) : world :=
  {| heap := h; trace := trace w |}.

Definition nl : string := String (Ascii.ascii_of_nat 10) EmptyString.

(** ** platform.c: the millisecond sleep *)

(** [unsigned int] is 32 bits wide. *)
Definition UINT_WIDTH : Z := 32.

Definition uint_mul (a b : Z) : Z := (a * b) mod 2 ^ UINT_WIDTH.

(** The argument that the POSIX branch passes to [usleep]. *)
Definition usleep_arg (ms : Z) : Z := uint_mul ms 1000.

(** POSIX branch: [usleep(ms * 1000)]. *)
Definition platform_sleep_ms (ms : Z) (w : world) : world :=
  call (Usleep (usleep_arg ms)) w.

(** Windows branch: [Sleep(ms)]. *)
Definition platform_sleep_ms_win (ms : Z) (w : world) : world :=
  call (WinSleep ms) w.

(** ** threadpool.c: internal queue operations *)

(** [queue_init]: both ends null, then the mutex and the condition variable
    are initialised. *)
Definition queue_init (q : task_queue_t) (w : world) : task_queue_t * world :=
  ({| front := NULL; rear := NULL |}, call CondInit (call MutexInit w)).

(** The branch of [queue_push] that links the new node, run under the lock. *)
Definition push_link (node : Z) (q : task_queue_t) (h : gmap Z task_node_t)
  : option (task_queue_t * gmap Z task_node_t) :=
  if decide (rear q = NULL) then
    Some ({| front := node; rear := node |}, h)
  else
    r ← h !! rear q;
    Some ({| front := front q; rear := node |},
          <[rear q := {| func := func r; arg := arg r; next := node |}]> h).

(** [queue_push].  [node] is what [malloc] returned. *)
Definition queue_push (node f a : Z) (q : task_queue_t) (w : world)
  : option (task_queue_t * world) :=
  if decide (node = NULL) then
    Some (q, emit (Stderr ("queue_push: failed to allocate task_node" +:+ nl)) w)
  else
    let h := <[node := {| func := f; arg := a; next := NULL |}]> (heap w) in
    let w := call MutexLock (set_heap h w) in
    '(q', h') ← push_link node q (heap w);
    Some (q', call MutexUnlock (call CondSignal (set_heap h' w))).

(** [queue_pop]: the node removed from the front, or [NULL]. *)
Definition queue_pop (q : task_queue_t) (w : world)
  : option (Z * task_queue_t) :=
  if decide (front q = NULL) then Some (NULL, q)
  else
    n ← heap w !! front q;
    let q1 := {| front := next n; rear := rear q |} in
    Some (front q,
          if decide (front q1 = NULL) then {| front := front q1; rear := NULL |}
          else q1).

(** The [while (q->front)] loop of [queue_destroy].  An iteration frees one
    live node, so a heap of [k] nodes allows at most [k] iterations; the
    counter is how many are still allowed. *)
Inductive loop_end (A : Type) := Finished (a : A) | Undefined | Exhausted.
Arguments Finished {A} a.
Arguments Undefined {A}.
Arguments Exhausted {A}.

Fixpoint destroy_loop (k : nat) (p : Z) (h : gmap Z task_node_t)
  : loop_end (gmap Z task_node_t) :=
  if decide (p = NULL) then Finished h
  else match h !! p with
       | None => Undefined
       | Some n =>
           match k with
           | O => Exhausted
           | S k' => destroy_loop k' (next n) (delete p h)
           end
       end.

(** [queue_destroy]. *)
Definition queue_destroy (q : task_queue_t) (w : world)
  : option (task_queue_t * world) :=
  match destroy_loop (size (heap w)) (front q) (heap w) with
  | Finished h' =>
      Some ({| front := NULL; rear := NULL |},
            call CondDestroy (call MutexDestroy (set_heap h' w)))
  | _ => None
  end.

(** ** threadpool.c: public operations *)

Definition set_queue (q : task_queue_t) (p : thread_pool_t) : thread_pool_t :=
  {| threads := threads p; num_threads := num_threads p;
     queue := q; keep_running := keep_running p |}.

Definition set_keep_running (v : Z) (p : thread_pool_t) : thread_pool_t :=
  {| threads := threads p; num_threads := num_threads p;
     queue := queue p; keep_running := v |}.

(** One iteration of the creation loop of [thread_pool_init].  [spawn i] is
    the handle written by [platform_thread_create] for slot [i], or [None]
    when the call fails, in which case the slot is left as it was. *)
Definition create_one (spawn : Z -> option Z)
    (st : list (option Z) * world) (i : Z) : list (option Z) * world :=
  match spawn i with
  | Some hd =>
      (<[Z.to_nat i := Some hd]> (fst st),
       call (ThreadCreate i (Some hd)) (snd st))
  | None =>
      (fst st,
       emit (Stderr ("Error creating thread " +:+ pretty i +:+ nl))
            (call (ThreadCreate i None) (snd st)))
  end.

(** [thread_pool_init].  [pool] is [None] for a null pointer; [arr_ok] tells
    whether the [malloc] of the handle array succeeded. *)
Definition thread_pool_init (pool : option thread_pool_t) (n : Z)
    (arr_ok : bool) (spawn : Z -> option Z) (w : world)
  : option thread_pool_t * world :=
  match pool with
  | None => (None, w)
  | Some p =>
      if arr_ok then
        let '(q, w1) := queue_init (queue p) w in
        let '(arr, w2) :=
          foldl (create_one spawn) (replicate (Z.to_nat n) None, w1) (seqZ 0 n) in
        (Some {| threads := Some arr; num_threads := n;
                 queue := q; keep_running := 1 |}, w2)
      else
        (Some {| threads := None; num_threads := n;
                 queue := queue p; keep_running := keep_running p |},
         emit (Stderr ("thread_pool_init: failed to allocate thread handles" +:+ nl)) w)
  end.

(** The join loop of [thread_pool_shutdown]: one [platform_thread_join] per
    index below [num_threads], on whatever the slot holds; the call is
    recorded with the slot's content.  Reading past the end of the array is
    undefined. *)
Fixpoint join_loop (idx : list Z) (arr : list (option Z)) (w : world)
  : option world :=
  match idx with
  | [] => Some w
  | i :: rest =>
      slot ← arr !! Z.to_nat i;
      join_loop rest arr (call (ThreadJoin slot) w)
  end.

(** [thread_pool_shutdown], as seen by its caller: every join returns. *)
Definition thread_pool_shutdown (pool : option thread_pool_t) (w : world)
  : option (option thread_pool_t * world) :=
  match pool with
  | None => Some (None, w)
  | Some p =>
      match threads p with
      | None => Some (Some p, w)
      | Some arr =>
          let w1 := call MutexUnlock (call CondBroadcast (call MutexLock w)) in
          w2 ← join_loop (seqZ 0 (num_threads p)) arr w1;
          '(q, w3) ← queue_destroy (queue p) w2;
          Some (Some {| threads := None; num_threads := 0;
                        queue := q; keep_running := 0 |}, w3)
      end
  end.

(** [thread_pool_add_task]. *)
Definition thread_pool_add_task (pool : option thread_pool_t) (node f a : Z)
    (w : world) : option (option thread_pool_t * world) :=
  match pool with
  | None => Some (None, w)
  | Some p =>
      '(q, w') ← queue_push node f a (queue p) w;
      Some (Some (set_queue q p), w')
  end.

(** ** Representation of the queue in the heap *)

(** A queued task as the heap holds it: the node's address, function and
    argument. *)
Record item := Item { addr : Z; ifunc : Z; iarg : Z }.

(** [chain h p l]: following [next] from [p] visits exactly the nodes of [l]
    and ends at [NULL]. *)
Fixpoint chain (h : gmap Z task_node_t) (p : Z) (l : list item) : Prop :=
  match l with
  | [] => p = NULL
  | it :: l' =>
      p = addr it ∧ p ≠ NULL ∧
      ∃ nx, h !! p = Some {| func := ifunc it; arg := iarg it; next := nx |} ∧
            chain h nx l'
  end.

(** [queue_repr h q l]: the queue [q] holds the tasks [l], oldest first. *)
Definition queue_repr (h : gmap Z task_node_t) (q : task_queue_t)
    (l : list item) : Prop :=
  chain h (front q) l ∧
  rear q = List.last (map addr l) NULL ∧
  NoDup (map addr l).

(** The invariant named by the data model. *)
Definition null_inv (q : task_queue_t) : Prop :=
  front q = NULL ↔ rear q = NULL.

(** [n] pops in a row, collecting what each returns. *)
Fixpoint pop_n (n : nat) (q : task_queue_t) (w : world)
  : option (list Z * task_queue_t) :=
  match n with
  | O => Some ([], q)
  | S n' =>
      '(p, q1) ← queue_pop q w;
      '(ps, q2) ← pop_n n' q1 w;
      Some (p :: ps, q2)
  end.

(** Pushes in a row: each task comes with the address [malloc] gives it. *)
Fixpoint push_all (ts : list item) (q : task_queue_t) (w : world)
  : option (task_queue_t * world) :=
  match ts with
  | [] => Some (q, w)
  | t :: ts' =>
      '(q1, w1) ← queue_push (addr t) (ifunc t) (iarg t) q w;
      push_all ts' q1 w1
  end.

(** The task that a popped node carries. *)
Definition task_at (w : world) (p : Z) : option (Z * Z) :=
  n ← heap w !! p; Some (func n, arg n).

(** The heap once the nodes of [l] are freed, front first. *)
Definition free_all (l : list item) (h : gmap Z task_node_t)
  : gmap Z task_node_t :=
  foldl (λ h' it, delete (addr it) h') h l.

(** ** Sample states *)

(** A heap with node 10 linked to node 20. *)
Definition two_nodes : world :=
  World (<[10 := TaskNode 1 100 20]> (<[20 := TaskNode 2 200 NULL]> ∅)) [].

(** A pool whose shutdown has begun ([keep_running] is 0) and whose queue
    holds nodes 10 and 20. *)
Definition stopping_pool : thread_pool_t :=
  ThreadPool (Some [Some 7]) 1 (TaskQueue 10 20) 0.

(** ** What the trace shows *)

(** The handles passed to [platform_thread_join], in call order. *)
Definition joined (e : event) : option (option Z) :=
  match e with
  | Platform (ThreadJoin slot) => Some slot
  | _ => None
  end.

Definition joins (tr : list event) : list (option Z) := omap joined tr.

(** A start in which only slot 0 gets its thread. *)
Definition spawn_first_only (i : Z) : option Z :=
  if decide (i = 0) then Some 77 else None.

(** * Threads: the pool under interleaving

    One step is one access to the shared pool, one platform call, or the
    invocation of one task body.  A task body is taken to return and to
    leave the pool alone.  The condition variable wakes a blocked worker on
    [platform_cond_signal] and [platform_cond_broadcast], and a blocked
    worker may also wake for no reason.  The draining loop of
    [queue_destroy], which runs without the lock, is one step. *)

(** Where a thread stands: in [worker_thread] (W...), or in
    [thread_pool_add_task] and the [queue_push] it calls (P...). *)
Inductive pc :=
| WTop                (* at [while (pool->keep_running)] *)
| WLock               (* at [platform_mutex_lock] *)
| WCheckFront         (* lock held, at [pool->queue.front == NULL] *)
| WCheckRun           (* lock held, front was null, at [&& pool->keep_running] *)
| WWait               (* lock held, at [platform_cond_wait] *)
| WBlocked            (* in [platform_cond_wait], lock released, asleep *)
| WWoken              (* in [platform_cond_wait], woken, taking the lock back *)
| WRecheck            (* lock held, at [if (!pool->keep_running)] *)
| WUnlockExit         (* lock held, at the unlock before [return NULL] *)
| WPop                (* lock held, at [queue_pop] *)
| WUnlock (task : Z)  (* lock held, at the unlock after the pop *)
| WRun (task : Z)     (* at [task->func(task->arg)] *)
| WFree (task : Z)    (* at [free(task)] *)
| WExited             (* returned *)
| PIdle               (* not inside a submission *)
| PLock (node : Z)    (* node filled in, at [platform_mutex_lock] *)
| PLink (node : Z)    (* lock held, at [if (!q->rear)] *)
| PSignal             (* lock held, at [platform_cond_signal] *)
| PUnlock.            (* lock held, at [platform_mutex_unlock] *)

(** Where the caller of [thread_pool_shutdown] stands. *)
Inductive spc :=
| SIdle               (* not called yet *)
| SFlag               (* past the guard, at [pool->keep_running = 0] *)
| SLock
| SBroadcast          (* lock held *)
| SUnlock             (* lock held *)
| SJoin (i : Z)       (* at the test [i < pool->num_threads] *)
| SFree               (* at [free(pool->threads)] and the two resets *)
| SDestroy            (* at [queue_destroy] *)
| SReturned.

Inductive owner := Thread (t : nat) | Main.

Inductive mutex_state := MFree | MHeld (o : owner) | MDead.

Global Instance owner_eq_dec : EqDecision owner.
Proof. solve_decision. Defined.

Global Instance pc_eq_dec : EqDecision pc.
Proof. solve_decision. Defined.

Record cstate := CState {
  pool : thread_pool_t;
  mem : world;
  mutex : mutex_state;
  thr : list pc;
  sd : spc
}.

Definition set_pc (t : nat) (c : pc) (s : cstate) : cstate :=
  {| pool := pool s; mem := mem s; mutex := mutex s;
     thr := <[t := c]> (thr s); sd := sd s |}.

Definition set_sd (c : spc) (s : cstate) : cstate :=
  {| pool := pool s; mem := mem s; mutex := mutex s; thr := thr s; sd := c |}.

Definition set_pool (p : thread_pool_t) (s : cstate) : cstate :=
  {| pool := p; mem := mem s; mutex := mutex s; thr := thr s; sd := sd s |}.

Definition set_mem (w : world) (s : cstate) : cstate :=
  {| pool := pool s; mem := w; mutex := mutex s; thr := thr s; sd := sd s |}.

Definition set_mutex (m : mutex_state) (s : cstate) : cstate :=
  {| pool := pool s; mem := mem s; mutex := m; thr := thr s; sd := sd s |}.

Definition set_thr (l : list pc) (s : cstate) : cstate :=
  {| pool := pool s; mem := mem s; mutex := mutex s; thr := l; sd := sd s |}.

Definition log (c : platform_call) (s : cstate) : cstate :=
  set_mem (call c (mem s)) s.

(** [platform_mutex_lock]: goes through only when the mutex is free. *)
Definition acquire (o : owner) (s : cstate) : option cstate :=
  match mutex s with
  | MFree => Some (log MutexLock (set_mutex (MHeld o) s))
  | _ => None
  end.

(** [platform_mutex_unlock], by the thread that holds the mutex. *)
Definition release (o : owner) (s : cstate) : option cstate :=
  match mutex s with
  | MHeld o' =>
      if decide (o = o') then Some (log MutexUnlock (set_mutex MFree s))
      else None
  | _ => None
  end.

(** [platform_cond_wait], first half: the mutex is given up and the caller
    sleeps. *)
Definition wait_release (o : owner) (s : cstate) : option cstate :=
  match mutex s with
  | MHeld o' =>
      if decide (o = o') then Some (log CondWait (set_mutex MFree s))
      else None
  | _ => None
  end.

(** [platform_cond_wait], second half: the mutex is taken back. *)
Definition wait_reacquire (o : owner) (s : cstate) : option cstate :=
  match mutex s with
  | MFree => Some (set_mutex (MHeld o) s)
  | _ => None
  end.

Definition wake (c : pc) : pc :=
  match c with WBlocked => WWoken | _ => c end.

Definition stopped (s : cstate) : bool :=
  bool_decide (keep_running (pool s) = 0).

(** The threads that run [worker_thread], as against those that submit. *)
Definition is_worker (c : pc) : bool :=
  match c with
  | PIdle | PLock _ | PLink _ | PSignal | PUnlock => false
  | _ => true
  end.

(** [worker_thread]: the next step of worker [t], which stands at [c]. *)
Definition worker_thread (t : nat) (c : pc) (s : cstate) : option cstate :=
  match c with
  | WTop => Some (set_pc t (if stopped s then WExited else WLock) s)
  | WLock => set_pc t WCheckFront <$> acquire (Thread t) s
  | WCheckFront =>
      Some (set_pc t (if decide (front (queue (pool s)) = NULL)
                      then WCheckRun else WPop) s)
  | WCheckRun => Some (set_pc t (if stopped s then WPop else WWait) s)
  | WWait => set_pc t WBlocked <$> wait_release (Thread t) s
  | WWoken => set_pc t WRecheck <$> wait_reacquire (Thread t) s
  | WRecheck => Some (set_pc t (if stopped s then WUnlockExit else WCheckFront) s)
  | WUnlockExit => set_pc t WExited <$> release (Thread t) s
  | WPop =>
      '(task, q) ← queue_pop (queue (pool s)) (mem s);
      Some (set_pc t (WUnlock task) (set_pool (set_queue q (pool s)) s))
  | WUnlock task =>
      set_pc t (if decide (task = NULL) then WTop else WRun task)
        <$> release (Thread t) s
  | WRun task =>
      n ← heap (mem s) !! task;
      Some (set_pc t (WFree task) (set_mem (emit (Invoke (func n) (arg n)) (mem s)) s))
  | WFree task =>
      _ ← heap (mem s) !! task;
      Some (set_pc t WTop (set_mem (set_heap (delete task (heap (mem s))) (mem s)) s))
  | _ => None
  end.

(** [queue_push] past its [malloc]: the next step of submitter [t], which
    stands at [c].  [choice] is the sleeper that [platform_cond_signal]
    wakes; it must be [None] exactly when nobody sleeps. *)
Definition queue_push_thread (t : nat) (choice : option nat) (c : pc)
    (s : cstate) : option cstate :=
  match c with
  | PLock node => set_pc t (PLink node) <$> acquire (Thread t) s
  | PLink node =>
      '(q, h) ← push_link node (queue (pool s)) (heap (mem s));
      Some (set_pc t PSignal
              (set_mem (set_heap h (mem s)) (set_pool (set_queue q (pool s)) s)))
  | PSignal =>
      match choice with
      | Some i =>
          match thr s !! i with
          | Some WBlocked => Some (set_pc t PUnlock (set_pc i WWoken (log CondSignal s)))
          | _ => None
          end
      | None =>
          if bool_decide (WBlocked ∈ thr s) then None
          else Some (set_pc t PUnlock (log CondSignal s))
      end
  | PUnlock => set_pc t PIdle <$> release (Thread t) s
  | _ => None
  end.

(** The next step of thread [t]. *)
Definition thread_step (t : nat) (choice : option nat) (s : cstate)
  : option cstate :=
  c ← thr s !! t;
  if is_worker c then worker_thread t c s else queue_push_thread t choice c s.

(** Thread [t] enters [thread_pool_add_task] on the (non-null) pool; [node]
    is what the [malloc] in [queue_push] returns: null, or an address not in
    use. *)
Definition submit_step (t : nat) (f a node : Z) (s : cstate) : option cstate :=
  c ← thr s !! t;
  match c with
  | PIdle =>
      if decide (node = NULL) then
        Some (set_mem (emit (Stderr ("queue_push: failed to allocate task_node" +:+ nl))
                            (mem s)) s)
      else
        match heap (mem s) !! node with
        | Some _ => None
        | None =>
            Some (set_pc t (PLock node)
                    (set_mem (set_heap (<[node := {| func := f; arg := a; next := NULL |}]>
                                          (heap (mem s))) (mem s)) s))
        end
  | _ => None
  end.

(** A sleeping worker wakes without having been signalled. *)
Definition wake_step (t : nat) (s : cstate) : option cstate :=
  c ← thr s !! t;
  match c with
  | WBlocked => Some (set_pc t WWoken s)
  | _ => None
  end.

(** The next step of the caller of [thread_pool_shutdown].  A join returns
    once the thread behind the handle has returned; the handle of slot [i]
    is the index of its thread.  Joining a slot that holds no handle is
    undefined. *)
Definition shutdown_step (s : cstate) : option cstate :=
  match sd s with
  | SIdle =>
      Some (set_sd (match threads (pool s) with
                    | None => SReturned
                    | Some _ => SFlag
                    end) s)
  | SFlag => Some (set_sd SLock (set_pool (set_keep_running 0 (pool s)) s))
  | SLock => set_sd SBroadcast <$> acquire Main s
  | SBroadcast =>
      Some (set_sd SUnlock (set_thr (wake <$> thr s) (log CondBroadcast s)))
  | SUnlock => set_sd (SJoin 0) <$> release Main s
  | SJoin i =>
      if decide (i < num_threads (pool s)) then
        arr ← threads (pool s);
        slot ← arr !! Z.to_nat i;
        hd ← slot;
        c ← thr s !! Z.to_nat hd;
        match c with
        | WExited => Some (set_sd (SJoin (i + 1)) (log (ThreadJoin (Some hd)) s))
        | _ => None
        end
      else Some (set_sd SFree s)
  | SFree =>
      Some (set_sd SDestroy
              (set_pool {| threads := None; num_threads := 0;
                           queue := queue (pool s);
                           keep_running := keep_running (pool s) |} s))
  | SDestroy =>
      match mutex s with
      | MFree =>
          '(q, w) ← queue_destroy (queue (pool s)) (mem s);
          Some (set_sd SReturned
                  (set_mutex MDead (set_mem w (set_pool (set_queue q (pool s)) s))))
      | _ => None
      end
  | SReturned => None
  end.

Inductive action :=
| Step (t : nat) (choice : option nat)
| Wake (t : nat)
| Submit (t : nat) (f a node : Z)
| Shutdown.

Definition step (a : action) (s : cstate) : option cstate :=
  match a with
  | Step t choice => thread_step t choice s
  | Wake t => wake_step t s
  | Submit t f x node => submit_step t f x node s
  | Shutdown => shutdown_step s
  end.

Fixpoint run (sched : list action) (s : cstate) : option cstate :=
  match sched with
  | [] => Some s
  | a :: rest => s' ← step a s; run rest s'
  end.

(** The pool as [thread_pool_init] leaves it when all [m] workers start,
    with [np] further threads that may submit tasks. *)
Definition boot (m np : nat) : cstate :=
  let r := thread_pool_init (Some (ThreadPool None 0 (TaskQueue 0 0) 0))
             (Z.of_nat m) true Some (World ∅ []) in
  {| pool := default (ThreadPool None 0 (TaskQueue 0 0) 0) r.1;
     mem := r.2;
     mutex := MFree;
     thr := replicate m WTop ++ replicate np PIdle;
     sd := SIdle |}.

(** How many task bodies have been entered. *)
Definition invoked (e : event) : nat :=
  match e with Invoke _ _ => 1 | _ => 0 end.

Fixpoint count_invoked (tr : list event) : nat :=
  match tr with
  | [] => 0
  | e :: tr' => invoked e + count_invoked tr'
  end.

Definition invocations (s : cstate) : nat := count_invoked (trace (mem s)).

(** ** A run in which a submission meets a cleared flag *)

(** Worker 0 passes the loop test, the shutdown clears the flag, and only
    then thread 1 submits task (7, 9), for which [malloc] gives node 100. *)
Definition race_pre : list action := [Step 0 None; Shutdown; Shutdown].

(** The submission completes and the worker goes on: lock, front test, pop,
    unlock, call. *)
Definition race_post : list action :=
  [Step 1 None; Step 1 None; Step 1 None; Step 1 None;
   Step 0 None; Step 0 None; Step 0 None; Step 0 None; Step 0 None].

(** The worker frees the node and leaves; the shutdown runs to its end. *)
Definition race_rest : list action :=
  [Step 0 None; Step 0 None;
   Shutdown; Shutdown; Shutdown; Shutdown; Shutdown; Shutdown; Shutdown].

(** ** Measures on the threads *)

(** A worker at one of these points goes on to dequeue without reading
    [keep_running] at the top of the loop again. *)
Definition armed (c : pc) : nat :=
  match c with
  | WLock | WCheckFront | WCheckRun | WPop | WUnlock _ | WRun _ => 1
  | _ => 0
  end.

Fixpoint total (g : pc → nat) (l : list pc) : nat :=
  match l with
  | [] => 0
  | c :: l' => g c + total g l'
  end.

(** ** Invariants of the reachable states *)

(** The program points at which the queue mutex is held. *)
Definition holds (c : pc) : bool :=
  match c with
  | WCheckFront | WCheckRun | WWait | WRecheck | WUnlockExit | WPop
  | WUnlock _ | PLink _ | PSignal | PUnlock => true
  | _ => false
  end.

(** The node that a thread has in hand: popped and not yet freed, or
    allocated and not yet linked. *)
Definition node_of (c : pc) : option Z :=
  match c with
  | WUnlock task => if decide (task = NULL) then None else Some task
  | WRun task | WFree task => Some task
  | PLock node | PLink node => Some node
  | _ => None
  end.

Definition pending (c : pc) : option Z :=
  match c with
  | PLock node | PLink node => Some node
  | _ => None
  end.

(** The handle array after a start in which every thread came up. *)
Definition handles (m : nat) : list (option Z) := Some <$> seqZ 0 (Z.of_nat m).

Definition pool_live (m : nat) (s : cstate) : Prop :=
  threads (pool s) = Some (handles m) ∧ num_threads (pool s) = Z.of_nat m.

Definition all_exited (n : nat) (s : cstate) : Prop :=
  ∀ k, (k < n)%nat → thr s !! k = Some WExited.

(** The first [m] threads are the workers, the others submit. *)
Definition kinds_ok (m : nat) (s : cstate) : Prop :=
  (m ≤ length (thr s))%nat ∧
  ∀ k c, thr s !! k = Some c → (is_worker c = true ↔ (k < m)%nat).

(** What the shutdown has achieved at each of its program points. *)
Definition phase_ok (m : nat) (s : cstate) : Prop :=
  match sd s with
  | SIdle | SFlag => pool_live m s
  | SLock | SBroadcast | SUnlock => pool_live m s ∧ keep_running (pool s) = 0
  | SJoin i =>
      pool_live m s ∧ keep_running (pool s) = 0 ∧
      0 ≤ i ≤ Z.of_nat m ∧ all_exited (Z.to_nat i) s
  | SFree | SDestroy | SReturned =>
      keep_running (pool s) = 0 ∧ all_exited m s
  end.

(** The mutex is held by exactly the thread that is inside a critical
    section, and is dead only once the shutdown has returned. *)
Definition lock_ok (s : cstate) : Prop :=
  (∀ t c, thr s !! t = Some c → holds c = true → mutex s = MHeld (Thread t)) ∧
  (∀ t, mutex s = MHeld (Thread t) → ∃ c, thr s !! t = Some c ∧ holds c = true) ∧
  (mutex s = MHeld Main ↔ (sd s = SBroadcast ∨ sd s = SUnlock)) ∧
  (mutex s = MDead → sd s = SReturned).

Definition past_broadcast (c : spc) : bool :=
  match c with
  | SUnlock | SJoin _ | SFree | SDestroy | SReturned => true
  | _ => false
  end.

(** After the broadcast nobody sleeps on the condition variable, nor is
    about to. *)
Definition sleep_ok (s : cstate) : Prop :=
  past_broadcast (sd s) = true →
  ∀ t c, thr s !! t = Some c → c ≠ WBlocked ∧ c ≠ WWait.

(** The queue is a well-formed list; the nodes that threads have in hand are
    live, outside the queue and pairwise distinct; a node about to be linked
    has a null successor. *)
Definition heap_ok (s : cstate) : Prop :=
  ∃ l, queue_repr (heap (mem s)) (queue (pool s)) l ∧
       (∀ t c x, thr s !! t = Some c → node_of c = Some x →
          x ≠ NULL ∧ is_Some (heap (mem s) !! x) ∧ x ∉ map addr l) ∧
       (∀ t t' c c' x, thr s !! t = Some c → thr s !! t' = Some c' →
          node_of c = Some x → node_of c' = Some x → t = t') ∧
       (∀ t c x, thr s !! t = Some c → pending c = Some x →
          ∃ nd, heap (mem s) !! x = Some nd ∧ next nd = NULL).

Definition Inv (m : nat) (s : cstate) : Prop :=
  kinds_ok m s ∧ phase_ok m s ∧ lock_ok s ∧ sleep_ok s ∧ heap_ok s.

(** For each thread, whether it is inside a critical section. *)
Definition held_by (s : cstate) : list bool := holds <$> thr s.

(** How far a thread is from leaving, once the flag is cleared. *)
Definition rank (c : pc) : nat :=
  match c with
  | WExited => 0
  | WTop => 1
  | WFree _ => 2
  | WRun _ => 3
  | WUnlock _ => 4
  | WPop => 5
  | WCheckRun => 6
  | WCheckFront => 7
  | WLock => 8
  | WUnlockExit => 1
  | WRecheck => 2
  | WWoken => 3
  | WBlocked => 4
  | WWait => 5
  | PIdle => 0
  | PUnlock => 1
  | PSignal => 2
  | PLink _ => 3
  | PLock _ => 4
  end.

Definition shutdown_rank (s : cstate) : nat :=
  match sd s with
  | SReturned => 0
  | SDestroy => 1
  | SFree => 2
  | SJoin i => 3 + Z.to_nat (num_threads (pool s) - i)
  | SUnlock => 4 + Z.to_nat (num_threads (pool s))
  | SBroadcast => 5 + Z.to_nat (num_threads (pool s))
  | SLock => 6 + Z.to_nat (num_threads (pool s))
  | SFlag => 7 + Z.to_nat (num_threads (pool s))
  | SIdle => 8 + Z.to_nat (num_threads (pool s))
  end.

Definition steps_left (s : cstate) : nat :=
  (shutdown_rank s + total rank (thr s))%nat.

(** No new submission, no wake-up without a signal. *)
Definition quiet (a : action) : Prop :=
  match a with
  | Step _ _ | Shutdown => True
  | Wake _ | Submit _ _ _ _ => False
  end.

(** The calls of [platform_thread_create], in call order: the slot and the
    handle written to it ([None] for a failed call). *)
Definition created (e : event) : option (Z * option Z) :=
  match e with
  | Platform (ThreadCreate i hd) => Some (i, hd)
  | _ => None
  end.

Definition creates (tr : list event) : list (Z * option Z) := omap created tr.

(** What was written to [stderr], in order. *)
Definition stderr_line (e : event) : option string :=
  match e with
  | Stderr msg => Some msg
  | _ => None
  end.

Definition stderr_lines (tr : list event) : list string := omap stderr_line tr.

(** The slots for which [platform_thread_create] fails. *)
Definition failed_slots (spawn : Z → option Z) (n : Z) : list Z :=
  filter (λ i, spawn i = None) (seqZ 0 n).

(** ** Further observations on the threads *)

(** A worker that has returned, or is at the unlock before its return. *)
Definition leaving (c : pc) : bool :=
  match c with
  | WExited | WUnlockExit => true
  | _ => false
  end.

(** Whether the thread at [c] has a next step to take now: not when it has
    returned, sleeps in [platform_cond_wait] or is outside a submission, and
    at a lock operation only when the mutex is free. *)
Definition can_move (c : pc) (s : cstate) : Prop :=
  match c with
  | WBlocked | WExited | PIdle => False
  | WLock | WWoken | PLock _ => mutex s = MFree
  | _ => True
  end.

(** Worker 0 enters its critical section. *)
Definition worker_locks : list action := [Step 0 None; Step 0 None].

(** ** Where the submitted tasks are *)

(** The node, if any, whose task the thread at [c] still has to link or to
    run: allocated and not yet linked, or dequeued and not yet called. *)
Definition unrun (c : pc) : option Z :=
  match c with
  | WUnlock task => if decide (task = NULL) then None else Some task
  | WRun task => Some task
  | PLock node | PLink node => Some node
  | _ => None
  end.

(** The task that the node at [x] carries. *)
Definition task_of (h : gmap Z task_node_t) (x : Z) : list (Z * Z) :=
  match h !! x with
  | Some nd => [(func nd, arg nd)]
  | None => []
  end.

Definition hand (h : gmap Z task_node_t) (u : option Z) : list (Z * Z) :=
  match u with
  | Some x => task_of h x
  | None => []
  end.

(** The tasks in the threads' hands, by thread index. *)
Fixpoint in_hand (h : gmap Z task_node_t) (l : list pc) : list (Z * Z) :=
  match l with
  | [] => []
  | c :: l' => hand h (unrun c) ++ in_hand h l'
  end.

(** The tasks in the queue, oldest first. *)
Definition queued (l : list item) : list (Z * Z) :=
  (λ it, (ifunc it, iarg it)) <$> l.

(** The task bodies entered so far, in the order of the calls. *)
Definition invoked_task (e : event) : option (Z * Z) :=
  match e with
  | Invoke f a => Some (f, a)
  | _ => None
  end.

Definition invoked_tasks (tr : list event) : list (Z * Z) :=
  omap invoked_task tr.

(** The submissions of a schedule for which [malloc] gave a node, in order. *)
Definition accepted_task (a : action) : option (Z * Z) :=
  match a with
  | Submit _ f x node => if decide (node = NULL) then None else Some (f, x)
  | _ => None
  end.

Definition accepted (sched : list action) : list (Z * Z) :=
  omap accepted_task sched.

(** What one step does to the queue [l], the heap and the nodes in the
    threads' hands: nothing, or one of the six moves of a node. *)
Inductive change (l : list item) (s s' : cstate) (a : action)
  : list item → Prop :=
| change_none :
    heap (mem s') = heap (mem s) → queue (pool s') = queue (pool s) →
    node_of <$> thr s' = node_of <$> thr s →
    unrun <$> thr s' = unrun <$> thr s →
    invoked_tasks (trace (mem s')) = invoked_tasks (trace (mem s)) →
    accepted_task a = None →
    change l s s' a l
| change_pop t it l' :
    l = it :: l' → thr s !! t = Some WPop →
    thr s' = <[t := WUnlock (addr it)]> (thr s) →
    heap (mem s') = heap (mem s) →
    invoked_tasks (trace (mem s')) = invoked_tasks (trace (mem s)) →
    accepted_task a = None →
    change l s s' a l'
| change_run t task nd :
    thr s !! t = Some (WRun task) → heap (mem s) !! task = Some nd →
    thr s' = <[t := WFree task]> (thr s) →
    heap (mem s') = heap (mem s) → queue (pool s') = queue (pool s) →
    invoked_tasks (trace (mem s'))
      = invoked_tasks (trace (mem s)) ++ [(func nd, arg nd)] →
    accepted_task a = None →
    change l s s' a l
| change_free t task :
    thr s !! t = Some (WFree task) → thr s' = <[t := WTop]> (thr s) →
    heap (mem s') = delete task (heap (mem s)) →
    queue (pool s') = queue (pool s) →
    invoked_tasks (trace (mem s')) = invoked_tasks (trace (mem s)) →
    accepted_task a = None →
    change l s s' a l
| change_link t node nd :
    thr s !! t = Some (PLink node) → heap (mem s) !! node = Some nd →
    thr s' = <[t := PSignal]> (thr s) →
    (∀ x, x ∉ map addr l → heap (mem s') !! x = heap (mem s) !! x) →
    (∀ x, is_Some (heap (mem s') !! x) ↔ is_Some (heap (mem s) !! x)) →
    invoked_tasks (trace (mem s')) = invoked_tasks (trace (mem s)) →
    accepted_task a = None →
    change l s s' a (l ++ [Item node (func nd) (arg nd)])
| change_alloc t f x node :
    a = Submit t f x node → node ≠ NULL → heap (mem s) !! node = None →
    thr s !! t = Some PIdle → thr s' = <[t := PLock node]> (thr s) →
    heap (mem s') = <[node := TaskNode f x NULL]> (heap (mem s)) →
    queue (pool s') = queue (pool s) →
    invoked_tasks (trace (mem s')) = invoked_tasks (trace (mem s)) →
    change l s s' a l
| change_destroy :
    a = Shutdown → sd s = SDestroy → sd s' = SReturned → thr s' = thr s →
    heap (mem s') = free_all l (heap (mem s)) →
    invoked_tasks (trace (mem s')) = invoked_tasks (trace (mem s)) →
    change l s s' a [].

(** The step from [s] to [s'] is such a move, and leaves a queue. *)
Definition moves (l : list item) (s s' : cstate) (a : action) : Prop :=
  ∃ l', change l s s' a l' ∧ queue_repr (heap (mem s')) (queue (pool s')) l'.

(** The tasks that are submitted and not completed: called, queued, or in a
    thread's hand. *)
Definition tasks (s : cstate) (l : list item) : list (Z * Z) :=
  invoked_tasks (trace (mem s)) ++ queued l ++ in_hand (heap (mem s)) (thr s).

(** The same for one worker and one submitter, in the order in which the
    tasks were submitted. *)
Definition tasks_in_order (s : cstate) (l : list item) : list (Z * Z) :=
  invoked_tasks (trace (mem s)) ++
  hand (heap (mem s)) (unrun (default PIdle (thr s !! 0%nat))) ++
  queued l ++
  hand (heap (mem s)) (unrun (default PIdle (thr s !! 1%nat))).

(** A run in which thread 1 submits tasks (7, 9) and (8, 10), worker 0 runs
    the first, and the shutdown is called: the second is discarded. *)
Definition two_tasks_run : list action :=
  [Submit 1 7 9 100; Step 1 None; Step 1 None; Step 1 None; Step 1 None;
   Submit 1 8 10 200; Step 1 None; Step 1 None; Step 1 None; Step 1 None;
   Step 0 None; Step 0 None; Step 0 None; Step 0 None; Step 0 None;
   Step 0 None; Step 0 None].

Definition two_tasks_shutdown : list action :=
  two_tasks_run ++
  [Shutdown; Shutdown; Step 0 None; Shutdown; Shutdown; Shutdown; Shutdown;
   Shutdown; Shutdown; Shutdown].



(** ** Wake-ups *)

(** A worker that is in its loop and not inside [platform_cond_wait]. *)
Definition awake (c : pc) : bool :=
  match c with
  | WTop | WLock | WCheckFront | WCheckRun | WWait | WWoken | WRecheck
  | WPop | WUnlock _ | WRun _ | WFree _ => true
  | _ => false
  end.

Definition asleep (c : pc) : nat :=
  match c with WBlocked => 1 | _ => 0 end.

(** A thread that will look at the queue, or wake a worker, without any
    further signal. *)
Definition alert (c : pc) : nat :=
  match c with
  | PSignal => 1
  | _ => if awake c then 1 else 0
  end.

(** While the pool runs: a worker is at the flag test of the inner loop or
    at [platform_cond_wait] only when the queue is empty, and when a task is
    queued and a worker sleeps, some thread is alert. *)
Definition wakeup_ok (s : cstate) : Prop :=
  keep_running (pool s) ≠ 0 →
  (∀ t c, thr s !! t = Some c → c = WCheckRun ∨ c = WWait →
     front (queue (pool s)) = NULL) ∧
  (front (queue (pool s)) ≠ NULL → (0 < total asleep (thr s))%nat →
     (0 < total alert (thr s))%nat).

(** A submission completes while worker 0 sleeps: the signal wakes it. *)
Definition sleeper_signalled : list action :=
  [Step 0 None; Step 0 None; Step 0 None; Step 0 None; Step 0 None;
   Submit 1 7 9 100; Step 1 None; Step 1 None; Step 1 (Some 0%nat)].

(** ** Work left for the threads *)

(** A step of a worker or of a submission, as against a new submission, a
    wake-up without a signal, or a step of the shutdown. *)
Definition thread_action (a : action) : Prop :=
  match a with
  | Step _ _ => True
  | _ => False
  end.

(** How far a thread is from where it rests when the pool keeps running: a
    worker from [platform_cond_wait], counting the dequeue as a new start,
    a submitter from its return, counting the link and the signal for what
    they set off. *)
Definition effort (c : pc) : nat :=
  match c with
  | WBlocked => 0
  | WWait => 1
  | WCheckRun => 2
  | WPop => 2
  | WCheckFront => 3
  | WLock => 4
  | WRecheck => 4
  | WTop => 5
  | WWoken => 5
  | WFree _ => 6
  | WRun _ => 7
  | WUnlock task => if decide (task = NULL) then 6 else 8
  | WUnlockExit => 1
  | WExited => 0
  | PIdle => 0
  | PUnlock => 1
  | PSignal => 7
  | PLink _ => 15
  | PLock _ => 16
  end.

(** The steps that the threads can still take when [l] is queued. *)
Definition work_left (s : cstate) (l : list item) : nat :=
  (total effort (thr s) + 7 * length l)%nat.

(** While the pool runs, a worker is at [queue_pop] only when the queue is
    not empty. *)
Definition pop_ok (s : cstate) : Prop :=
  keep_running (pool s) ≠ 0 →
  ∀ t, thr s !! t = Some WPop → front (queue (pool s)) ≠ NULL.

(** Every worker sleeps in [platform_cond_wait] and no submission is under
    way. *)
Definition at_rest (s : cstate) : Prop :=
  ∀ t c, thr s !! t = Some c → c = WBlocked ∨ c = PIdle.

(** Two tasks are submitted while both workers are in their loop. *)
Definition two_submissions : list action :=
  [Step 0 None; Submit 2 7 9 100; Step 2 None; Step 2 None; Step 2 None;
   Step 2 None; Submit 2 8 10 200; Step 2 None].

(** The program points at which a thread stays until another thread or the
    caller acts. *)
Definition rests (c : pc) : bool :=
  match c with
  | WBlocked | WExited | PIdle => true
  | _ => false
  end.

(** * disable_quick_edit.c: the console mode

    [GetStdHandle], [GetConsoleMode] and [SetConsoleMode] belong to the
    console API; what they answer is an argument of the function, and the
    calls made and the lines written to [stderr] are its result. *)

(** [DWORD] is 32 bits wide. *)
Definition DWORD_WIDTH : Z := 32.

(** The flag of [wincon.h]; the comment at its use gives the value. *)
Definition ENABLE_QUICK_EDIT_MODE : Z := 0x40.

(** [(HANDLE)-1]. *)
Definition INVALID_HANDLE_VALUE : Z := -1.

(** [mode &= ~ENABLE_QUICK_EDIT_MODE]. *)
Definition clear_quick_edit (mode : Z) : Z :=
  Z.land mode (Z.lnot ENABLE_QUICK_EDIT_MODE).

Inductive console_event :=
| ConsoleStderr (msg : string)
| ConsoleSetMode (handle mode : Z).

(** [disable_quick_edit_mode].  [hInput] is the handle that [GetStdHandle]
    returns, [got] the mode that [GetConsoleMode] stores ([None] when the
    call fails), [set_ok] whether [SetConsoleMode] succeeds. *)
Definition disable_quick_edit_mode (hInput : Z) (got : option Z)
    (set_ok : bool) : list console_event :=
  if decide (hInput = INVALID_HANDLE_VALUE) then
    [ConsoleStderr ("Error: Unable to get console input handle" +:+ nl)]
  else
    match got with
    | None => [ConsoleStderr ("Error: Unable to get console mode" +:+ nl)]
    | Some mode =>
        ConsoleSetMode hInput (clear_quick_edit mode) ::
        (if set_ok then []
         else [ConsoleStderr ("Error: Unable to set console mode" +:+ nl)])
    end.

(** The modes passed to [SetConsoleMode], and the lines on [stderr]. *)
Definition set_modes (tr : list console_event) : list (Z * Z) :=
  omap (λ e, match e with ConsoleSetMode hd mode => Some (hd, mode) | _ => None end) tr.

Definition console_errors (tr : list console_event) : list string :=
  omap (λ e, match e with ConsoleStderr msg => Some msg | _ => None end) tr.

(** * main.c: the program that drives the pool

    The cells that hold the task ids come from [malloc(sizeof(int))]; they
    live in a map of their own.  What the program prints, and the calls it
    makes on the pool, are collected in order. *)

Inductive main_event :=
| Stdout (msg : string)
| MainStderr (msg : string)
| SignalInstall                    (* [signal(SIGINT, handle_sigint)] *)
| SleepMs (ms : Z)                 (* [platform_sleep_ms] *)
| PoolInit (n : Z)
| PoolAddTask (f a : Z)
| PoolShutdown.

Global Instance main_event_eq_dec : EqDecision main_event.
Proof. solve_decision. Defined.

Record main_state := MainState {
  ids : gmap Z Z;
  out : list main_event
}.

Definition print (e : main_event) (st : main_state) : main_state :=
  {| ids := ids st; out := out st ++ [e] |}.

(** The value of the function pointer [example_task]. *)
Definition EXAMPLE_TASK : Z := 1.

(** [int] is 32 bits wide. *)
Definition INT_MAX : Z := 2 ^ 31 - 1.

(** [example_task]: reads the id through [arg], frees the cell, prints,
    sleeps for 300 ms, prints. *)
Definition example_task (a : Z) (st : main_state) : option main_state :=
  taskId ← ids st !! a;
  Some (print (Stdout ("[Task] Finished taskId = " +:+ pretty taskId +:+ nl))
         (print (SleepMs 300)
           (print (Stdout ("[Task] Executing taskId = " +:+ pretty taskId +:+ nl))
              {| ids := delete a (ids st); out := out st |}))).

(** The task bodies that the workers have called, applied in the order of
    the calls. *)
Fixpoint run_bodies (tr : list event) (st : main_state) : option main_state :=
  match tr with
  | [] => Some st
  | Invoke f a :: tr' =>
      if decide (f = EXAMPLE_TASK) then st' ← example_task a st; run_bodies tr' st'
      else run_bodies tr' st
  | _ :: tr' => run_bodies tr' st
  end.

(** Line 62 of [main]: [printf("[Main] Enqueued task %d...", *taskId)]. *)
Definition print_enqueued (taskId : Z) (st : main_state) : option main_state :=
  v ← ids st !! taskId;
  Some (print (Stdout ("[Main] Enqueued task " +:+ pretty v
                       +:+ ". Press Ctrl + C to stop." +:+ nl)) st).

(** The loop of [main].  Each element of [its] is one pass for which
    [g_keepRunning] was read as set: the address that [malloc] returns, and
    the task bodies that the workers have completed between the return of
    [thread_pool_add_task] and line 62.  When [its] is used up the flag is
    read as cleared. *)
Fixpoint main_loop (its : list (Z * list event)) (counter : Z)
    (st : main_state) : option main_state :=
  match its with
  | [] => Some st
  | (taskId, done) :: rest =>
      if decide (taskId = NULL) then
        Some (print (MainStderr ("Failed to allocate task ID." +:+ nl)) st)
      else if decide (counter = INT_MAX) then None
      else
        let st1 := print (PoolAddTask EXAMPLE_TASK taskId)
                     {| ids := <[taskId := counter]> (ids st); out := out st |} in
        st2 ← run_bodies done st1;
        st3 ← print_enqueued taskId st2;
        main_loop rest (counter + 1) (print (SleepMs 500) st3)
  end.

(** [main]. *)
Definition main (its : list (Z * list event)) : option main_state :=
  st ← main_loop its 0
         (print (PoolInit 4) (print SignalInstall (MainState ∅ [])));
  Some (print (Stdout ("[Main] All threads shut down, exiting." +:+ nl))
          (print PoolShutdown st)).

(** The cells allocated by the passes that [main] makes: those before the
    first failed [malloc]. *)
Fixpoint allocated (its : list (Z * list event)) : list Z :=
  match its with
  | [] => []
  | (taskId, _) :: rest =>
      if decide (taskId = NULL) then [] else taskId :: allocated rest
  end.

(** The tasks handed to the pool, in order. *)
Definition submitted (tr : list main_event) : list (Z * Z) :=
  omap (λ e, match e with PoolAddTask f a => Some (f, a) | _ => None end) tr.

Definition shutdowns (tr : list main_event) : nat :=
  length (filter (λ e, e = PoolShutdown) tr).

(** What [main] has written to [stdout] and to [stderr]. *)
Definition main_stdout (tr : list main_event) : list string :=
  omap (λ e, match e with Stdout msg => Some msg | _ => None end) tr.

Definition main_stderr (tr : list main_event) : list string :=
  omap (λ e, match e with MainStderr msg => Some msg | _ => None end) tr.

Definition enqueued_line (i : Z) : string :=
  "[Main] Enqueued task " +:+ pretty i +:+ ". Press Ctrl + C to stop." +:+ nl.

(** Worker 0 goes to sleep; thread 4, the caller of [main], submits
    [example_task] with the id cell 500 (the node is 100) and returns from
    [thread_pool_add_task]; the worker, woken by the signal, dequeues the
    task and calls it. *)
Definition early_task_run : list action :=
  [Step 0 None; Step 0 None; Step 0 None; Step 0 None; Step 0 None;
   Submit 4 EXAMPLE_TASK 500 100;
   Step 4 None; Step 4 None; Step 4 (Some 0%nat); Step 4 None;
   Step 0 None; Step 0 None; Step 0 None; Step 0 None; Step 0 None;
   Step 0 None].

(** * endian.c: a packed header seen as a 32-bit word

    The layout is the one that the expected output recorded in the file
    shows: a little-endian machine on which bit-fields are allocated from
    the least significant bit of their byte. *)

Module Endian.

(** [struct BitFields]: two 4-bit fields, an 8-bit and a 16-bit one. *)
Record BitFields := {
  msg_type : Z;
  msg_source : Z;
  counter : Z;
  length : Z
}.

(** Each field holds a value of its width. *)
Definition fits (bf : BitFields) : Prop :=
  0 ≤ msg_type bf < 16 ∧ 0 ≤ msg_source bf < 16 ∧
  0 ≤ counter bf < 256 ∧ 0 ≤ length bf < 65536.

(** [converter.bytes]: the four bytes of the structure, lowest address
    first. *)
Definition bytes (bf : BitFields) : list Z :=
  [msg_type bf + 16 * msg_source bf; counter bf;
   length bf mod 256; length bf / 256].

(** The byte at address [i] of a 32-bit word. *)
Definition byte_of (v : Z) (i : Z) : Z := (v / 256 ^ i) mod 256.

(** A 32-bit word from its bytes, lowest address first. *)
Definition word_of (bs : list Z) : Z :=
  foldr (λ b acc, b + 256 * acc) 0 bs.

(** [converter.value]. *)
Definition value (bf : BitFields) : Z := word_of (bytes bf).

(** [htonl] on this machine: the bytes in the opposite order. *)
Definition htonl (v : Z) : Z :=
  word_of [byte_of v 3; byte_of v 2; byte_of v 1; byte_of v 0].

Definition hex_digit (d : Z) : string :=
  match d with
  | 0 => "0" | 1 => "1" | 2 => "2" | 3 => "3" | 4 => "4" | 5 => "5"
  | 6 => "6" | 7 => "7" | 8 => "8" | 9 => "9" | 10 => "A" | 11 => "B"
  | 12 => "C" | 13 => "D" | 14 => "E" | _ => "F"
  end.

(** [%0nX] for a value of at most [n] hexadecimal digits. *)
Fixpoint hex (n : nat) (v : Z) : string :=
  match n with
  | O => ""
  | S n' => hex n' (v / 16) +:+ hex_digit (v mod 16)
  end.

(** [print_struct_details]: the lines written to [stdout]. *)
Definition print_struct_details (bf : BitFields) (test_name : string)
  : list string :=
  ["=== " +:+ test_name +:+ " ===" +:+ nl;
   "32-bit value: 0x" +:+ hex 8 (value bf) +:+ nl;
   "Bytes in memory (left to right, low to high address):" +:+ nl] ++
  imap (λ i b, "Byte " +:+ pretty (Z.of_nat i) +:+ ": 0x" +:+ hex 2 b +:+ nl)
       (bytes bf) ++
  ["Network byte order (big endian): 0x" +:+ hex 8 (htonl (value bf)) +:+ nl;
   nl].

(** The two structures that [main] prints. *)
Definition bf1 : BitFields :=
  {| msg_type := 0x03; msg_source := 0x06; counter := 0x78; length := 0xABCD |}.

Definition bf2 : BitFields :=
  {| msg_type := 0xF; msg_source := 0; counter := 0; length := 0 |}.

Definition main : list string :=
  print_struct_details bf1 "Test 1: All fields set" ++
  print_struct_details bf2 "Test 2: Only msg_type=0xF".

End Endian.

(** * zip_logs.c: the thread that compresses logs

    The queue of file names, the logger, the shutdown test and the sleep are
    declared [extern]; they and the calls on [stdio] and [zlib] are what the
    thread does, collected in order.  What these calls answer is an
    argument of the functions below. *)

Inductive log_level := LOG_INFO | LOG_ERROR.

Inductive zip_event :=
| Logged (level : log_level) (msg : string)
| ZSleep (ms : Z)
| Fopen (name : string)
| Gzopen (name : string)
| Gzwrite (buf : list Byte.byte)
| Fclose
| Gzclose
| Remove (name : string).

(** [sizeof(log_filename)], [sizeof(compressed_filename)]. *)
Definition NAME_SIZE : nat := 256.

(** [snprintf(compressed_filename, sizeof(compressed_filename), "%s.gz",
    log_filename)]: at most 255 characters are stored. *)
Definition compressed_name (log_filename : string) : string :=
  String.substring 0 (NAME_SIZE - 1) (log_filename +:+ ".gz").

(** The loop around [fread] and [gzwrite].  [reads] are the successive
    contents of [buffer] after [fread], each of [bytes_read] bytes, at most
    [sizeof(buffer)] = 8192, so that the cast to [int] changes nothing;
    [wr i] is what the [i]-th [gzwrite] returns. *)
Fixpoint compress_loop (i : nat) (reads : list (list Byte.byte))
    (wr : nat → Z) (compressed_filename : string) : list zip_event :=
  match reads with
  | [] => []
  | buf :: rest =>
      if decide (length buf = 0%nat) then []
      else
        Gzwrite buf ::
        (if decide (wr i = Z.of_nat (length buf))
         then compress_loop (S i) rest wr compressed_filename
         else [Logged LOG_ERROR
                 ("Error writing compressed log: " +:+ compressed_filename)])
  end.

(** What the calls of one pass of the outer loop answer: the name stored by
    [queue_pop] ([None] when it returns false), what [fread] delivers from
    the file ([None] when [fopen] fails), whether [gzopen] succeeds, the
    results of [gzwrite], and whether [remove] succeeds. *)
Record pass := Pass {
  popped : option string;
  file : option (list (list Byte.byte));
  gz_ok : bool;
  written : nat → Z;
  remove_ok : bool
}.

(** One pass of the outer loop of [log_compression_thread]. *)
Definition compress_pass (p : pass) : list zip_event :=
  match popped p with
  | None => [ZSleep 500]
  | Some log_filename =>
      Logged LOG_INFO ("Compressing log: " +:+ log_filename) ::
      Fopen log_filename ::
      match file p with
      | None =>
          [Logged LOG_ERROR ("Failed to open log file: " +:+ log_filename)]
      | Some reads =>
          Gzopen (compressed_name log_filename) ::
          if gz_ok p then
            compress_loop 0 reads (written p) (compressed_name log_filename) ++
            [Fclose; Gzclose; Remove log_filename;
             if remove_ok p then
               Logged LOG_INFO
                 ("Log file compressed and deleted: " +:+ log_filename)
             else
               Logged LOG_ERROR
                 ("Failed to delete original log: " +:+ log_filename)]
          else
            [Logged LOG_ERROR ("Failed to create compressed log: "
                               +:+ compressed_name log_filename);
             Fclose]
      end
  end.

(** [log_compression_thread]: one pass for each time [shutdown_signalled]
    answers false, then the exit message. *)
Definition log_compression_thread (passes : list pass) : list zip_event :=
  (passes ≫= compress_pass) ++
  [Logged LOG_INFO "Log compression thread exiting."].

(** The buffers handed to [gzwrite], in order. *)
Definition gz_written (tr : list zip_event) : list (list Byte.byte) :=
  omap (λ e, match e with Gzwrite buf => Some buf | _ => None end) tr.

(** The part of the file that [fread] delivers before it returns 0. *)
Fixpoint delivered (reads : list (list Byte.byte)) : list (list Byte.byte) :=
  match reads with
  | [] => []
  | buf :: rest =>
      if decide (length buf = 0%nat) then [] else buf :: delivered rest
  end.

(** The names handed to [remove], in order. *)
Definition removed (tr : list zip_event) : list string :=
  omap (λ e, match e with Remove name => Some name | _ => None end) tr.

(** The number of calls of [fclose], of [gzclose], and the arguments of
    [sleep_ms]. *)
Definition fcloses (tr : list zip_event) : nat :=
  length (omap (λ e, match e with Fclose => Some e | _ => None end) tr).

Definition gzcloses (tr : list zip_event) : nat :=
  length (omap (λ e, match e with Gzclose => Some e | _ => None end) tr).

Definition sleeps (tr : list zip_event) : list Z :=
  omap (λ e, match e with ZSleep ms => Some ms | _ => None end) tr.

(** The passes in which [fopen] succeeds, and those in which [gzopen]
    succeeds as well, with the name popped. *)
Definition fopened (p : pass) : option string :=
  match popped p, file p with
  | Some name, Some _ => Some name
  | _, _ => None
  end.

Definition both_opened (p : pass) : option string :=
  match fopened p with
  | Some name => if gz_ok p then Some name else None
  | None => None
  end.

(** The message that ends a pass in which [remove] was reached. *)
Definition remove_message (p : pass) (name : string) : zip_event :=
  if remove_ok p then
    Logged LOG_INFO ("Log file compressed and deleted: " +:+ name)
  else Logged LOG_ERROR ("Failed to delete original log: " +:+ name).

(** A pass over a file of three buffers whose second [gzwrite] is short. *)
Definition short_write : pass :=
  {| popped := Some "app.log";
     file := Some [[Byte.x01; Byte.x02]; [Byte.x03]; [Byte.x04]];
     gz_ok := true;
     written := λ i, if decide (i = 0%nat) then 2 else 0;
     remove_ok := true |}.

(** * Proofs *)

(** ** Lemmas on the representation *)

Section Representation.
Implicit Types (h : gmap Z task_node_t) (l : list item) (q : task_queue_t).

Lemma chain_null h l : chain h NULL l → l = [].
Proof. destruct l as [|it l]; simpl; [done|]. intros (_ & Hn & _). done. Qed.

Lemma chain_nonnull h p l : chain h p l → p ≠ NULL → l ≠ [].
Proof. destruct l; simpl; congruence. Qed.

Lemma chain_insert_other h p l a n :
  a ∉ map addr l → chain h p l → chain (<[a := n]> h) p l.
Proof.
  revert p. induction l as [|it l IH]; simpl; intros p Hout Hc; [done|].
  destruct Hc as (-> & Hn & nx & Hl & Hc).
  apply not_elem_of_cons in Hout as [Hne Hout].
  repeat split; [done|]. exists nx. split; [|by apply IH].
  by rewrite lookup_insert_ne.
Qed.

Lemma chain_delete_other h p l a :
  a ∉ map addr l → chain h p l → chain (delete a h) p l.
Proof.
  revert p. induction l as [|it l IH]; simpl; intros p Hout Hc; [done|].
  destruct Hc as (-> & Hn & nx & Hl & Hc).
  apply not_elem_of_cons in Hout as [Hne Hout].
  repeat split; [done|]. exists nx. split; [|by apply IH].
  by rewrite lookup_delete_ne.
Qed.

Lemma chain_live h p l a : chain h p l → a ∈ map addr l → is_Some (h !! a).
Proof.
  revert p. induction l as [|it l IH]; simpl; intros p Hc Hin.
  - by apply elem_of_nil in Hin.
  - destruct Hc as (-> & Hn & nx & Hl & Hc).
    apply elem_of_cons in Hin as [->|Hin]; [by eexists|by eapply IH].
Qed.

Lemma last_addr_in l it :
  List.last (map addr (it :: l)) NULL ∈ map addr (it :: l).
Proof.
  revert it. induction l as [|it' l IH]; intros it.
  - simpl. apply elem_of_cons. by left.
  - change (List.last (map addr (it :: it' :: l)) NULL)
      with (List.last (map addr (it' :: l)) NULL).
    change (map addr (it :: it' :: l)) with (addr it :: map addr (it' :: l)).
    apply elem_of_cons. right. apply IH.
Qed.

Lemma last_addr_snoc l it : List.last (map addr (l ++ [it])) NULL = addr it.
Proof. rewrite List.map_app. simpl. apply List.last_last. Qed.

(** Linking a fresh node behind the last one extends the chain. *)
Lemma chain_link h p it l node f a :
  chain h p (it :: l) → NoDup (map addr (it :: l)) →
  node ∉ map addr (it :: l) → node ≠ NULL →
  h !! node = Some {| func := f; arg := a; next := NULL |} →
  ∃ r, h !! List.last (map addr (it :: l)) NULL = Some r ∧
       chain (<[List.last (map addr (it :: l)) NULL :=
                  {| func := func r; arg := arg r; next := node |}]> h)
             p ((it :: l) ++ [Item node f a]).
Proof.
  revert p it. induction l as [|it' l IH]; intros p it Hc Hnd Hout Hnn Hnode.
  - simpl in *. destruct Hc as (-> & Hn & nx & Hl & ->).
    eexists. split; [exact Hl|]. simpl.
    repeat split; [done|]. exists node. rewrite lookup_insert_eq. split; [done|].
    repeat split; [done|]. exists NULL. split; [|done].
    rewrite lookup_insert_ne; [done|]. set_solver.
  - destruct Hc as (-> & Hn & nx & Hl & Hc).
    change (map addr (it :: it' :: l)) with (addr it :: map addr (it' :: l)) in *.
    apply NoDup_cons in Hnd as [Hfirst Hnd].
    apply not_elem_of_cons in Hout as [Hne Hout].
    destruct (IH nx it' Hc Hnd Hout Hnn Hnode) as (r & Hr & Hch).
    change (List.last (addr it :: map addr (it' :: l)) NULL)
      with (List.last (map addr (it' :: l)) NULL).
    exists r. split; [done|].
    change ((it :: it' :: l) ++ [Item node f a])
      with (it :: ((it' :: l) ++ [Item node f a])).
    cbn [chain]. repeat split; [done|]. exists nx. split; [|done].
    rewrite lookup_insert_ne; [done|].
    intros Heq. apply Hfirst. rewrite <- Heq. apply last_addr_in.
Qed.

Lemma queue_repr_nil_iff h q :
  queue_repr h q [] ↔ front q = NULL ∧ rear q = NULL.
Proof.
  unfold queue_repr. simpl. split.
  - by intros (? & ? & _).
  - intros [? ?]. repeat split; [done|done|constructor].
Qed.

Lemma chain_addrs_nonnull h p l : chain h p l → NULL ∉ map addr l.
Proof.
  revert p. induction l as [|it l IH]; simpl; intros p Hc.
  - apply not_elem_of_nil.
  - destruct Hc as (-> & Hn & nx & _ & Hc).
    apply not_elem_of_cons. split; [congruence|by eapply IH].
Qed.

Lemma queue_repr_null_inv h q l : queue_repr h q l → null_inv q.
Proof.
  intros (Hc & Hr & Hnd). unfold null_inv. destruct l as [|it l].
  - simpl in *. by split.
  - pose proof (chain_addrs_nonnull _ _ _ Hc) as Hnz.
    pose proof (last_addr_in l it) as Hin. rewrite <- Hr in Hin.
    destruct Hc as (Hf & Hn & _). split; [congruence|].
    intros Hz. rewrite Hz in Hin. done.
Qed.
End Representation.

Section Operations.
Implicit Types (h : gmap Z task_node_t) (l : list item) (q : task_queue_t)
               (w : world).

Lemma free_all_lookup_out l h x :
  x ∉ map addr l → free_all l h !! x = h !! x.
Proof.
  revert h. induction l as [|it l IH]; simpl; intros h Hout; [done|].
  apply not_elem_of_cons in Hout as [Hne Hout].
  unfold free_all in *. simpl. rewrite IH by done. by rewrite lookup_delete_ne.
Qed.

Lemma free_all_lookup_in l h x :
  x ∈ map addr l → free_all l h !! x = None.
Proof.
  revert h. induction l as [|it l IH]; simpl; intros h Hin.
  - by apply elem_of_nil in Hin.
  - unfold free_all in *. simpl.
    destruct (decide (x ∈ map addr l)) as [Hl|Hl]; [by apply IH|].
    apply elem_of_cons in Hin as [->|Hin]; [|done].
    fold (free_all l (delete (addr it) h)).
    rewrite free_all_lookup_out by done. apply lookup_delete_eq.
Qed.

(** The allowance of [destroy_loop] is never what stops it. *)
Lemma destroy_loop_allowance k p h :
  (size h ≤ k)%nat → destroy_loop k p h ≠ Exhausted.
Proof.
  revert p h. induction k as [|k IH]; intros p h Hk; simpl.
  - destruct (decide (p = NULL)); [done|].
    destruct (h !! p) as [nd|] eqn:Hp; [|done].
    assert (size h ≠ 0%nat) by (eapply map_size_ne_0_lookup_2; eauto). lia.
  - destruct (decide (p = NULL)); [done|].
    destruct (h !! p) as [nd|] eqn:Hp; [|done].
    apply IH. rewrite map_size_delete_Some by eauto. lia.
Qed.

Lemma destroy_loop_chain k p h l :
  chain h p l → NoDup (map addr l) → (size h ≤ k)%nat →
  destroy_loop k p h = Finished (free_all l h).
Proof.
  revert k p h. induction l as [|it l IH]; intros k p h Hc Hnd Hk.
  - simpl in Hc. subst p. by destruct k.
  - destruct Hc as (-> & Hn & nx & Hl & Hc). simpl in Hnd.
    apply NoDup_cons in Hnd as [Hfirst Hnd].
    assert (size h ≠ 0%nat) by (eapply map_size_ne_0_lookup_2; eauto).
    destruct k as [|k]; [lia|].
    simpl. rewrite decide_False by done. rewrite Hl. simpl.
    rewrite (IH k nx (delete (addr it) h)); [done| |done|].
    + by apply chain_delete_other.
    + rewrite map_size_delete_Some by eauto. lia.
Qed.

Lemma queue_pop_repr q w it l :
  queue_repr (heap w) q (it :: l) →
  ∃ q', queue_pop q w = Some (addr it, q') ∧ queue_repr (heap w) q' l.
Proof.
  intros (Hc & Hr & Hnd). destruct Hc as (Hf & Hn & nx & Hl & Hc).
  simpl in Hnd. apply NoDup_cons in Hnd as [Hfirst Hnd].
  unfold queue_pop. rewrite decide_False by done. rewrite Hl. simpl.
  rewrite Hf. destruct (decide (nx = NULL)) as [->|Hnx].
  - apply chain_null in Hc as ->. eexists. split; [done|].
    by apply queue_repr_nil_iff.
  - eexists. split; [done|]. repeat split; simpl; [done| |done].
    destruct l as [|it' l]; [simpl in Hc; done|]. exact Hr.
Qed.

Lemma push_link_repr (h : gmap Z task_node_t) (q : task_queue_t)
    (l : list item) (node : Z) (nd : task_node_t) :
  queue_repr h q l → node ∉ map addr l → node ≠ NULL →
  h !! node = Some nd → next nd = NULL →
  ∃ q' h', push_link node q h = Some (q', h') ∧
    queue_repr h' q' (l ++ [Item node (func nd) (arg nd)]) ∧
    (∀ x, x ∉ map addr l → h' !! x = h !! x) ∧
    (∀ x, is_Some (h !! x) → is_Some (h' !! x)).
Proof.
  intros (Hc & Hr & Hnd) Hout Hnn Hnode Hnext.
  destruct nd as [f a nx]. simpl in *. subst nx.
  unfold push_link. destruct l as [|it l].
  - simpl in Hc, Hr. rewrite decide_True by done.
    eexists _, _. split; [done|]. split; [|done].
    split; [|split]; simpl; [|done|apply NoDup_singleton].
    split; [done|]. split; [done|]. by exists NULL.
  - pose proof (chain_addrs_nonnull _ _ _ Hc) as Hnz.
    pose proof (last_addr_in l it) as Hlast. rewrite <- Hr in Hlast.
    rewrite decide_False by (intros Hz; rewrite Hz in Hlast; done).
    destruct (chain_link h (front q) it l node f a Hc Hnd Hout Hnn Hnode)
      as (r & Hlk & Hch).
    rewrite <- Hr in Hlk, Hch. rewrite Hlk. simpl.
    eexists _, _. split; [done|]. split; [|split].
    + split; [exact Hch|]. split; cbn [rear].
      * symmetry. apply (last_addr_snoc (it :: l)).
      * change (NoDup (map addr ((it :: l) ++ [Item node f a]))).
        rewrite List.map_app. apply NoDup_app.
        repeat split; [done| |apply NoDup_singleton].
        intros x Hx Hx'. simpl in Hx'. apply list_elem_of_singleton in Hx'.
        by subst.
    + intros x Hx. rewrite lookup_insert_ne; [done|]. by intros <-.
    + intros x Hx. destruct (decide (x = rear q)) as [->|Hne].
      * rewrite lookup_insert_eq. by eexists.
      * by rewrite lookup_insert_ne.
Qed.

Lemma queue_push_repr q w l node f a :
  queue_repr (heap w) q l → node ≠ NULL → heap w !! node = None →
  ∃ q' w', queue_push node f a q w = Some (q', w') ∧
    queue_repr (heap w') q' (l ++ [Item node f a]) ∧
    (∀ x, x ≠ node → heap w !! x = None → heap w' !! x = None) ∧
    trace w' = trace w ++ [Platform MutexLock; Platform CondSignal;
                           Platform MutexUnlock].
Proof.
  intros Hrep Hnn Hfresh.
  assert (Hout : ∀ x, heap w !! x = None → x ∉ map addr l).
  { intros x Hx Hin. destruct Hrep as (Hc & _).
    destruct (chain_live _ _ _ _ Hc Hin) as [? ?]. congruence. }
  unfold queue_push. rewrite decide_False by done. simpl.
  set (n0 := {| func := f; arg := a; next := NULL |}).
  destruct (push_link_repr (<[node := n0]> (heap w)) q l node n0)
    as (q' & h' & Hpl & Hrep' & Hsame & _).
  - destruct Hrep as (Hc & Hr & Hnd). split; [|done].
    apply chain_insert_other; [by apply Hout|done].
  - by apply Hout.
  - done.
  - by rewrite lookup_insert_eq.
  - done.
  - rewrite Hpl. simpl. eexists _, _. split; [done|]. simpl.
    split; [done|]. split.
    + intros x Hx Hnone. rewrite Hsame by (by apply Hout).
      by rewrite lookup_insert_ne.
    + unfold call, emit. simpl. by rewrite <- !app_assoc.
Qed.

Lemma queue_destroy_repr q w l :
  queue_repr (heap w) q l →
  ∃ w', queue_destroy q w = Some ({| front := NULL; rear := NULL |}, w') ∧
        heap w' = free_all l (heap w) ∧
        trace w' = trace w ++ [Platform MutexDestroy; Platform CondDestroy].
Proof.
  intros (Hc & Hr & Hnd). unfold queue_destroy.
  rewrite (destroy_loop_chain _ _ _ l Hc Hnd) by done.
  eexists. split; [done|]. simpl. split; [done|]. by rewrite <- app_assoc.
Qed.
End Operations.

Section Sequences.
Implicit Types (h : gmap Z task_node_t) (l ts : list item)
               (q : task_queue_t) (w : world).

Lemma chain_task_at h p l it :
  chain h p l → it ∈ l →
  ∃ nx, h !! addr it = Some {| func := ifunc it; arg := iarg it; next := nx |}.
Proof.
  revert p. induction l as [|x l IH]; simpl; intros p Hc Hin.
  - by apply elem_of_nil in Hin.
  - destruct Hc as (-> & Hn & nx & Hl & Hc).
    apply elem_of_cons in Hin as [->|Hin]; [by exists nx|by eapply IH].
Qed.

Lemma push_all_repr ts q w l :
  queue_repr (heap w) q l → NoDup (map addr ts) →
  Forall (λ t, addr t ≠ NULL ∧ heap w !! addr t = None) ts →
  ∃ q' w', push_all ts q w = Some (q', w') ∧
           queue_repr (heap w') q' (l ++ ts).
Proof.
  revert q w l. induction ts as [|t ts IH]; intros q w l Hrep Hnd Hfr.
  - exists q, w. by rewrite app_nil_r.
  - simpl in Hnd. apply NoDup_cons in Hnd as [Hfirst Hnd].
    apply Forall_cons in Hfr as [[Hnn Hnone] Hfr].
    destruct (queue_push_repr q w l (addr t) (ifunc t) (iarg t) Hrep Hnn Hnone)
      as (q1 & w1 & Hpush & Hrep1 & Hkeep & _).
    destruct (IH q1 w1 (l ++ [Item (addr t) (ifunc t) (iarg t)]) Hrep1 Hnd)
      as (q2 & w2 & Hall & Hrep2).
    { rewrite Forall_forall in Hfr. apply Forall_forall.
      intros x Hx. destruct (Hfr x Hx) as [Hxn Hxf]. split; [done|].
      apply Hkeep; [|done]. intros Heq. apply Hfirst. rewrite <- Heq.
      apply list_elem_of_fmap. by exists x. }
    exists q2, w2. simpl. rewrite Hpush. simpl. split; [done|].
    rewrite <- app_assoc in Hrep2. by destruct t.
Qed.

Lemma pop_n_repr l1 l2 q w :
  queue_repr (heap w) q (l1 ++ l2) →
  ∃ q', pop_n (length l1) q w = Some (map addr l1, q') ∧
        queue_repr (heap w) q' l2.
Proof.
  revert q. induction l1 as [|it l1 IH]; intros q Hrep.
  - by exists q.
  - destruct (queue_pop_repr q w it (l1 ++ l2) Hrep) as (q1 & Hpop & Hrep1).
    destruct (IH q1 Hrep1) as (q2 & Hn & Hrep2).
    exists q2. simpl. rewrite Hpop. simpl. rewrite Hn. by simpl.
Qed.
End Sequences.

(** ** The queue: FIFO order, invariant, pop, failed push, destroy *)

(** C1.  Tasks pushed on a freshly initialised queue, each in a node that
    [malloc] hands out (non-null, not in use, distinct from the others), come
    back in submission order: the pops all succeed, and the node returned by
    pop number [i] carries the function and the argument of push number [i].
    The queue is empty afterwards. *)
Theorem fifo_dispatch (ts : list item) (q0 : task_queue_t) (w0 : world) :
  NoDup (map addr ts) →
  Forall (λ t, addr t ≠ NULL ∧ heap w0 !! addr t = None) ts →
  ∃ q1 w1 ps q2,
    push_all ts (queue_init q0 w0).1 (queue_init q0 w0).2 = Some (q1, w1) ∧
    pop_n (length ts) q1 w1 = Some (ps, q2) ∧
    length ps = length ts ∧
    (∀ i t, ts !! i = Some t →
       ∃ p, ps !! i = Some p ∧ task_at w1 p = Some (ifunc t, iarg t)) ∧
    front q2 = NULL ∧ rear q2 = NULL.
Proof.
  intros Hnd Hfr.
  destruct (push_all_repr ts (queue_init q0 w0).1 (queue_init q0 w0).2 [])
    as (q1 & w1 & Hpush & Hrep); [by apply queue_repr_nil_iff|done|done|].
  simpl in Hrep.
  destruct (pop_n_repr ts [] q1 w1) as (q2 & Hpop & Hrep2);
    [by rewrite app_nil_r|].
  exists q1, w1, (map addr ts), q2. split; [done|]. split; [done|].
  split; [by rewrite length_map|]. split; [|by apply queue_repr_nil_iff in Hrep2].
  intros i t Hi. exists (addr t). split.
  - change (map addr ts) with (addr <$> ts). by rewrite list_lookup_fmap, Hi.
  - destruct Hrep as (Hc & _).
    destruct (chain_task_at _ _ _ t Hc) as (nx & Hl).
    + apply list_elem_of_lookup. by exists i.
    + unfold task_at. by rewrite Hl.
Qed.

(** Three tasks in nodes 10, 20 and 30 of an empty heap. *)
Lemma fifo_dispatch_witness :
  ∃ q1 w1 ps q2,
    push_all [Item 10 1 100; Item 20 2 200; Item 30 3 300]
      (queue_init (TaskQueue 0 0) (World ∅ [])).1
      (queue_init (TaskQueue 0 0) (World ∅ [])).2 = Some (q1, w1) ∧
    pop_n 3 q1 w1 = Some (ps, q2) ∧
    length ps = 3%nat ∧
    (∀ i t, [Item 10 1 100; Item 20 2 200; Item 30 3 300] !! i = Some t →
       ∃ p, ps !! i = Some p ∧ task_at w1 p = Some (ifunc t, iarg t)) ∧
    front q2 = NULL ∧ rear q2 = NULL.
Proof.
  apply (fifo_dispatch [Item 10 1 100; Item 20 2 200; Item 30 3 300]
           (TaskQueue 0 0) (World ∅ [])).
  - apply (bool_decide_unpack _). vm_compute. exact I.
  - repeat (apply Forall_cons; split; [split; [done|apply lookup_empty]|]).
    apply Forall_nil_2.
Defined.

(** C2.  [front == NULL] exactly when [rear == NULL]: true after
    [queue_init], and whenever it is true before [queue_push] (whatever
    [malloc] answered), [queue_pop] or [queue_destroy], it is true of the
    queue that the operation leaves. *)
Theorem queue_null_invariant :
  (∀ q0 w0, null_inv (queue_init q0 w0).1) ∧
  (∀ q w node f a q' w',
     null_inv q → queue_push node f a q w = Some (q', w') → null_inv q') ∧
  (∀ q w p q', null_inv q → queue_pop q w = Some (p, q') → null_inv q') ∧
  (∀ q w q' w', null_inv q → queue_destroy q w = Some (q', w') → null_inv q').
Proof.
  unfold null_inv. split; [|split; [|split]].
  - intros q0 w0. simpl. done.
  - intros q w node f a q' w' [H1 H2] Hpush. unfold queue_push in Hpush.
    destruct (decide (node = NULL)) as [|Hnn]; [naive_solver|].
    simpl in Hpush. unfold push_link in Hpush.
    destruct (decide (rear q = NULL)); simplify_option_eq; naive_solver.
  - intros q w p q' [H1 H2] Hpop. unfold queue_pop in Hpop.
    destruct (decide (front q = NULL)); [naive_solver|].
    destruct (heap w !! front q) as [nd|]; [|done]. simpl in Hpop.
    destruct (decide (next nd = NULL)); naive_solver.
  - intros q w q' w' _ Hd. unfold queue_destroy in Hd.
    destruct (destroy_loop _ _ _); naive_solver.
Qed.

(** A queue holding nodes 10 and 20: node 30 is pushed, one node is popped,
    the queue is destroyed. *)
Lemma queue_null_invariant_witness :
  null_inv (queue_init (TaskQueue 5 6) two_nodes).1 ∧
  (∃ q' w', queue_push 30 3 300 (TaskQueue 10 20) two_nodes = Some (q', w') ∧
            null_inv q') ∧
  (∃ p q', queue_pop (TaskQueue 10 20) two_nodes = Some (p, q') ∧ null_inv q') ∧
  (∃ q' w', queue_destroy (TaskQueue 10 20) two_nodes = Some (q', w') ∧
            null_inv q').
Proof.
  assert (Hinv : null_inv (TaskQueue 10 20)) by (by vm_compute).
  destruct queue_null_invariant as (Hinit & Hpush & Hpop & Hdestroy).
  split; [apply Hinit|]. split; [|split].
  - eexists _, _. split; [vm_compute; reflexivity|].
    eapply (Hpush (TaskQueue 10 20) two_nodes 30 3 300); [exact Hinv|].
    vm_compute. reflexivity.
  - eexists _, _. split; [vm_compute; reflexivity|].
    eapply (Hpop (TaskQueue 10 20) two_nodes); [exact Hinv|].
    vm_compute. reflexivity.
  - eexists _, _. split; [vm_compute; reflexivity|].
    eapply (Hdestroy (TaskQueue 10 20) two_nodes); [exact Hinv|].
    vm_compute. reflexivity.
Defined.

(** C7.  [queue_pop] on a queue whose [front] is null returns [NULL] and
    leaves the queue as it is.  Otherwise it returns the front node and moves
    [front] to that node's successor; when there is no successor it sets
    [rear] to null as well, and else leaves [rear] alone.  On a queue that
    holds the tasks [it :: l], the node returned is [it] and the queue then
    holds [l]. *)
Theorem queue_pop_post (q : task_queue_t) (w : world) :
  (front q = NULL → queue_pop q w = Some (NULL, q)) ∧
  (∀ n, front q ≠ NULL → heap w !! front q = Some n →
     ∃ q', queue_pop q w = Some (front q, q') ∧
           front q' = next n ∧
           rear q' = (if decide (next n = NULL) then NULL else rear q)) ∧
  (∀ it l, queue_repr (heap w) q (it :: l) →
     ∃ q', queue_pop q w = Some (addr it, q') ∧
           queue_repr (heap w) q' l ∧
           task_at w (addr it) = Some (ifunc it, iarg it) ∧
           (l = [] → front q' = NULL ∧ rear q' = NULL)).
Proof.
  split; [|split].
  - intros Hf. unfold queue_pop. by rewrite decide_True.
  - intros n Hf Hl. unfold queue_pop. rewrite decide_False by done.
    rewrite Hl. simpl. eexists. split; [done|].
    by destruct (decide (next n = NULL)).
  - intros it l Hrep.
    destruct (queue_pop_repr q w it l Hrep) as (q' & Hpop & Hrep').
    exists q'. split; [done|]. split; [done|]. split.
    + destruct Hrep as ((Hf & _ & nx & Hl & _) & _).
      unfold task_at. rewrite <- Hf. by rewrite Hl.
    + intros ->. by apply queue_repr_nil_iff in Hrep'.
Qed.

Lemma queue_pop_post_witness :
  queue_pop (TaskQueue NULL NULL) two_nodes = Some (NULL, TaskQueue NULL NULL) ∧
  (∃ q', queue_pop (TaskQueue 20 20) two_nodes = Some (20, q') ∧
         front q' = NULL ∧ rear q' = NULL) ∧
  (∃ q', queue_pop (TaskQueue 10 20) two_nodes = Some (10, q') ∧
         queue_repr (heap two_nodes) q' [Item 20 2 200] ∧
         task_at two_nodes 10 = Some (1, 100)).
Proof.
  split; [|split].
  - apply (proj1 (queue_pop_post (TaskQueue NULL NULL) two_nodes)). reflexivity.
  - destruct (proj1 (proj2 (queue_pop_post (TaskQueue 20 20) two_nodes))
                (TaskNode 2 200 NULL)) as (q' & Hpop & Hf & Hr);
      [by vm_compute|by vm_compute|].
    exists q'. split; [exact Hpop|]. split; [exact Hf|exact Hr].
  - destruct (proj2 (proj2 (queue_pop_post (TaskQueue 10 20) two_nodes))
                (Item 10 1 100) [Item 20 2 200]) as (q' & Hpop & Hrep & Ht & _).
    + split; [|split].
      * simpl. split; [done|]. split; [done|]. exists 20. split; [by vm_compute|].
        split; [done|]. split; [done|]. exists NULL. split; [by vm_compute|done].
      * reflexivity.
      * apply (bool_decide_unpack _). vm_compute. exact I.
    + exists q'. split; [exact Hpop|]. split; [exact Hrep|exact Ht].
Defined.

(** C6.  When [malloc] returns null, [queue_push] writes its diagnostic to
    [stderr] and returns: the queue structure and the heap (hence the node
    sequence) are those it was given, and nothing else is called.
    [thread_pool_add_task] hands the same outcome back to its caller, with
    the pool unchanged. *)
Theorem queue_push_alloc_failure (f a : Z) (q : task_queue_t) (w : world)
    (p : thread_pool_t) :
  let w' := {| heap := heap w;
               trace := trace w ++
                 [Stderr ("queue_push: failed to allocate task_node" +:+ nl)] |} in
  queue_push NULL f a q w = Some (q, w') ∧
  thread_pool_add_task (Some p) NULL f a w = Some (Some p, w') ∧
  (∀ l, queue_repr (heap w) q l → queue_repr (heap w') q l).
Proof.
  simpl. split; [done|]. split; [by destruct p|done].
Qed.

(** C5.  [queue_destroy] on a queue that holds the tasks [l] returns with
    both ends null; every node of [l] is freed and no other heap cell is
    touched; the only calls it makes destroy the mutex and the condition
    variable, so no task function is invoked. *)
Theorem queue_destroy_drains (q : task_queue_t) (w : world) (l : list item) :
  queue_repr (heap w) q l →
  ∃ q' w',
    queue_destroy q w = Some (q', w') ∧
    front q' = NULL ∧ rear q' = NULL ∧
    (∀ it, it ∈ l → heap w' !! addr it = None) ∧
    (∀ x, x ∉ map addr l → heap w' !! x = heap w !! x) ∧
    trace w' = trace w ++ [Platform MutexDestroy; Platform CondDestroy] ∧
    (∀ f a, Invoke f a ∈ trace w' → Invoke f a ∈ trace w).
Proof.
  intros Hrep.
  destruct (queue_destroy_repr q w l Hrep) as (w' & Hd & Hh & Ht).
  exists {| front := NULL; rear := NULL |}, w'.
  split; [done|]. split; [done|]. split; [done|]. split; [|split; [|split]].
  - intros it Hin. rewrite Hh. apply free_all_lookup_in.
    apply list_elem_of_fmap. by exists it.
  - intros x Hx. rewrite Hh. by apply free_all_lookup_out.
  - done.
  - intros f a Hin. rewrite Ht in Hin.
    apply elem_of_app in Hin as [Hin|Hin]; [done|].
    apply elem_of_cons in Hin as [Hin|Hin]; [done|].
    apply list_elem_of_singleton in Hin. done.
Qed.

Lemma two_nodes_repr :
  queue_repr (heap two_nodes) (TaskQueue 10 20) [Item 10 1 100; Item 20 2 200].
Proof.
  split; [|split].
  - simpl. split; [done|]. split; [done|]. exists 20. split; [by vm_compute|].
    split; [done|]. split; [done|]. exists NULL. split; [by vm_compute|done].
  - reflexivity.
  - apply (bool_decide_unpack _). vm_compute. exact I.
Defined.

Lemma queue_destroy_drains_witness :
  ∃ q' w',
    queue_destroy (TaskQueue 10 20) two_nodes = Some (q', w') ∧
    front q' = NULL ∧ rear q' = NULL ∧
    heap w' !! 10 = None ∧ heap w' !! 20 = None ∧
    trace w' = [Platform MutexDestroy; Platform CondDestroy].
Proof.
  destruct (queue_destroy_drains (TaskQueue 10 20) two_nodes
              [Item 10 1 100; Item 20 2 200] two_nodes_repr)
    as (q' & w' & Hd & Hf & Hr & Hfreed & _ & Ht & _).
  exists q', w'. split; [exact Hd|]. split; [exact Hf|]. split; [exact Hr|].
  split; [|split; [|exact Ht]].
  - apply (Hfreed (Item 10 1 100)). apply elem_of_cons. by left.
  - apply (Hfreed (Item 20 2 200)). apply elem_of_cons. right.
    apply elem_of_cons. by left.
Defined.

(** ** The pool: submission, shutdown, degraded start *)

(** C9.  [thread_pool_add_task] on a non-null pool is [queue_push] on the
    pool's queue: the value of [keep_running] plays no part in the result and
    is left as it is.  In particular, with [keep_running] equal to 0 and a
    node from [malloc], the task is appended behind the tasks already
    queued. *)
Theorem add_task_ignores_keep_running (p : thread_pool_t) (node f a : Z)
    (w : world) :
  thread_pool_add_task (Some p) node f a w =
    match queue_push node f a (queue p) w with
    | Some (q, w') => Some (Some (set_queue q p), w')
    | None => None
    end ∧
  (∀ v, thread_pool_add_task (Some (set_keep_running v p)) node f a w =
        match thread_pool_add_task (Some p) node f a w with
        | Some (p', w') => Some (option_map (set_keep_running v) p', w')
        | None => None
        end) ∧
  (∀ l, keep_running p = 0 → queue_repr (heap w) (queue p) l →
        node ≠ NULL → heap w !! node = None →
        ∃ p' w', thread_pool_add_task (Some p) node f a w = Some (Some p', w') ∧
                 queue_repr (heap w') (queue p') (l ++ [Item node f a]) ∧
                 keep_running p' = 0).
Proof.
  split; [|split].
  - simpl. by destruct (queue_push node f a (queue p) w) as [[q w']|].
  - intros v. simpl. by destruct (queue_push node f a (queue p) w) as [[q w']|].
  - intros l Hkr Hrep Hnn Hfresh.
    destruct (queue_push_repr _ _ _ node f a Hrep Hnn Hfresh)
      as (q' & w' & Hpush & Hrep' & _).
    exists (set_queue q' p), w'. simpl. rewrite Hpush. done.
Qed.

Lemma add_task_ignores_keep_running_witness :
  ∃ p' w', thread_pool_add_task (Some stopping_pool) 30 3 300 two_nodes
             = Some (Some p', w') ∧
           queue_repr (heap w') (queue p')
             [Item 10 1 100; Item 20 2 200; Item 30 3 300] ∧
           keep_running p' = 0.
Proof.
  apply (proj2 (proj2 (add_task_ignores_keep_running stopping_pool 30 3 300
                         two_nodes)) [Item 10 1 100; Item 20 2 200]).
  - reflexivity.
  - exact two_nodes_repr.
  - done.
  - by vm_compute.
Defined.

Lemma join_loop_defined (idx : list Z) (arr : list (option Z)) (w : world) :
  Forall (λ i, (Z.to_nat i < length arr)%nat) idx →
  ∃ w', join_loop idx arr w = Some w' ∧ heap w' = heap w ∧
        joins (trace w') =
          joins (trace w) ++ map (λ i, default None (arr !! Z.to_nat i)) idx.
Proof.
  revert w. induction idx as [|i idx IH]; intros w Hall.
  - exists w. by rewrite app_nil_r.
  - apply Forall_cons in Hall as [Hi Hall].
    destruct (lookup_lt_is_Some_2 arr (Z.to_nat i) Hi) as [slot Hslot].
    destruct (IH (call (ThreadJoin slot) w) Hall) as (w' & Hj & Hh & Ht).
    exists w'. simpl. rewrite Hslot. simpl. split; [done|]. split; [done|].
    rewrite Ht. unfold joins. simpl. rewrite omap_app. simpl.
    by rewrite <- app_assoc.
Qed.

Lemma slots_in_order (arr : list (option Z)) :
  map (λ i, default None (arr !! Z.to_nat i)) (seqZ 0 (Z.of_nat (length arr)))
  = arr.
Proof.
  change (map ?g ?x) with (g <$> x).
  apply list_eq. intros i. rewrite list_lookup_fmap.
  destruct (decide (i < length arr)%nat) as [Hlt|Hge].
  - rewrite lookup_seqZ_lt by lia. simpl.
    replace (Z.to_nat (0 + Z.of_nat i)) with i by lia.
    destruct (lookup_lt_is_Some_2 arr i Hlt) as [slot Hslot].
    by rewrite Hslot.
  - rewrite lookup_seqZ_ge by lia. simpl. symmetry.
    apply lookup_ge_None. lia.
Qed.

(** [thread_pool_shutdown] calls [platform_thread_join] once for every slot
    of the handle array, whether or not a handle was ever written to it. *)
Lemma shutdown_joins_every_slot (p : thread_pool_t) (w : world)
    (arr : list (option Z)) (l : list item) :
  threads p = Some arr → num_threads p = Z.of_nat (length arr) →
  queue_repr (heap w) (queue p) l →
  ∃ p' w', thread_pool_shutdown (Some p) w = Some (Some p', w') ∧
           threads p' = None ∧ num_threads p' = 0 ∧ keep_running p' = 0 ∧
           joins (trace w') = joins (trace w) ++ arr.
Proof.
  intros Harr Hn Hrep. unfold thread_pool_shutdown. rewrite Harr, Hn.
  set (w1 := call MutexUnlock (call CondBroadcast (call MutexLock w))).
  destruct (join_loop_defined (seqZ 0 (Z.of_nat (length arr))) arr w1)
    as (w2 & Hj & Hh & Ht).
  { apply Forall_forall. intros i Hi. apply elem_of_seqZ in Hi. lia. }
  rewrite Hj. simpl.
  destruct (queue_destroy_repr (queue p) w2 l) as (w3 & Hd & _ & Ht3).
  { by rewrite Hh. }
  rewrite Hd. simpl. eexists _, _. split; [done|]. simpl.
  repeat (split; [done|]).
  rewrite Ht3. unfold joins in *. rewrite omap_app, Ht. simpl.
  rewrite app_nil_r, slots_in_order. f_equal.
  unfold w1, call, emit. simpl. rewrite !omap_app. simpl. by rewrite !app_nil_r.
Qed.

(** C8.  On a pool whose [threads] pointer is not null, [thread_pool_shutdown]
    returns with [threads] null and [num_threads] 0, and a second call then
    returns at the guard: same pool, same heap, nothing added to the trace. *)
Theorem second_shutdown_noop (p : thread_pool_t) (w : world)
    (arr : list (option Z)) (l : list item) :
  threads p = Some arr → num_threads p = Z.of_nat (length arr) →
  queue_repr (heap w) (queue p) l →
  ∃ p' w', thread_pool_shutdown (Some p) w = Some (Some p', w') ∧
           threads p' = None ∧ num_threads p' = 0 ∧
           thread_pool_shutdown (Some p') w' = Some (Some p', w').
Proof.
  intros Harr Hn Hrep.
  destruct (shutdown_joins_every_slot p w arr l Harr Hn Hrep)
    as (p' & w' & Hs & Ht & Hnum & _).
  exists p', w'. split; [done|]. split; [done|]. split; [done|].
  unfold thread_pool_shutdown. by rewrite Ht.
Qed.

Lemma second_shutdown_noop_witness :
  ∃ p' w', thread_pool_shutdown (Some stopping_pool) two_nodes = Some (Some p', w') ∧
           threads p' = None ∧ num_threads p' = 0 ∧
           thread_pool_shutdown (Some p') w' = Some (Some p', w').
Proof.
  apply (second_shutdown_noop stopping_pool two_nodes [Some 7]
           [Item 10 1 100; Item 20 2 200]).
  - reflexivity.
  - reflexivity.
  - exact two_nodes_repr.
Defined.

(** C3, at a pool of two slots of which only the first gets a thread.
    [thread_pool_init] leaves slot 1 as [malloc] delivered it, keeps
    [num_threads] at 2, and [thread_pool_shutdown] then calls
    [platform_thread_join] twice: once on the handle of the thread that
    started and once on the content of the slot that was never written. *)
Theorem degraded_shutdown_joins_unstarted_slot :
  ∃ p w p' w',
    thread_pool_init (Some (ThreadPool None 0 (TaskQueue 0 0) 0)) 2 true
      spawn_first_only (World ∅ []) = (Some p, w) ∧
    threads p = Some [Some 77; None] ∧ num_threads p = 2 ∧
    thread_pool_shutdown (Some p) w = Some (Some p', w') ∧
    joins (trace w') = [Some 77; None] ∧
    length (joins (trace w')) = 2%nat.
Proof.
  eexists _, _, _, _. split; [vm_compute; reflexivity|].
  split; [reflexivity|]. split; [reflexivity|].
  split; [vm_compute; reflexivity|]. split; reflexivity.
Qed.

(** ** The sleep wrapper *)

Lemma usleep_arg_exact (ms : Z) :
  0 ≤ ms ≤ 4294967 → usleep_arg ms = 1000 * ms.
Proof.
  intros Hms. unfold usleep_arg, uint_mul, UINT_WIDTH.
  rewrite Z.mod_small; lia.
Qed.

Lemma usleep_arg_short (ms : Z) :
  4294967 < ms → usleep_arg ms < 1000 * ms.
Proof.
  intros Hms. unfold usleep_arg, uint_mul, UINT_WIDTH.
  pose proof (Z.mod_pos_bound (ms * 1000) (2 ^ 32)). lia.
Qed.

(** C10, at 4294968 ms.  The product [ms * 1000] does not fit in 32 bits:
    the POSIX branch asks [usleep] for 704 microseconds, far less than
    4294968 milliseconds, while the Windows branch passes the duration
    on unchanged. *)
Theorem platform_sleep_ms_wraps :
  platform_sleep_ms 4294968 (World ∅ []) = World ∅ [Platform (Usleep 704)] ∧
  usleep_arg 4294968 < 1000 * 4294968 ∧
  platform_sleep_ms_win 4294968 (World ∅ [])
    = World ∅ [Platform (WinSleep 4294968)].
Proof. split; [reflexivity|]. split; [by vm_compute|reflexivity]. Qed.

(** ** Threads: once the flag is cleared *)

Lemma total_insert (g : pc → nat) (l : list pc) (t : nat) (c old : pc) :
  l !! t = Some old →
  (total g (<[t := c]> l) + g old = total g l + g c)%nat.
Proof.
  revert t. induction l as [|x l IH]; intros t Ht; [done|].
  destruct t as [|t]; simpl in *.
  - inversion Ht; subst. lia.
  - specialize (IH t Ht). lia.
Qed.

Lemma total_wake_armed (l : list pc) : total armed (wake <$> l) = total armed l.
Proof.
  induction l as [|x l IH]; [done|].
  rewrite fmap_cons. cbn [total]. rewrite IH. by destruct x.
Qed.

Lemma count_invoked_app (tr1 tr2 : list event) :
  count_invoked (tr1 ++ tr2) = (count_invoked tr1 + count_invoked tr2)%nat.
Proof. induction tr1 as [|e tr1 IH]; simpl; lia. Qed.

Lemma invocations_emit (e : event) (s : cstate) :
  invocations (set_mem (emit e (mem s)) s) = (invocations s + invoked e)%nat.
Proof.
  unfold invocations. simpl. rewrite count_invoked_app. simpl. lia.
Qed.

Lemma total_insert2 (g : pc → nat) (l : list pc) (t i : nat) (c old c2 old2 : pc) :
  l !! i = Some old2 → l !! t = Some old → i ≠ t →
  (total g (<[t := c]> (<[i := c2]> l)) + g old + g old2
   = total g l + g c + g c2)%nat.
Proof.
  intros Hi Ht Hne.
  pose proof (total_insert g l i c2 old2 Hi).
  assert (Ht' : <[i := c2]> l !! t = Some old) by (by rewrite list_lookup_insert_ne).
  pose proof (total_insert g _ t c old Ht'). lia.
Qed.

Lemma stopped_true (s : cstate) : keep_running (pool s) = 0 → stopped s = true.
Proof. intros H. unfold stopped. by rewrite bool_decide_eq_true. Qed.

(** Splits a step that went through by the program point it left, so that
    each case only mentions what its own step reads. *)
Ltac step_points H :=
  unfold step, thread_step, submit_step, wake_step, shutdown_step in H;
  repeat match type of H with
  | context [thr ?s !! ?t] =>
      destruct (thr s !! t) as [[]|] eqn:?; simpl in H; try discriminate H
  | context [match sd ?s with _ => _ end] =>
      destruct (sd s) eqn:?; simpl in H; try discriminate H
  end;
  cbn [is_worker] in H;
  unfold worker_thread, queue_push_thread,
         acquire, release, wait_release, wait_reacquire in H;
  repeat (simplify_option_eq || case_match).

Ltac count_trace :=
  unfold invocations, log, call, emit; simpl;
  rewrite ?count_invoked_app; simpl.

(** A worker that reads the cleared flag at the loop test, or after a
    wake-up, is on its way out. *)
Lemma cleared_flag_ends_worker (t : nat) (s : cstate) :
  keep_running (pool s) = 0 →
  worker_thread t WTop s = Some (set_pc t WExited s) ∧
  worker_thread t WRecheck s = Some (set_pc t WUnlockExit s).
Proof.
  intros Hk. unfold worker_thread. by rewrite (stopped_true s Hk).
Qed.

(** With the flag cleared, no step sets it again, and the number of task
    bodies entered so far plus the number of armed workers never grows. *)
Lemma step_stopped_potential (a : action) (s s' : cstate) :
  keep_running (pool s) = 0 → step a s = Some s' →
  keep_running (pool s') = 0 ∧
  (invocations s' + total armed (thr s') ≤ invocations s + total armed (thr s))%nat.
Proof.
  intros Hk Hs. destruct a as [t ch|t|t f x node|]; simpl in Hs.
  - pose proof (stopped_true s Hk) as Hst.
    step_points Hs; try congruence; (split; [done|]); count_trace.
    all: try match goal with
      | Hl : thr ?s0 !! ?t0 = Some ?old
        |- context [total armed (<[?t0 := ?c]> (thr ?s0))] =>
          pose proof (total_insert armed (thr s0) t0 c old Hl) as Hti;
          simpl in Hti; lia
      end.
    all: match goal with
      | Hi : thr ?s0 !! ?i = Some WBlocked, Hp : thr ?s0 !! ?t0 = Some PSignal |- _ =>
          pose proof (total_insert2 armed (thr s0) t0 i PUnlock PSignal WWoken
                        WBlocked Hi Hp) as Hti;
          simpl in Hti; assert (i ≠ t0) by congruence; lia
      end.
  - step_points Hs. split; [done|]. count_trace.
    match goal with
    | Hl : thr s !! t = Some ?old |- _ =>
        pose proof (total_insert armed (thr s) t WWoken old Hl) as Hti
    end.
    simpl in Hti. lia.
  - step_points Hs; (split; [done|]); count_trace; [lia|].
    match goal with
    | Hl : thr s !! t = Some ?old |- _ =>
        pose proof (total_insert armed (thr s) t (PLock node) old Hl) as Hti
    end.
    simpl in Hti. lia.
  - step_points Hs; (split; [done|]); count_trace; try lia.
    + rewrite total_wake_armed. lia.
    + unfold queue_destroy in *. repeat case_match; simplify_eq. count_trace. lia.
Qed.

Lemma run_stopped_potential (sched : list action) (s s' : cstate) :
  keep_running (pool s) = 0 → run sched s = Some s' →
  keep_running (pool s') = 0 ∧
  (invocations s' + total armed (thr s') ≤ invocations s + total armed (thr s))%nat.
Proof.
  revert s. induction sched as [|a sched IH]; intros s Hk Hr; simpl in Hr.
  - inversion Hr; subst. split; [done|lia].
  - destruct (step a s) as [s1|] eqn:Hs; [|done]. simpl in Hr.
    destruct (step_stopped_potential a s s1 Hk Hs) as [Hk1 Hle].
    destruct (IH s1 Hk1 Hr) as [Hk' Hle']. split; [done|lia].
Qed.

(** ** Threads: the invariants are kept *)

Lemma kinds_step (m : nat) (a : action) (s s' : cstate) :
  kinds_ok m s → step a s = Some s' → kinds_ok m s'.
Proof.
  intros [Hlen Hk] Hs.
  assert (Hgen : ∀ l : list pc,
    length l = length (thr s) →
    (∀ k c, l !! k = Some c →
       ∃ c0, thr s !! k = Some c0 ∧ is_worker c = is_worker c0) →
    (m ≤ length l)%nat ∧ ∀ k c, l !! k = Some c → (is_worker c = true ↔ (k < m)%nat)).
  { intros l Hl Hsame. split; [lia|]. intros k c Hkc.
    destruct (Hsame k c Hkc) as (c0 & Hc0 & ->). by apply Hk. }
  destruct a as [t ch|t|t f x node|]; step_points Hs; apply Hgen; simpl;
    rewrite ?length_insert, ?length_fmap; try done.
  all: intros k c Hkc;
    repeat match goal with
    | H : <[_ := _]> _ !! _ = Some _ |- _ =>
        apply list_lookup_insert_Some in H as [(-> & <- & ?)|[? H]]
    end; eauto.
  all: try (apply list_lookup_fmap_Some in Hkc as (c0 & -> & Hc0);
            exists c0; split; [done|by destruct c0]).
Qed.

(** A thread that has returned stays so. *)
Lemma exited_stable (a : action) (s s' : cstate) (k : nat) :
  step a s = Some s' → thr s !! k = Some WExited → thr s' !! k = Some WExited.
Proof.
  intros Hs Hk. destruct a as [t ch|t|t f x node|]; step_points Hs; simpl; try done.
  all: repeat match goal with
    | |- <[?i := _]> _ !! ?j = _ =>
        rewrite list_lookup_insert_ne by (intros ->; congruence)
    end; try done.
  rewrite list_lookup_fmap, Hk. done.
Qed.

(** Only the shutdown writes the handle array, the thread count, the flag
    and its own program point. *)
Lemma others_leave_pool (a : action) (s s' : cstate) :
  a ≠ Shutdown → step a s = Some s' →
  threads (pool s') = threads (pool s) ∧
  num_threads (pool s') = num_threads (pool s) ∧
  keep_running (pool s') = keep_running (pool s) ∧
  sd s' = sd s.
Proof.
  intros Ha Hs. destruct a as [t ch|t|t f x node|]; [| | |done];
    step_points Hs; done.
Qed.

Lemma handles_lookup (m : nat) (i : Z) :
  0 ≤ i < Z.of_nat m → handles m !! Z.to_nat i = Some (Some i).
Proof.
  intros Hi. unfold handles. rewrite list_lookup_fmap.
  rewrite lookup_seqZ_lt by lia. simpl. do 2 f_equal. lia.
Qed.

Lemma phase_step (m : nat) (a : action) (s s' : cstate) :
  phase_ok m s → step a s = Some s' → phase_ok m s'.
Proof.
  intros Hp Hs.
  assert (a = Shutdown ∨ a ≠ Shutdown) as [->|Ha] by (destruct a; auto).
  - unfold phase_ok, pool_live in *. simpl in Hs. unfold shutdown_step in Hs.
    destruct (sd s) eqn:Hsd; step_points Hs; simpl; try naive_solver.
    + destruct Hp as ((Hthr & Hnum) & Hkr).
      repeat (split; [done || lia|]). intros k Hk. simpl in Hk. lia.
    + destruct Hp as ((Hthr & Hnum) & Hkr & Hi & Hex).
      inversion Hthr; subst.
      match goal with
      | H2 : handles m !! _ = Some (Some ?hd) |- _ =>
          rewrite handles_lookup in H2 by lia; inversion H2; subst hd
      end.
      split; [done|]. split; [done|]. split; [lia|].
      intros k Hk. simpl. destruct (decide (k = Z.to_nat i)) as [->|Hne]; [done|].
      apply Hex. lia.
    + destruct Hp as ((Hthr & Hnum) & Hkr & Hi & Hex).
      split; [done|]. intros k Hk. apply Hex. lia.
  - destruct (others_leave_pool a s s' Ha Hs) as (Ht & Hn & Hk & Hsd).
    assert (Hex : ∀ n, all_exited n s → all_exited n s').
    { intros n Hall k Hlt. eapply exited_stable; eauto. }
    unfold phase_ok, pool_live in *. rewrite Hsd, Ht, Hn, Hk.
    destruct (sd s); naive_solver.
Qed.

(** *** The state after [thread_pool_init] *)

(** The creation loop leaves in slot [i] what [platform_thread_create] wrote
    there: the handle, or nothing when the call failed. *)
Lemma create_loop_all (spawn : Z → option Z) (k a : nat)
    (pre : list (option Z)) (w : world) :
  length pre = a →
  (foldl (create_one spawn) (pre ++ replicate k None, w)
     (seqZ (Z.of_nat a) (Z.of_nat k))).1
  = pre ++ (spawn <$> seqZ (Z.of_nat a) (Z.of_nat k)).
Proof.
  revert a pre w. induction k as [|k IH]; intros a pre w Hlen.
  - simpl. done.
  - rewrite seqZ_cons by lia.
    replace (Z.pred (Z.of_nat (S k))) with (Z.of_nat k) by lia.
    replace (Z.succ (Z.of_nat a)) with (Z.of_nat (S a)) by lia.
    rewrite fmap_cons.
    change (foldl ?f ?st (?x :: ?r)) with (foldl f (f st x) r).
    assert (Hslot : ∀ w1, ∃ w2,
      create_one spawn (pre ++ replicate (S k) None, w1) (Z.of_nat a)
      = ((pre ++ [spawn (Z.of_nat a)]) ++ replicate k None, w2)).
    { intros w1. unfold create_one. cbn [fst snd].
      rewrite <- app_assoc. simpl.
      destruct (spawn (Z.of_nat a)) as [hd|]; eexists; [|done].
      f_equal. rewrite Nat2Z.id. rewrite <- Hlen at 1.
      rewrite <- (Nat.add_0_r (length pre)). by rewrite insert_app_r. }
    destruct (Hslot w) as [w2 ->].
    rewrite IH by (rewrite length_app; simpl; lia).
    by rewrite <- app_assoc.
Qed.

Lemma thread_pool_init_ok (p : thread_pool_t) (n : Z) (spawn : Z → option Z)
    (w : world) :
  thread_pool_init (Some p) n true spawn w =
    let r := foldl (create_one spawn)
               (replicate (Z.to_nat n) None, call CondInit (call MutexInit w))
               (seqZ 0 n) in
    (Some {| threads := Some r.1; num_threads := n;
             queue := {| front := NULL; rear := NULL |}; keep_running := 1 |},
     r.2).
Proof.
  unfold thread_pool_init, queue_init. simpl. by destruct (foldl _ _ _).
Qed.

Lemma boot_pool (m np : nat) :
  pool (boot m np) =
    {| threads := Some (handles m); num_threads := Z.of_nat m;
       queue := {| front := NULL; rear := NULL |}; keep_running := 1 |}.
Proof.
  unfold boot. rewrite thread_pool_init_ok. cbn [pool default fst].
  pose proof (create_loop_all Some m 0 []
                (call CondInit (call MutexInit (World ∅ []))) eq_refl) as Hc.
  change (Z.of_nat 0) with 0 in Hc. rewrite app_nil_l in Hc.
  rewrite Nat2Z.id. by rewrite Hc.
Qed.

Lemma create_loop_world (spawn : Z → option Z) (idx : list Z)
    (st : list (option Z) * world) :
  heap (foldl (create_one spawn) st idx).2 = heap st.2 ∧
  count_invoked (trace (foldl (create_one spawn) st idx).2)
  = count_invoked (trace st.2).
Proof.
  revert st. induction idx as [|i idx IH]; intros st; [done|].
  simpl. destruct (IH (create_one spawn st i)) as [-> ->].
  unfold create_one. destruct (spawn i); simpl;
    rewrite ?count_invoked_app; simpl; split; (done || lia).
Qed.


Lemma boot_trace (m np : nat) : invocations (boot m np) = 0%nat.
Proof.
  unfold invocations, boot. rewrite thread_pool_init_ok. simpl.
  by rewrite (proj2 (create_loop_world _ _ _)).
Qed.

(** [thread_pool_shutdown] after a start of [n] slots calls
    [platform_thread_join] [n] times, once per slot, on the handle written
    there or, for a thread that did not start, on the slot nobody wrote. *)
Lemma shutdown_after_start (p0 : thread_pool_t) (n : nat)
    (spawn : Z → option Z) (w0 : world) :
  ∃ p w p' w',
    thread_pool_init (Some p0) (Z.of_nat n) true spawn w0 = (Some p, w) ∧
    threads p = Some (spawn <$> seqZ 0 (Z.of_nat n)) ∧
    num_threads p = Z.of_nat n ∧
    thread_pool_shutdown (Some p) w = Some (Some p', w') ∧
    joins (trace w') = joins (trace w) ++ (spawn <$> seqZ 0 (Z.of_nat n)) ∧
    length (joins (trace w')) = (length (joins (trace w)) + n)%nat.
Proof.
  rewrite thread_pool_init_ok. cbn zeta.
  pose proof (create_loop_all spawn n 0 [] (call CondInit (call MutexInit w0))
                eq_refl) as Hc.
  change (Z.of_nat 0) with 0 in Hc. rewrite app_nil_l in Hc.
  rewrite Nat2Z.id. rewrite Hc.
  set (w := (foldl _ _ _).2).
  destruct (shutdown_joins_every_slot
              {| threads := Some (spawn <$> seqZ 0 (Z.of_nat n));
                 num_threads := Z.of_nat n;
                 queue := {| front := NULL; rear := NULL |};
                 keep_running := 1 |} w (spawn <$> seqZ 0 (Z.of_nat n)) [])
    as (p' & w' & Hs & _ & _ & _ & Hj).
  - done.
  - simpl. rewrite length_fmap, length_seqZ. lia.
  - by apply queue_repr_nil_iff.
  - eexists _, w, p', w'. split; [done|]. split; [done|]. split; [done|].
    split; [done|]. split; [done|].
    rewrite Hj, length_app, length_fmap, length_seqZ. lia.
Qed.

(** *** The mutex *)

(** A step leaves the critical sections as they are, or lets one thread
    enter on a free mutex, or lets the holder leave. *)
Lemma step_holds (a : action) (s s' : cstate) :
  step a s = Some s' →
  (held_by s' = held_by s ∧ mutex s' = mutex s ∧ sd s' = sd s) ∨
  (∃ t, held_by s !! t = Some false ∧ held_by s' = <[t := true]> (held_by s) ∧
        mutex s = MFree ∧ mutex s' = MHeld (Thread t) ∧ sd s' = sd s) ∨
  (∃ t, held_by s !! t = Some true ∧ held_by s' = <[t := false]> (held_by s) ∧
        mutex s = MHeld (Thread t) ∧ mutex s' = MFree ∧ sd s' = sd s) ∨
  (held_by s' = held_by s ∧ a = Shutdown).
Proof.
  intros Hs. unfold held_by.
  assert (Hid : ∀ (l : list pc) t c c', l !! t = Some c → holds c' = holds c →
                holds <$> <[t := c']> l = holds <$> l).
  { intros l t c c' Hl Hh. rewrite list_fmap_insert, Hh.
    apply list_insert_id. by rewrite list_lookup_fmap, Hl. }
  destruct a as [t ch|t|t f x node|].
  - simpl in Hs. unfold thread_step in Hs.
    destruct (thr s !! t) as [c|] eqn:Hc; [|done]. simpl in Hs.
    assert (Hb : (holds <$> thr s) !! t = Some (holds c))
      by (by rewrite list_lookup_fmap, Hc).
    destruct c; simpl in Hs; step_points Hs; simpl in *.
    all: try (left; split; [|done]; (done || (eapply Hid; eauto; done))).
    all: try (right; left; exists t; rewrite list_fmap_insert; done).
    all: try (right; right; left; exists t; rewrite list_fmap_insert; done).
    all: left; split; [|done].
    all: assert (n ≠ t) by congruence.
    all: rewrite (Hid (<[n := WWoken]> (thr s)) t PSignal PUnlock);
      [|by rewrite list_lookup_insert_ne|done].
    all: by apply (Hid (thr s) n WBlocked WWoken).
  - step_points Hs. left. split; [|done]. simpl. by eapply Hid.
  - step_points Hs; left; (split; [|done]); simpl; [done|]. by eapply Hid.
  - right; right; right. split; [|done].
    step_points Hs; simpl; try done.
    rewrite <- list_fmap_compose. apply list_fmap_ext. intros _ c _. by destruct c.
Qed.

Lemma lock_step (a : action) (s s' : cstate) :
  lock_ok s → step a s = Some s' → lock_ok s'.
Proof.
  intros (L1 & L2 & L3 & L4) Hs.
  assert (L1' : ∀ t, held_by s !! t = Some true → mutex s = MHeld (Thread t)).
  { intros t Ht. unfold held_by in Ht.
    apply list_lookup_fmap_Some in Ht as (c & Hh & Hc). by eapply L1. }
  assert (L2' : ∀ t, mutex s = MHeld (Thread t) → held_by s !! t = Some true).
  { intros t Ht. destruct (L2 t Ht) as (c & Hc & Hh).
    unfold held_by. by rewrite list_lookup_fmap, Hc, <- Hh. }
  assert (Hback : (∀ t, held_by s' !! t = Some true → mutex s' = MHeld (Thread t)) →
                  (∀ t, mutex s' = MHeld (Thread t) → held_by s' !! t = Some true) →
                  (mutex s' = MHeld Main ↔ (sd s' = SBroadcast ∨ sd s' = SUnlock)) →
                  (mutex s' = MDead → sd s' = SReturned) → lock_ok s').
  { intros H1 H2 H3 H4. split; [|split; [|done]].
    - intros t c Hc Hh. apply H1. unfold held_by.
      by rewrite list_lookup_fmap, Hc, <- Hh.
    - intros t Ht. specialize (H2 t Ht). unfold held_by in H2.
      apply list_lookup_fmap_Some in H2 as (c & Hh & Hc). eauto. }
  destruct (step_holds a s s' Hs)
    as [(Hh & Hm & Hsd)|[(t & Ht & Hh & Hm & Hm' & Hsd)|[(t & Ht & Hh & Hm & Hm' & Hsd)|[Hh ->]]]].
  - apply Hback; rewrite ?Hh, ?Hm, ?Hsd; done.
  - apply Hback; rewrite ?Hh, ?Hm', ?Hsd.
    + intros k Hk. apply list_lookup_insert_Some in Hk as [(-> & _ & _)|[_ Hk]]; [done|].
      specialize (L1' k Hk). congruence.
    + intros k Hk. inversion Hk; subst k. apply list_lookup_insert_eq.
      by eapply lookup_lt_Some.
    + rewrite <- L3, Hm. done.
    + done.
  - apply Hback; rewrite ?Hh, ?Hm', ?Hsd.
    + intros k Hk. apply list_lookup_insert_Some in Hk as [(_ & ? & _)|[Hne Hk]]; [done|].
      specialize (L1' k Hk). congruence.
    + done.
    + rewrite <- L3, Hm. done.
    + done.
  - apply Hback; rewrite ?Hh.
    all: simpl in Hs; unfold shutdown_step in Hs.
    all: destruct (sd s) eqn:Hsd; step_points Hs; simpl.
    all: try (intros k Hk; specialize (L1' k Hk); congruence).
    all: try (intros k Hk; apply L2'; congruence).
    all: clear L1 L2 L1' L2' Hback; intuition congruence.
Qed.

(** *** No sleeper after the broadcast *)

Ltac lookup_split :=
  repeat match goal with
  | H : <[_ := _]> _ !! _ = Some _ |- _ =>
      apply list_lookup_insert_Some in H as [(? & ? & ?)|[? H]]
  | H : (wake <$> _) !! _ = Some _ |- _ =>
      apply list_lookup_fmap_Some in H as (? & ? & H)
  end; simplify_eq.

(** A thread is asleep or about to sleep after a step only if it was so
    before, or if it has just read the flag as set. *)
Lemma sleeper_origin (a : action) (s s' : cstate) (k : nat) (c' : pc) :
  a ≠ Shutdown → step a s = Some s' → thr s' !! k = Some c' →
  c' = WBlocked ∨ c' = WWait →
  ∃ c, thr s !! k = Some c ∧
       (c = WBlocked ∨ c = WWait ∨ (c = WCheckRun ∧ stopped s = false)).
Proof.
  intros Ha Hs Hk Hc'.
  destruct a as [t ch|t|t f x node|]; [| | |done]; step_points Hs; simpl in *;
    lookup_split; destruct Hc' as [?|?]; simplify_eq; eauto 6.
Qed.

Lemma sleep_step (m : nat) (a : action) (s s' : cstate) :
  phase_ok m s → lock_ok s → sleep_ok s → step a s = Some s' → sleep_ok s'.
Proof.
  intros Hp (L1 & L2 & L3 & L4) Hsl Hs.
  assert (a = Shutdown ∨ a ≠ Shutdown) as [->|Ha] by (destruct a; auto).
  - unfold sleep_ok in *. step_points Hs; simpl in *; try done.
    all: try (intros _; by apply Hsl).
    { exfalso. unfold phase_ok, pool_live in Hp.
      match goal with H : sd s = _ |- _ => rewrite H in Hp end.
      destruct Hp. congruence. }
    intros _ t c Hc. lookup_split.
    assert (Hm : mutex s = MHeld Main) by (apply L3; auto).
    split; [by destruct x|]. intros Hw. destruct x; try done.
    specialize (L1 t WWait Hc eq_refl). congruence.
  - destruct (others_leave_pool a s s' Ha Hs) as (_ & _ & Hk & Hsd).
    intros Hpast t c Hc. rewrite Hsd in Hpast.
    assert (Hstop : stopped s = true).
    { apply stopped_true. unfold phase_ok in Hp. destruct (sd s); naive_solver. }
    assert (Hno : ¬ (c = WBlocked ∨ c = WWait)).
    { intros Hbad.
      destruct (sleeper_origin a s s' t c Ha Hs Hc Hbad) as (c0 & Hc0 & Hor).
      destruct (Hsl Hpast t c0 Hc0) as [? ?].
      destruct Hor as [?|[?|[? ?]]]; congruence. }
    split; intros ->; apply Hno; auto.
Qed.

(** *** The heap *)

(** A step that leaves the heap and the queue alone, and the nodes in the
    threads' hands, keeps [heap_ok]. *)
Lemma heap_frame (s s' : cstate) :
  heap (mem s') = heap (mem s) → queue (pool s') = queue (pool s) →
  (∀ k c', thr s' !! k = Some c' →
     ∃ c, thr s !! k = Some c ∧ node_of c' = node_of c ∧ pending c' = pending c) →
  heap_ok s → heap_ok s'.
Proof.
  intros Hh Hq Hthr (l & Hrep & O1 & O2 & O3).
  exists l. rewrite Hh, Hq. split; [done|]. split; [|split].
  - intros t c' x Hc' Hn. destruct (Hthr t c' Hc') as (c & Hc & Hn' & _).
    eapply O1; eauto. congruence.
  - intros t t' c1 c2 x H1 H2 Hn1 Hn2.
    destruct (Hthr t c1 H1) as (c1' & Hc1 & Hn1' & _).
    destruct (Hthr t' c2 H2) as (c2' & Hc2 & Hn2' & _).
    eapply (O2 t t' c1' c2' x); eauto; congruence.
  - intros t c' x Hc' Hn. destruct (Hthr t c' Hc') as (c & Hc & _ & Hp).
    eapply O3; eauto. congruence.
Qed.

Lemma node_of_wake (c : pc) : node_of (wake c) = node_of c ∧ pending (wake c) = pending c.
Proof. by destruct c. Qed.

Lemma node_of_unlock (z y : Z) :
  node_of (WUnlock z) = Some y → y = z ∧ z ≠ NULL.
Proof. unfold node_of. destruct (decide (z = NULL)); naive_solver. Qed.

Lemma heap_step (a : action) (s s' : cstate) :
  heap_ok s → step a s = Some s' → heap_ok s'.
Proof.
  intros Hok Hs.
  destruct a as [t ch|t|t f x node|]; step_points Hs.
  all: try (apply (heap_frame s); [done|done| |done];
            intros k c' Hk; simpl in Hk; lookup_split;
            (eexists; split; [eassumption|done]); fail).
  - (* queue_pop *)
    destruct Hok as (l & Hrep & O1 & O2 & O3). destruct l as [|it l].
    + apply queue_repr_nil_iff in Hrep as Hnil. destruct Hnil as [Hf Hr].
      unfold queue_pop in *. rewrite decide_True in * by done. simplify_eq.
      apply (heap_frame s); [done|by destruct (pool s)| |by exists []].
      intros k c' Hk; simpl in Hk; lookup_split;
        (eexists; split; [eassumption|done]).
    + destruct (queue_pop_repr _ _ it l Hrep) as (q' & Hpop & Hrep').
      assert (Hit : addr it ≠ NULL ∧ is_Some (heap (mem s) !! addr it) ∧
                    addr it ∉ map addr l).
      { destruct Hrep as ((Hf & Hn & nx & Hl & _) & _ & Hnd).
        simpl in Hnd. apply NoDup_cons in Hnd as [? ?].
        rewrite Hf in Hn, Hl. split; [done|]. split; [by eexists|done]. }
      simplify_eq. exists l. simpl. split; [done|].
      assert (Hsub : ∀ y, y ∉ map addr (it :: l) → (y ∉ map addr l) ∧ y ≠ addr it).
      { intros y Hy. simpl in Hy. apply not_elem_of_cons in Hy. tauto. }
      split; [|split].
      * intros k c y Hk Hn. lookup_split.
        -- apply node_of_unlock in Hn as [-> _]. done.
        -- destruct (O1 k c y Hk Hn) as (? & ? & Hy). apply Hsub in Hy. tauto.
      * intros k k' c c' y Hk Hk' Hn Hn'. lookup_split; try done.
        all: try (eapply O2; eauto; fail).
        all: match goal with
          | Hu : node_of (WUnlock _) = Some _, Ho : node_of ?c0 = Some _,
            Hl : thr _ !! ?k0 = Some ?c0 |- _ =>
              apply node_of_unlock in Hu as [-> _];
              destruct (O1 k0 c0 _ Hl Ho) as (? & ? & Hy); apply Hsub in Hy; tauto
          end.
      * intros k c y Hk Hn. lookup_split; try done. eapply O3; eauto.
  - (* the unlock before the call *)
    apply (heap_frame s); [done|done| |done].
    intros k c' Hk; simpl in Hk; lookup_split;
      (eexists; split; [eassumption|]); [|done].
    simpl. by rewrite decide_False.
  - (* free *)
    destruct Hok as (l & Hrep & O1 & O2 & O3).
    destruct (O1 t (WFree task) task) as (Hnn & Hlive & Hout); [done|done|].
    exists l. simpl. split; [|split; [|split]].
    + destruct Hrep as (Hc & Hr & Hnd). split; [|done].
      by apply chain_delete_other.
    + intros k c y Hk Hn. lookup_split; try done.
      destruct (O1 k c y Hk Hn) as (? & ? & ?). split; [done|]. split; [|done].
      rewrite lookup_delete_ne; [done|]. intros <-.
      by pose proof (O2 t k _ _ _ Heqo Hk eq_refl Hn).
    + intros k k' c c' y Hk Hk' Hn Hn'. lookup_split; try done. eapply O2; eauto.
    + intros k c y Hk Hn. lookup_split; try done.
      rewrite lookup_delete_ne; [by eapply O3|]. intros <-.
      assert (Hnc : node_of c = Some task) by (by destruct c).
      by pose proof (O2 t k _ _ _ Heqo Hk eq_refl Hnc).
  - (* the link of a new node *)
    destruct Hok as (l & Hrep & O1 & O2 & O3).
    destruct (O1 t _ node Heqo eq_refl) as (Hnn & _ & Hout).
    destruct (O3 t _ node Heqo eq_refl) as (nd & Hnd & Hnext).
    destruct (push_link_repr _ _ l node nd Hrep Hout Hnn Hnd Hnext)
      as (q' & h' & Hpl & Hrep' & Hsame & Hlive).
    simplify_eq. exists (l ++ [Item node (func nd) (arg nd)]). simpl.
    split; [done|]. split; [|split].
    + intros k c y Hk Hn. lookup_split; try done.
      destruct (O1 k c y Hk Hn) as (? & ? & ?). split; [done|].
      split; [by apply Hlive|]. rewrite List.map_app. apply not_elem_of_app.
      split; [done|]. simpl. intros Hin. apply list_elem_of_singleton in Hin.
      subst y. by pose proof (O2 t k _ _ _ Heqo Hk eq_refl Hn).
    + intros k k' c c' y Hk Hk' Hn Hn'. lookup_split; try done. eapply O2; eauto.
    + intros k c y Hk Hn. lookup_split; try done.
      destruct (O3 k c y Hk Hn) as (nd' & ? & ?). exists nd'.
      rewrite Hsame; [done|]. eapply O1; eauto. by destruct c.
  - (* malloc of a new node *)
    destruct Hok as (l & Hrep & O1 & O2 & O3).
    assert (Hout : node ∉ map addr l).
    { intros Hin. destruct Hrep as (Hc & _).
      destruct (chain_live _ _ _ _ Hc Hin) as [? ?]. congruence. }
    exists l. simpl. split; [|split; [|split]].
    + destruct Hrep as (Hc & Hr & Hnd). split; [|done].
      by apply chain_insert_other.
    + intros k c y Hk Hn. lookup_split.
      * simpl in Hn. simplify_eq. rewrite lookup_insert_eq. eauto.
      * destruct (O1 k c y Hk Hn) as (? & [? ?] & ?). split; [done|].
        split; [|done]. rewrite lookup_insert_ne; [eauto|]. congruence.
    + intros k k' c c' y Hk Hk' Hn Hn'. lookup_split; try done.
      all: try (eapply O2; eauto; fail).
      all: simpl in *; simplify_eq.
      all: match goal with
        | Hl : thr _ !! ?k0 = Some ?c0, Ho : node_of ?c0 = Some _ |- _ =>
            destruct (O1 k0 c0 _ Hl Ho) as (? & [? ?] & ?); congruence
        end.
    + intros k c y Hk Hn. lookup_split.
      * simpl in Hn. simplify_eq. rewrite lookup_insert_eq. eauto.
      * destruct (O3 k c y Hk Hn) as (nd' & ? & ?). exists nd'.
        rewrite lookup_insert_ne; [done|]. congruence.
  - (* broadcast *)
    apply (heap_frame s); [done|done| |done].
    intros k c' Hk. simpl in Hk. lookup_split.
    eexists. split; [eassumption|]. apply node_of_wake.
  - (* queue_destroy *)
    destruct Hok as (l & Hrep & O1 & O2 & O3).
    destruct (queue_destroy_repr _ _ l Hrep) as (w' & Hd & Hh & _).
    simplify_eq. exists []. simpl. split; [by apply queue_repr_nil_iff|].
    split; [|split].
    + intros k c y Hk Hn. destruct (O1 k c y Hk Hn) as (? & ? & ?).
      split; [done|]. split; [|apply not_elem_of_nil].
      rewrite Hh. by rewrite free_all_lookup_out.
    + done.
    + intros k c y Hk Hn. destruct (O3 k c y Hk Hn) as (nd' & ? & ?).
      exists nd'. rewrite Hh. rewrite free_all_lookup_out; [done|].
      eapply O1; eauto. by destruct c.
Qed.

(** *** All together *)

Lemma inv_step (m : nat) (a : action) (s s' : cstate) :
  Inv m s → step a s = Some s' → Inv m s'.
Proof.
  intros (Hk & Hp & Hl & Hsl & Hh) Hs.
  split; [|split; [|split; [|split]]].
  - eapply kinds_step; eauto.
  - eapply phase_step; eauto.
  - eapply lock_step; eauto.
  - eapply sleep_step; eauto.
  - eapply heap_step; eauto.
Qed.

Lemma inv_run (m : nat) (sched : list action) (s s' : cstate) :
  Inv m s → run sched s = Some s' → Inv m s'.
Proof.
  revert s. induction sched as [|a sched IH]; intros s Hinv Hr; simpl in Hr.
  - by inversion Hr; subst.
  - destruct (step a s) as [s1|] eqn:Hs; [|done]. simpl in Hr.
    eapply IH; [|exact Hr]. eapply inv_step; eauto.
Qed.

Lemma boot_thr_lookup (m np k : nat) (c : pc) :
  thr (boot m np) !! k = Some c →
  (k < m)%nat ∧ c = WTop ∨ (m ≤ k)%nat ∧ c = PIdle.
Proof.
  unfold boot. simpl. intros Hk.
  apply lookup_app_Some in Hk as [Hk|[Hlen Hk]].
  - apply lookup_replicate in Hk as [-> ?]. by left.
  - rewrite length_replicate in Hlen, Hk.
    apply lookup_replicate in Hk as [-> ?]. right. split; [lia|done].
Qed.

Lemma inv_boot (m np : nat) : Inv m (boot m np).
Proof.
  split; [|split; [|split; [|split]]].
  - split.
    + unfold boot. simpl. rewrite length_app, !length_replicate. lia.
    + intros k c Hk. apply boot_thr_lookup in Hk as [[? ->]|[? ->]]; simpl.
      * done.
      * split; [done|lia].
  - unfold phase_ok, pool_live. rewrite boot_pool. done.
  - split; [|split; [|split]].
    + intros t c Hk Hh. apply boot_thr_lookup in Hk as [[? ->]|[? ->]]; done.
    + done.
    + simpl. split; [done|]. intros [?|?]; done.
    + done.
  - intros Hpast. done.
  - exists []. rewrite boot_pool. simpl. split; [by apply queue_repr_nil_iff|].
    split; [|split].
    + intros t c x Hk Hn. apply boot_thr_lookup in Hk as [[? ->]|[? ->]]; done.
    + intros t t' c c' x Hk _ Hn.
      apply boot_thr_lookup in Hk as [[? ->]|[? ->]]; done.
    + intros t c x Hk Hn. apply boot_thr_lookup in Hk as [[? ->]|[? ->]]; done.
Qed.

(** ** After the shutdown has returned *)

Lemma total_zero (g : pc → nat) (l : list pc) :
  (∀ k c, l !! k = Some c → g c = 0%nat) → total g l = 0%nat.
Proof.
  induction l as [|c l IH]; intros Hall; [done|].
  simpl. rewrite (Hall 0%nat c eq_refl). rewrite IH; [done|].
  intros k c' Hk. by apply (Hall (S k)).
Qed.

Lemma nobody_armed (m : nat) (s : cstate) :
  kinds_ok m s → all_exited m s → total armed (thr s) = 0%nat.
Proof.
  intros [_ Hk] Hex. apply total_zero. intros k c Hc.
  destruct (decide (k < m)%nat) as [Hlt|Hge].
  - rewrite (Hex k Hlt) in Hc. by inversion Hc.
  - destruct (Hk k c Hc) as [Hw _]. destruct c; simpl in *; try done;
      exfalso; apply Hge, Hw; done.
Qed.

Lemma invocations_step (a : action) (s s' : cstate) :
  step a s = Some s' → (invocations s ≤ invocations s')%nat.
Proof.
  intros Hs. destruct a as [t ch|t|t f x node|]; step_points Hs;
    count_trace; try lia.
  unfold queue_destroy in *. case_match; simplify_eq. count_trace. lia.
Qed.

Lemma invocations_run (sched : list action) (s s' : cstate) :
  run sched s = Some s' → (invocations s ≤ invocations s')%nat.
Proof.
  revert s. induction sched as [|a sched IH]; intros s Hr; simpl in Hr.
  - inversion Hr; subst. lia.
  - destruct (step a s) as [s1|] eqn:Hs; [|done]. simpl in Hr.
    pose proof (invocations_step a s s1 Hs). pose proof (IH s1 Hr). lia.
Qed.

(** Once [thread_pool_shutdown] has returned, no task body is entered. *)
Lemma quiet_after_return (m : nat) (sched : list action) (s s' : cstate) :
  Inv m s → sd s = SReturned → run sched s = Some s' →
  invocations s' = invocations s.
Proof.
  intros (Hk & Hp & _) Hsd Hr. unfold phase_ok in Hp. rewrite Hsd in Hp.
  destruct Hp as [Hkr Hex].
  destruct (run_stopped_potential sched s s' Hkr Hr) as [_ Hle].
  rewrite (nobody_armed m s Hk Hex) in Hle.
  pose proof (invocations_run sched s s' Hr). lia.
Qed.

(** ** Threads: the shutdown returns *)

Lemma total_wake_rank (l : list pc) :
  (total rank (wake <$> l) ≤ total rank l)%nat.
Proof.
  induction l as [|x l IH]; [done|].
  rewrite fmap_cons. cbn [total]. destruct x; simpl; lia.
Qed.

Ltac rank_insert :=
  match goal with
  | Hl : thr ?s0 !! ?t0 = Some ?old
    |- context [total rank (<[?t0 := ?c]> (thr ?s0))] =>
      let Hti := fresh "Hti" in
      pose proof (total_insert rank (thr s0) t0 c old Hl) as Hti;
      simpl in Hti
  end.

(** With the flag cleared, every quiet step brings the end nearer. *)
Lemma quiet_step_decreases (a : action) (s s' : cstate) :
  keep_running (pool s) = 0 → quiet a → step a s = Some s' →
  (steps_left s' < steps_left s)%nat.
Proof.
  intros Hk Hq Hs. pose proof (stopped_true s Hk) as Hst.
  unfold steps_left, shutdown_rank.
  destruct a as [t ch|t|t f x node|]; try done; step_points Hs; simpl;
    try congruence.
  all: try (rank_insert; destruct (sd s); lia).
  all: try match goal with
    | Hi : thr ?s0 !! ?i = Some WBlocked, Hp : thr ?s0 !! ?t0 = Some PSignal |- _ =>
        pose proof (total_insert2 rank (thr s0) t0 i PUnlock PSignal WWoken
                      WBlocked Hi Hp) as Hti;
        simpl in Hti; assert (i ≠ t0) by congruence; destruct (sd s0); lia
    end.
  all: try lia.
  pose proof (total_wake_rank (thr s)). lia.
Qed.

Lemma release_owner (o : owner) (s : cstate) :
  mutex s = MHeld o → release o s = Some (log MutexUnlock (set_mutex MFree s)).
Proof. intros Hm. unfold release. by rewrite Hm, decide_True. Qed.

Lemma wait_release_owner (o : owner) (s : cstate) :
  mutex s = MHeld o → wait_release o s = Some (log CondWait (set_mutex MFree s)).
Proof. intros Hm. unfold wait_release. by rewrite Hm, decide_True. Qed.

(** Unless the shutdown has returned, some thread can take a quiet step. *)
Lemma progress (m : nat) (s : cstate) :
  Inv m s → sd s ≠ SReturned → ∃ a s', quiet a ∧ step a s = Some s'.
Proof.
  intros ((Hlen & Hkind) & Hp & (L1 & L2 & L3 & L4) & Hsl & Hh) Hnr.
  destruct Hh as (l & Hrep & O1 & O2 & O3).
  destruct (mutex s) as [|[t|]|] eqn:Hm.
  - (* the mutex is free *)
    assert (Hfree : ∀ t c, thr s !! t = Some c → holds c = false).
    { intros t c Hc. destruct (holds c) eqn:Hh; [|done].
      specialize (L1 t c Hc Hh). congruence. }
    unfold phase_ok, pool_live in Hp. unfold sleep_ok in Hsl.
    destruct (sd s) as [| | | | |i| | |] eqn:Hsd; try done.
    + exists Shutdown. eexists. split; [done|]. simpl. unfold shutdown_step.
      by rewrite Hsd.
    + exists Shutdown. eexists. split; [done|]. simpl. unfold shutdown_step.
      by rewrite Hsd.
    + exists Shutdown. eexists. split; [done|]. simpl.
      unfold shutdown_step, acquire. by rewrite Hsd, Hm.
    + assert (Hx : MFree = MHeld Main) by (apply L3; auto). done.
    + assert (Hx : MFree = MHeld Main) by (apply L3; auto). done.
    + destruct Hp as ((Hthr & Hnum) & Hkr & Hi & Hex).
      destruct (decide (i < num_threads (pool s))) as [Hlt|Hge].
      * assert (Hin : (Z.to_nat i < length (thr s))%nat) by lia.
        destruct (lookup_lt_is_Some_2 _ _ Hin) as [c Hc].
        destruct (decide (c = WExited)) as [->|Hne].
        -- exists Shutdown. eexists. split; [done|]. simpl.
           unfold shutdown_step. rewrite Hsd, decide_True by done.
           rewrite Hthr. simpl. rewrite handles_lookup by lia. simpl.
           rewrite Hc. simpl. done.
        -- assert (Hw : is_worker c = true) by (apply (Hkind _ _ Hc); lia).
           pose proof (Hfree _ _ Hc) as Hnh.
           destruct (Hsl eq_refl _ _ Hc) as [Hnb Hnw].
           exists (Step (Z.to_nat i) None).
           destruct c; try done; simpl; unfold thread_step; rewrite Hc; simpl;
             unfold worker_thread.
           ++ eexists. split; done.
           ++ unfold acquire. rewrite Hm. simpl. eexists. split; done.
           ++ unfold wait_reacquire. rewrite Hm. simpl. eexists. split; done.
           ++ destruct (O1 _ _ _ Hc eq_refl) as (_ & [nd Hnd] & _).
              rewrite Hnd. simpl. eexists. split; done.
           ++ destruct (O1 _ _ _ Hc eq_refl) as (_ & [nd Hnd] & _).
              rewrite Hnd. simpl. eexists. split; done.
      * exists Shutdown. eexists. split; [done|]. simpl. unfold shutdown_step.
        by rewrite Hsd, decide_False.
    + exists Shutdown. eexists. split; [done|]. simpl. unfold shutdown_step.
      by rewrite Hsd.
    + destruct (queue_destroy_repr _ _ l Hrep) as (w' & Hd & _).
      exists Shutdown. eexists. split; [done|]. simpl. unfold shutdown_step.
      rewrite Hsd, Hm, Hd. simpl. done.
  - (* a thread is inside its critical section *)
    destruct (L2 t eq_refl) as (c & Hc & Hh).
    destruct c; try done.
    all: try (exists (Step t None); simpl; unfold thread_step; rewrite Hc; simpl;
              unfold worker_thread, queue_push_thread;
              rewrite ?(release_owner _ _ Hm), ?(wait_release_owner _ _ Hm);
              simpl; eexists; split; done).
    + (* queue_pop *)
      exists (Step t None). simpl. unfold thread_step. rewrite Hc. simpl.
      unfold worker_thread. destruct l as [|it l].
      * apply queue_repr_nil_iff in Hrep as [Hf Hr].
        unfold queue_pop. rewrite decide_True by done. simpl.
        eexists. split; done.
      * destruct (queue_pop_repr _ _ it l Hrep) as (q' & Hpop & _).
        rewrite Hpop. simpl. eexists. split; done.
    + (* the link *)
      exists (Step t None). simpl. unfold thread_step. rewrite Hc. simpl.
      unfold queue_push_thread.
      destruct (O1 t _ _ Hc eq_refl) as (Hnn & _ & Hout).
      destruct (O3 t _ _ Hc eq_refl) as (nd & Hnd & Hnext).
      destruct (push_link_repr _ _ l _ nd Hrep Hout Hnn Hnd Hnext)
        as (q' & h' & Hpl & _).
      rewrite Hpl. simpl. eexists. split; done.
    + (* the signal *)
      destruct (decide (WBlocked ∈ thr s)) as [Hin|Hnin].
      * apply list_elem_of_lookup in Hin as [i Hi].
        exists (Step t (Some i)). simpl. unfold thread_step. rewrite Hc. simpl.
        unfold queue_push_thread. rewrite Hi. eexists. split; done.
      * exists (Step t None). simpl. unfold thread_step. rewrite Hc. simpl.
        unfold queue_push_thread.
        rewrite bool_decide_eq_false_2 by done. eexists. split; done.
  - (* the shutdown is inside its critical section *)
    exists Shutdown. simpl. unfold shutdown_step.
    destruct (proj1 L3 eq_refl) as [Hsd|Hsd]; rewrite Hsd;
      rewrite ?(release_owner _ _ Hm); simpl; eexists; split; done.
  - by specialize (L4 eq_refl).
Qed.

Lemma quiet_run_bounded (sched : list action) (s s' : cstate) :
  keep_running (pool s) = 0 → Forall quiet sched → run sched s = Some s' →
  (length sched + steps_left s' ≤ steps_left s)%nat.
Proof.
  revert s. induction sched as [|a sched IH]; intros s Hk Hq Hr; simpl in Hr.
  - inversion Hr; subst. simpl. lia.
  - apply Forall_cons in Hq as [Ha Hq].
    destruct (step a s) as [s1|] eqn:Hs; [|done]. simpl in Hr.
    pose proof (quiet_step_decreases a s s1 Hk Ha Hs).
    destruct (step_stopped_potential a s s1 Hk Hs) as [Hk1 _].
    specialize (IH s1 Hk1 Hq Hr). simpl. lia.
Qed.

Lemma drain (m : nat) (n : nat) (s : cstate) :
  (steps_left s < n)%nat → Inv m s → keep_running (pool s) = 0 →
  ∃ sched s', Forall quiet sched ∧ run sched s = Some s' ∧ sd s' = SReturned.
Proof.
  revert s. induction n as [|n IH]; intros s Hn Hinv Hk; [lia|].
  destruct (sd s) eqn:Hsd.
  9: { exists [], s. split; [constructor|]. done. }
  all: destruct (progress m s Hinv) as (a & s1 & Ha & Hs); [congruence|].
  all: pose proof (quiet_step_decreases a s s1 Hk Ha Hs) as Hlt.
  all: destruct (step_stopped_potential a s s1 Hk Hs) as [Hk1 _].
  all: destruct (IH s1) as (sched & s' & Hq & Hr & Hret);
    [lia|by eapply inv_step|done|].
  all: exists (a :: sched), s'; split; [by constructor|]; split; [|done].
  all: simpl; rewrite Hs; done.
Qed.

(** From any state that satisfies the invariants there is a quiet
    continuation at whose end [thread_pool_shutdown] has returned. *)
Lemma shutdown_can_return (m : nat) (s : cstate) :
  Inv m s →
  ∃ sched s', Forall quiet sched ∧ run sched s = Some s' ∧ sd s' = SReturned.
Proof.
  intros Hinv.
  assert (Hstart : ∃ pre s1, Forall quiet pre ∧ run pre s = Some s1 ∧
                             keep_running (pool s1) = 0).
  { pose proof Hinv as (_ & Hp & _). unfold phase_ok, pool_live in Hp.
    destruct (sd s) eqn:Hsd.
    - destruct Hp as [Hthr _].
      exists [Shutdown; Shutdown]. eexists. split; [repeat constructor|].
      simpl. unfold shutdown_step. rewrite Hsd, Hthr. simpl. done.
    - exists [Shutdown]. eexists. split; [repeat constructor|].
      simpl. unfold shutdown_step. rewrite Hsd. simpl. done.
    - exists [], s. split; [constructor|]. split; [done|tauto].
    - exists [], s. split; [constructor|]. split; [done|tauto].
    - exists [], s. split; [constructor|]. split; [done|tauto].
    - exists [], s. split; [constructor|]. split; [done|tauto].
    - exists [], s. split; [constructor|]. split; [done|tauto].
    - exists [], s. split; [constructor|]. split; [done|tauto].
    - exists [], s. split; [constructor|]. split; [done|tauto]. }
  destruct Hstart as (pre & s1 & Hq & Hr & Hk).
  destruct (drain m (S (steps_left s1)) s1) as (sched & s' & Hq' & Hr' & Hret);
    [lia|by eapply inv_run|done|].
  exists (pre ++ sched), s'. split; [by apply Forall_app|]. split; [|done].
  clear -Hr Hr'. revert s Hr. induction pre as [|a pre IH]; intros s Hr; simpl in *.
  - by inversion Hr; subst.
  - destruct (step a s) as [s2|]; [|done]. simpl in *. by apply IH.
Qed.

(** ** Shutdown and late submissions *)

(** C4, as the code has it.  In every state that the pool can reach from a
    start in which all [m] workers came up:
    - once [keep_running] is 0, at most one more task body is entered per
      worker that is already past the loop test and on its way to the
      dequeue, whatever is submitted later; a worker that reads the cleared
      flag at the loop test or after a wake-up returns without dequeuing;
    - the shutdown can always be brought to its return by steps of the
      threads and of the shutdown alone, whatever is still queued;
    - once [keep_running] is 0, any run without new submissions and
      unsignalled wake-ups is at most [steps_left] steps long;
    - after [thread_pool_shutdown] has returned, no task body is entered. *)
Theorem shutdown_stops_dispatch (m np : nat) (pre : list action) (s : cstate) :
  run pre (boot m np) = Some s →
  (keep_running (pool s) = 0 →
     ∀ sched s', run sched s = Some s' →
       (invocations s' ≤ invocations s + total armed (thr s))%nat) ∧
  (∃ sched s', Forall quiet sched ∧ run sched s = Some s' ∧ sd s' = SReturned) ∧
  (keep_running (pool s) = 0 →
     ∀ sched s', Forall quiet sched → run sched s = Some s' →
       (length sched ≤ steps_left s)%nat) ∧
  (sd s = SReturned →
     ∀ sched s', run sched s = Some s' → invocations s' = invocations s).
Proof.
  intros Hpre.
  assert (Hinv : Inv m s) by (eapply inv_run; [apply inv_boot|exact Hpre]).
  split; [|split; [|split]].
  - intros Hk sched s' Hr.
    destruct (run_stopped_potential sched s s' Hk Hr) as [_ Hle]. lia.
  - by apply (shutdown_can_return m).
  - intros Hk sched s' Hq Hr.
    pose proof (quiet_run_bounded sched s s' Hk Hq Hr). lia.
  - intros Hsd sched s' Hr. by apply (quiet_after_return m sched).
Qed.

(** The state in which worker 0 is past the loop test and the flag has just
    been cleared: one worker is armed, so at most one more task is run. *)
Lemma shutdown_stops_dispatch_witness :
  ∃ s, run race_pre (boot 1 1) = Some s ∧
       keep_running (pool s) = 0 ∧ total armed (thr s) = 1%nat ∧
       (∀ sched s', run sched s = Some s' →
          (invocations s' ≤ invocations s + total armed (thr s))%nat) ∧
       (∃ sched s', Forall quiet sched ∧ run sched s = Some s' ∧
                    sd s' = SReturned).
Proof.
  eexists. split; [vm_compute; reflexivity|].
  split; [reflexivity|]. split; [reflexivity|].
  match goal with
  | |- (∀ sched s', run sched ?s0 = _ → _) ∧ _ =>
      destruct (shutdown_stops_dispatch 1 1 race_pre s0) as (Ha & Hb & _ & _)
  end.
  - vm_compute. reflexivity.
  - split; [|exact Hb]. apply Ha. reflexivity.
Defined.

(** C4 as stated fails.  Task (7, 9) is submitted when [keep_running] is
    already 0 and no task body has run; worker 0, which had read the flag
    before it was cleared, dequeues the task and calls it. *)
Lemma late_submission_is_run :
  ∃ s1, run race_pre (boot 1 1) = Some s1 ∧
        keep_running (pool s1) = 0 ∧ sd s1 = SLock ∧ invocations s1 = 0%nat ∧
        ¬ (∀ s2, run (Submit 1 7 9 100 :: race_post) s1 = Some s2 →
                 Invoke 7 9 ∉ trace (mem s2)).
Proof.
  eexists. split; [vm_compute; reflexivity|].
  split; [reflexivity|]. split; [reflexivity|]. split; [reflexivity|].
  intros Hno.
  eapply Hno; [vm_compute; reflexivity|].
  apply list_elem_of_In. vm_compute. tauto.
Qed.

(** The same run continued: the worker leaves and the shutdown returns;
    the late task has run once. *)
Example late_submission_run_ends :
  ∃ s, run (race_pre ++ Submit 1 7 9 100 :: race_post ++ race_rest) (boot 1 1)
         = Some s ∧
       sd s = SReturned ∧ invocations s = 1%nat ∧ heap (mem s) = ∅.
Proof. eexists. split; [vm_compute; reflexivity|]. by vm_compute. Qed.

(** A task still queued when the shutdown starts: the worker reads the
    cleared flag and leaves, the shutdown returns, the node is freed and the
    task has not run. *)
Example queued_task_discarded :
  ∃ s, run ([Submit 1 7 9 100; Step 1 None; Step 1 None; Step 1 None;
             Step 1 None; Shutdown; Shutdown; Step 0 None;
             Shutdown; Shutdown; Shutdown; Shutdown; Shutdown; Shutdown;
             Shutdown]) (boot 1 1) = Some s ∧
       sd s = SReturned ∧ invocations s = 0%nat ∧ heap (mem s) !! 100 = None.
Proof. eexists. split; [vm_compute; reflexivity|]. by vm_compute. Qed.

(** ** The queue: composition of the operations *)

Section QueueMore.
Implicit Types (h : gmap Z task_node_t) (l ts : list item)
               (q : task_queue_t) (w : world).

Lemma chain_functional h p l l' : chain h p l → chain h p l' → l = l'.
Proof.
  revert p l'. induction l as [|it l IH]; intros p l' Hc Hc'.
  - simpl in Hc. subst p. symmetry. by eapply chain_null.
  - destruct Hc as (Hp & Hn & nx & Hl & Hc).
    destruct l' as [|it' l']; [simpl in Hc'; congruence|].
    destruct Hc' as (Hp' & _ & nx' & Hl' & Hc').
    rewrite Hl in Hl'. destruct it, it'. simpl in *. simplify_eq.
    f_equal. by eapply IH.
Qed.

Lemma queue_repr_ends h h' q q' l :
  queue_repr h q l → queue_repr h' q' l → q = q'.
Proof.
  intros (Hc & Hr & _) (Hc' & Hr' & _). destruct q, q'. simpl in *.
  subst. f_equal. destruct l as [|it l]; simpl in *; [congruence|].
  destruct Hc as (-> & _), Hc' as (-> & _). done.
Qed.

Lemma chain_grow h h' p l :
  (∀ x n, h !! x = Some n → h' !! x = Some n) → chain h p l → chain h' p l.
Proof.
  intros Hsub. revert p. induction l as [|it l IH]; simpl; intros p Hc; [done|].
  destruct Hc as (-> & Hn & nx & Hl & Hc).
  repeat split; [done|]. exists nx. split; [by apply Hsub|by apply IH].
Qed.

(** What a finished [destroy_loop] has walked through. *)
Lemma destroy_loop_finished k p h h' :
  destroy_loop k p h = Finished h' →
  ∃ l, chain h p l ∧ NoDup (map addr l) ∧ h' = free_all l h.
Proof.
  revert p h. induction k as [|k IH]; intros p h; simpl.
  - destruct (decide (p = NULL)) as [->|Hp].
    + intros [= <-]. exists []. repeat split. constructor.
    + by destruct (h !! p).
  - destruct (decide (p = NULL)) as [->|Hp].
    + intros [= <-]. exists []. repeat split. constructor.
    + destruct (h !! p) as [[f a nx]|] eqn:Hl; [|done]. simpl. intros Hd.
      destruct (IH _ _ Hd) as (l & Hc & Hnd & ->).
      exists (Item p f a :: l). split; [|split].
      * simpl. repeat split; [done|]. exists nx. split; [done|].
        eapply chain_grow; [|exact Hc].
        intros x n Hx. by apply lookup_delete_Some in Hx as [_ ?].
      * simpl. apply NoDup_cons. split; [|done]. intros Hin.
        destruct (chain_live _ _ _ _ Hc Hin) as [n Hn].
        by rewrite lookup_delete_eq in Hn.
      * done.
Qed.

Lemma queue_push_frame q w node f a q' w' :
  queue_push node f a q w = Some (q', w') → node ≠ NULL →
  ∀ x, x ≠ node → rear q = NULL ∨ x ≠ rear q → heap w' !! x = heap w !! x.
Proof.
  unfold queue_push, push_link. intros Hp Hnn x Hx [Hr|Hr].
  { rewrite decide_False in Hp by done. simpl in Hp.
    rewrite decide_True in Hp by done. simplify_option_eq.
    by rewrite lookup_insert_ne. }
  rewrite decide_False in Hp by done. simpl in Hp.
  destruct (decide (rear q = NULL)); simplify_option_eq.
  - by rewrite lookup_insert_ne.
  - by rewrite !lookup_insert_ne.
Qed.

Lemma push_all_frame ts q w l q' w' :
  queue_repr (heap w) q l → NoDup (map addr ts) →
  Forall (λ t, addr t ≠ NULL ∧ heap w !! addr t = None) ts →
  push_all ts q w = Some (q', w') →
  ∀ x, x ∉ map addr l → x ∉ map addr ts → heap w' !! x = heap w !! x.
Proof.
  revert q w l. induction ts as [|t ts IH]; intros q w l Hrep Hnd Hfr Hpa x Hl Hts.
  - simpl in Hpa. by simplify_eq.
  - simpl in Hnd. apply NoDup_cons in Hnd as [Hfirst Hnd].
    apply Forall_cons in Hfr as [[Hnn Hnone] Hfr].
    simpl in Hts. apply not_elem_of_cons in Hts as [Hxt Hts].
    destruct (queue_push_repr q w l (addr t) (ifunc t) (iarg t) Hrep Hnn Hnone)
      as (q1 & w1 & Hpush & Hrep1 & Hkeep & _).
    simpl in Hpa. rewrite Hpush in Hpa. simpl in Hpa.
    rewrite (IH q1 w1 (l ++ [Item (addr t) (ifunc t) (iarg t)]) Hrep1 Hnd)
      with (x := x); [| |done| |done].
    + eapply queue_push_frame; [exact Hpush|done|done|].
      destruct l as [|it l].
      * left. by destruct Hrep as (_ & Hr & _).
      * right. intros ->. apply Hl. destruct Hrep as (_ & -> & _).
        apply last_addr_in.
    + rewrite Forall_forall in Hfr. apply Forall_forall.
      intros y Hy. destruct (Hfr y Hy) as [Hyn Hyf]. split; [done|].
      apply Hkeep; [|done]. intros Heq. apply Hfirst. rewrite <- Heq.
      apply list_elem_of_fmap. by exists y.
    + rewrite List.map_app. simpl. intros Hin.
      apply elem_of_app in Hin as [Hin|Hin]; [done|].
      apply list_elem_of_singleton in Hin. done.
Qed.
End QueueMore.

(** X1.  On a queue that holds at least one task, [queue_push] and
    [queue_pop] commute: popping after the push returns the same node as
    popping before it, both orders end in the same queue structure, and the
    new task stands behind the tasks that were left. *)
Theorem push_pop_commute (q : task_queue_t) (w : world) (it : item)
    (l : list item) (node f a : Z) :
  queue_repr (heap w) q (it :: l) → node ≠ NULL → heap w !! node = None →
  ∃ q1 w1 q2 q3 w3,
    queue_push node f a q w = Some (q1, w1) ∧
    queue_pop q1 w1 = Some (addr it, q2) ∧
    queue_pop q w = Some (addr it, q3) ∧
    queue_push node f a q3 w = Some (q2, w3) ∧
    queue_repr (heap w1) q2 (l ++ [Item node f a]) ∧
    queue_repr (heap w3) q2 (l ++ [Item node f a]).
Proof.
  intros Hrep Hnn Hfresh.
  destruct (queue_push_repr q w (it :: l) node f a Hrep Hnn Hfresh)
    as (q1 & w1 & Hpush & Hrep1 & _).
  destruct (queue_pop_repr q1 w1 it (l ++ [Item node f a]) Hrep1)
    as (q2 & Hpop1 & Hrep2).
  destruct (queue_pop_repr q w it l Hrep) as (q3 & Hpop & Hrep3).
  destruct (queue_push_repr q3 w l node f a Hrep3 Hnn Hfresh)
    as (q4 & w3 & Hpush3 & Hrep4 & _).
  assert (q4 = q2) as -> by (eapply queue_repr_ends; eauto).
  by exists q1, w1, q2, q3, w3.
Qed.

Lemma push_pop_commute_witness :
  ∃ q1 w1 q2 q3 w3,
    queue_push 30 3 300 (TaskQueue 10 20) two_nodes = Some (q1, w1) ∧
    queue_pop q1 w1 = Some (10, q2) ∧
    queue_pop (TaskQueue 10 20) two_nodes = Some (10, q3) ∧
    queue_push 30 3 300 q3 two_nodes = Some (q2, w3) ∧
    queue_repr (heap w1) q2 [Item 20 2 200; Item 30 3 300] ∧
    queue_repr (heap w3) q2 [Item 20 2 200; Item 30 3 300].
Proof.
  apply (push_pop_commute (TaskQueue 10 20) two_nodes (Item 10 1 100)
           [Item 20 2 200] 30 3 300).
  - exact two_nodes_repr.
  - done.
  - by vm_compute.
Defined.

(** X2.  No node is leaked and nothing else is touched: after [queue_init],
    any number of successful pushes and [queue_destroy], the heap is again
    the heap from before the pushes. *)
Theorem push_destroy_restores_heap (q0 : task_queue_t) (w0 : world)
    (ts : list item) :
  NoDup (map addr ts) →
  Forall (λ t, addr t ≠ NULL ∧ heap w0 !! addr t = None) ts →
  ∃ q1 w1 q2 w2,
    push_all ts (queue_init q0 w0).1 (queue_init q0 w0).2 = Some (q1, w1) ∧
    queue_destroy q1 w1 = Some (q2, w2) ∧
    heap w2 = heap w0 ∧
    (∀ t, t ∈ ts → task_at w1 (addr t) = Some (ifunc t, iarg t)).
Proof.
  intros Hnd Hfr.
  assert (Hrep0 : queue_repr (heap (queue_init q0 w0).2) (queue_init q0 w0).1 [])
    by (by apply queue_repr_nil_iff).
  destruct (push_all_repr ts _ _ [] Hrep0 Hnd Hfr) as (q1 & w1 & Hpa & Hrep1).
  simpl in Hrep1.
  destruct (queue_destroy_repr q1 w1 ts Hrep1) as (w2 & Hd & Hh & _).
  exists q1, w1, {| front := NULL; rear := NULL |}, w2.
  split; [done|]. split; [done|]. split.
  - apply map_eq. intros x. rewrite Hh.
    destruct (decide (x ∈ map addr ts)) as [Hin|Hout].
    + rewrite free_all_lookup_in by done.
      apply list_elem_of_fmap in Hin as (t & -> & Ht).
      rewrite Forall_forall in Hfr. by destruct (Hfr t Ht) as [_ ->].
    + rewrite free_all_lookup_out by done.
      eapply (push_all_frame ts _ _ [] q1 w1 Hrep0 Hnd Hfr Hpa); [|done].
      apply not_elem_of_nil.
  - intros t Ht. destruct Hrep1 as (Hc & _).
    destruct (chain_task_at _ _ _ t Hc Ht) as (nx & Hl).
    unfold task_at. by rewrite Hl.
Qed.

Lemma push_destroy_restores_heap_witness :
  ∃ q1 w1 q2 w2,
    push_all [Item 10 1 100; Item 20 2 200]
      (queue_init (TaskQueue 5 6) (World ∅ [])).1
      (queue_init (TaskQueue 5 6) (World ∅ [])).2 = Some (q1, w1) ∧
    queue_destroy q1 w1 = Some (q2, w2) ∧
    heap w2 = heap (World ∅ []) ∧
    (∀ t, t ∈ [Item 10 1 100; Item 20 2 200] →
       task_at w1 (addr t) = Some (ifunc t, iarg t)).
Proof.
  apply (push_destroy_restores_heap (TaskQueue 5 6) (World ∅ [])
           [Item 10 1 100; Item 20 2 200]).
  - apply (bool_decide_unpack _). vm_compute. exact I.
  - repeat constructor; done.
Defined.

(** X3.  Popping past the end: once the queued tasks are taken, every
    further [queue_pop] returns [NULL] and the queue stays empty. *)
Theorem pop_past_end (q : task_queue_t) (w : world) (l : list item) (k : nat) :
  queue_repr (heap w) q l →
  pop_n (length l + k) q w =
    Some (map addr l ++ replicate k NULL, {| front := NULL; rear := NULL |}).
Proof.
  intros Hrep.
  assert (Hempty : ∀ k, pop_n k {| front := NULL; rear := NULL |} w =
                        Some (replicate k NULL, {| front := NULL; rear := NULL |})).
  { clear. induction k as [|k IH]; [done|]. simpl. unfold queue_pop. simpl.
    by rewrite IH. }
  revert q Hrep. induction l as [|it l IH]; intros q Hrep.
  - apply queue_repr_nil_iff in Hrep as [Hf Hr]. destruct q. simpl in *. subst.
    apply Hempty.
  - destruct (queue_pop_repr q w it l Hrep) as (q1 & Hpop & Hrep1).
    simpl. rewrite Hpop. simpl. rewrite (IH q1 Hrep1). done.
Qed.

Lemma pop_past_end_witness :
  pop_n (2 + 3) (TaskQueue 10 20) two_nodes =
    Some ([10; 20; NULL; NULL; NULL], {| front := NULL; rear := NULL |}).
Proof.
  apply (pop_past_end (TaskQueue 10 20) two_nodes
           [Item 10 1 100; Item 20 2 200] 3).
  exact two_nodes_repr.
Defined.

(** X4.  [queue_destroy] returns exactly when following [next] from [front]
    leads through live, pairwise distinct nodes to [NULL]; [rear] plays no
    part.  Otherwise the loop reads or frees a node that is not live. *)
Theorem queue_destroy_defined_iff (q : task_queue_t) (w : world) :
  is_Some (queue_destroy q w) ↔
  ∃ l, chain (heap w) (front q) l ∧ NoDup (map addr l).
Proof.
  unfold queue_destroy. split.
  - intros [r Hr].
    destruct (destroy_loop (size (heap w)) (front q) (heap w)) as [h'| |] eqn:Hd;
      [|done|done].
    destruct (destroy_loop_finished _ _ _ _ Hd) as (l & Hc & Hnd & _). eauto.
  - intros (l & Hc & Hnd).
    rewrite (destroy_loop_chain _ _ _ l Hc Hnd) by done. by eexists.
Qed.

(** X5.  When [rear] is null or points to a live node, [queue_push] with a
    fresh node returns, and it writes two cells at most: the new node, and
    the [next] field of the node that was last.  Every other cell, and the
    function and argument of every node, are as before; [front] moves only
    when [rear] was null. *)
Theorem queue_push_footprint (q : task_queue_t) (w : world) (node f a : Z) :
  node ≠ NULL → heap w !! node = None →
  rear q = NULL ∨ is_Some (heap w !! rear q) →
  ∃ q' w', queue_push node f a q w = Some (q', w') ∧
    heap w' !! node = Some {| func := f; arg := a; next := NULL |} ∧
    rear q' = node ∧
    front q' = (if decide (rear q = NULL) then node else front q) ∧
    (∀ x, x ≠ node → heap w !! x = None → heap w' !! x = None) ∧
    (∀ x nd, heap w !! x = Some nd →
       ∃ nd', heap w' !! x = Some nd' ∧ func nd' = func nd ∧ arg nd' = arg nd ∧
              (rear q = NULL ∨ x ≠ rear q → nd' = nd)).
Proof.
  intros Hnn Hfresh Hrear. unfold queue_push, push_link.
  rewrite decide_False by done. simpl.
  assert (Hlive : ∀ x nd, heap w !! x = Some nd → x ≠ node)
    by (intros x nd Hx ->; by rewrite Hfresh in Hx).
  destruct (decide (rear q = NULL)) as [Hr|Hr]; simpl.
  - eexists _, _. split; [done|]. simpl. rewrite lookup_insert_eq.
    repeat split.
    + intros x Hx Hnone. by rewrite lookup_insert_ne.
    + intros x nd Hx. exists nd. rewrite lookup_insert_ne; [done|].
      intros Heq. by eapply Hlive.
  - destruct Hrear as [?|[r Hl]]; [done|].
    pose proof (Hlive _ _ Hl) as Hne.
    rewrite lookup_insert_ne by done. rewrite Hl. simpl.
    eexists _, _. split; [done|]. simpl.
    rewrite lookup_insert_ne, lookup_insert_eq by done. repeat split.
    + intros x Hx Hnone. rewrite !lookup_insert_ne; [done|done|].
      intros Heq. rewrite Heq, Hnone in Hl. done.
    + intros x nd Hx. destruct (decide (x = rear q)) as [->|Hxr].
      * rewrite lookup_insert_eq. eexists. split; [done|].
        rewrite Hl in Hx. injection Hx as <-. simpl.
        split; [done|]. split; [done|]. by intros [?|?].
      * exists nd. rewrite !lookup_insert_ne; [done| |done].
        intros Heq. by eapply Hlive.
Qed.

Lemma queue_push_footprint_witness :
  ∃ q' w', queue_push 30 3 300 (TaskQueue 10 20) two_nodes = Some (q', w') ∧
    heap w' !! 30 = Some {| func := 3; arg := 300; next := NULL |} ∧
    rear q' = 30 ∧ front q' = 10.
Proof.
  destruct (queue_push_footprint (TaskQueue 10 20) two_nodes 30 3 300)
    as (q' & w' & Hp & Hn & Hr & Hf & _).
  - done.
  - by vm_compute.
  - right. exists (TaskNode 2 200 NULL). by vm_compute.
  - exists q', w'. split; [exact Hp|]. split; [exact Hn|].
    split; [exact Hr|exact Hf].
Defined.

(** ** The pool: start and shutdown in full *)

Lemma create_loop_events (spawn : Z → option Z) (idx : list Z)
    (st : list (option Z) * world) :
  creates (trace (foldl (create_one spawn) st idx).2)
    = creates (trace st.2) ++ ((λ i, (i, spawn i)) <$> idx) ∧
  stderr_lines (trace (foldl (create_one spawn) st idx).2)
    = stderr_lines (trace st.2) ++
      ((λ i, "Error creating thread " +:+ pretty i +:+ nl)
         <$> filter (λ i, spawn i = None) idx) ∧
  joins (trace (foldl (create_one spawn) st idx).2) = joins (trace st.2).
Proof.
  revert st. induction idx as [|i idx IH]; intros st.
  - simpl. by rewrite !app_nil_r.
  - simpl. destruct (IH (create_one spawn st i)) as (-> & -> & ->).
    unfold create_one, creates, stderr_lines, joins, call, emit.
    destruct (spawn i) as [hd|] eqn:Hs; simpl.
    + rewrite filter_cons_False by (by rewrite Hs). rewrite !omap_app. simpl.
      rewrite !app_nil_r. by rewrite <- app_assoc.
    + rewrite filter_cons_True by done. rewrite !omap_app. simpl.
      rewrite !app_nil_r. by rewrite <- !app_assoc.
Qed.

(** X6.  [thread_pool_init] when the handle array cannot be allocated: one
    diagnostic, [threads] null, [num_threads] already set to the requested
    count, the queue and [keep_running] as they were (no [queue_init], no
    thread).  On that pool [thread_pool_shutdown] returns at its guard, while
    [thread_pool_add_task] does not look at [threads]: it locks the queue
    mutex although [platform_mutex_init] was never called on it. *)
Theorem init_alloc_failure (p : thread_pool_t) (n : Z) (spawn : Z → option Z)
    (w : world) :
  ∃ p1 w1,
    thread_pool_init (Some p) n false spawn w = (Some p1, w1) ∧
    threads p1 = None ∧ num_threads p1 = n ∧
    queue p1 = queue p ∧ keep_running p1 = keep_running p ∧
    heap w1 = heap w ∧
    trace w1 = trace w ++
      [Stderr ("thread_pool_init: failed to allocate thread handles" +:+ nl)] ∧
    thread_pool_shutdown (Some p1) w1 = Some (Some p1, w1) ∧
    (∀ node f a, node ≠ NULL → heap w !! node = None → rear (queue p) = NULL →
       ∃ p2 w2, thread_pool_add_task (Some p1) node f a w1 = Some (Some p2, w2) ∧
                threads p2 = None ∧
                trace w2 = trace w1 ++ [Platform MutexLock; Platform CondSignal;
                                        Platform MutexUnlock]).
Proof.
  eexists _, _. split; [reflexivity|]. simpl.
  repeat (split; [done|]).
  intros node f a Hnn Hfresh Hr. unfold queue_push, push_link. simpl.
  rewrite decide_False by done. simpl. rewrite decide_True by done. simpl.
  eexists _, _. split; [done|]. split; [done|]. simpl.
  by rewrite <- !app_assoc.
Qed.

(** X7.  A start with a handle array: [platform_thread_create] is called once
    for every slot, in slot order; a slot holds the handle written to it or
    stays unwritten when the call failed; one diagnostic is printed for each
    failed slot, in slot order, and nothing else; the count stays [n]
    whatever the number of threads that started; the queue is empty,
    [keep_running] is 1 and the heap is untouched. *)
Theorem init_creates_every_slot (p0 : thread_pool_t) (n : nat)
    (spawn : Z → option Z) (w0 : world) :
  ∃ p w,
    thread_pool_init (Some p0) (Z.of_nat n) true spawn w0 = (Some p, w) ∧
    threads p = Some (spawn <$> seqZ 0 (Z.of_nat n)) ∧
    num_threads p = Z.of_nat n ∧
    queue p = {| front := NULL; rear := NULL |} ∧ keep_running p = 1 ∧
    heap w = heap w0 ∧
    creates (trace w)
      = creates (trace w0) ++ ((λ i, (i, spawn i)) <$> seqZ 0 (Z.of_nat n)) ∧
    stderr_lines (trace w)
      = stderr_lines (trace w0) ++
        ((λ i, "Error creating thread " +:+ pretty i +:+ nl)
           <$> failed_slots spawn (Z.of_nat n)) ∧
    joins (trace w) = joins (trace w0).
Proof.
  rewrite thread_pool_init_ok. cbn zeta.
  pose proof (create_loop_all spawn n 0 [] (call CondInit (call MutexInit w0))
                eq_refl) as Hc.
  change (Z.of_nat 0) with 0 in Hc. rewrite app_nil_l in Hc.
  rewrite Nat2Z.id. rewrite Hc.
  eexists _, _. split; [reflexivity|]. cbn [threads num_threads queue keep_running].
  repeat (split; [done|]).
  split; [by rewrite (proj1 (create_loop_world _ _ _))|].
  destruct (create_loop_events spawn (seqZ 0 (Z.of_nat n))
              (replicate n None, call CondInit (call MutexInit w0)))
    as (-> & -> & ->).
  unfold creates, stderr_lines, joins, call, emit. simpl.
  rewrite !omap_app. simpl. by rewrite !app_nil_r.
Qed.

Lemma join_loop_trace (arr : list (option Z)) (pre : list (option Z))
    (w : world) :
  ∃ w', join_loop (seqZ (Z.of_nat (length pre)) (Z.of_nat (length arr)))
          (pre ++ arr) w = Some w' ∧
        heap w' = heap w ∧
        trace w' = trace w ++ ((λ slot, Platform (ThreadJoin slot)) <$> arr).
Proof.
  revert pre w. induction arr as [|slot arr IH]; intros pre w.
  - exists w. simpl. by rewrite app_nil_r.
  - rewrite seqZ_cons by (simpl; lia). simpl.
    rewrite Nat2Z.id. rewrite list_lookup_middle by done. simpl.
    destruct (IH (pre ++ [slot]) (call (ThreadJoin slot) w)) as (w' & Hj & Hh & Ht).
    rewrite length_app in Hj. simpl in Hj.
    replace (Z.succ (Z.of_nat (length pre)))
      with (Z.of_nat (length pre + 1)) by lia.
    replace (Z.pred (Z.of_nat (S (length arr))))
      with (Z.of_nat (length arr)) by lia.
    rewrite <- app_assoc in Hj. simpl in Hj.
    exists w'. split; [exact Hj|]. split; [done|].
    rewrite Ht. unfold call, emit. simpl. by rewrite <- app_assoc.
Qed.

(** X8.  [thread_pool_shutdown] on a started pool, in full: the broadcast is
    made with the mutex held; then comes one join per slot, in slot order;
    only after the last join are the queued nodes freed, front first, and
    the mutex and the condition variable destroyed.  No task is invoked, no
    other cell of the heap changes, and the pool is left with [threads]
    null, no thread counted, an empty queue and [keep_running] 0. *)
Theorem shutdown_sequence (p : thread_pool_t) (w : world)
    (arr : list (option Z)) (l : list item) :
  threads p = Some arr → num_threads p = Z.of_nat (length arr) →
  queue_repr (heap w) (queue p) l →
  ∃ w', thread_pool_shutdown (Some p) w =
          Some (Some {| threads := None; num_threads := 0;
                        queue := {| front := NULL; rear := NULL |};
                        keep_running := 0 |}, w') ∧
        heap w' = free_all l (heap w) ∧
        trace w' = trace w ++
          [Platform MutexLock; Platform CondBroadcast; Platform MutexUnlock] ++
          ((λ slot, Platform (ThreadJoin slot)) <$> arr) ++
          [Platform MutexDestroy; Platform CondDestroy].
Proof.
  intros Harr Hn Hrep. unfold thread_pool_shutdown. rewrite Harr, Hn.
  set (w1 := call MutexUnlock (call CondBroadcast (call MutexLock w))).
  destruct (join_loop_trace arr [] w1) as (w2 & Hj & Hh & Ht).
  change (Z.of_nat (length (@nil (option Z)))) with 0 in Hj.
  rewrite app_nil_l in Hj. rewrite Hj. simpl.
  destruct (queue_destroy_repr (queue p) w2 l) as (w3 & Hd & Hh3 & Ht3).
  { by rewrite Hh. }
  rewrite Hd. simpl. exists w3. split; [done|]. split.
  - by rewrite Hh3, Hh.
  - rewrite Ht3, Ht. unfold w1, call, emit. simpl.
    rewrite <- !app_assoc. done.
Qed.

Lemma shutdown_sequence_witness :
  ∃ w', thread_pool_shutdown (Some stopping_pool) two_nodes =
          Some (Some {| threads := None; num_threads := 0;
                        queue := {| front := NULL; rear := NULL |};
                        keep_running := 0 |}, w') ∧
        heap w' = free_all [Item 10 1 100; Item 20 2 200] (heap two_nodes) ∧
        trace w' = trace two_nodes ++
          [Platform MutexLock; Platform CondBroadcast; Platform MutexUnlock] ++
          ((λ slot, Platform (ThreadJoin slot)) <$> [Some 7]) ++
          [Platform MutexDestroy; Platform CondDestroy].
Proof.
  apply (shutdown_sequence stopping_pool two_nodes [Some 7]
           [Item 10 1 100; Item 20 2 200]).
  - reflexivity.
  - reflexivity.
  - exact two_nodes_repr.
Defined.

(** ** Threads: what holds in every reachable state *)

Lemma reachable_inv (m np : nat) (pre : list action) (s : cstate) :
  run pre (boot m np) = Some s → Inv m s.
Proof. intros Hr. eapply inv_run; [apply inv_boot|exact Hr]. Qed.



Lemma stay_step (a : action) (s s' : cstate) :
  (keep_running (pool s) ≠ 0 → ∀ t c, thr s !! t = Some c → leaving c = false) →
  step a s = Some s' →
  keep_running (pool s') ≠ 0 → ∀ t c, thr s' !! t = Some c → leaving c = false.
Proof.
  intros Hst Hs Hk t c Hc.
  assert (Hstop : keep_running (pool s) ≠ 0 → stopped s = false).
  { intros Hne. unfold stopped. by rewrite bool_decide_eq_false. }
  destruct a as [k ch|k|k f x node|]; step_points Hs; simpl in *;
    lookup_split; try done.
  all: try (eapply Hst; eauto; fail).
  all: try (rewrite Hstop in *; [done|done]).
  all: try (by destruct (decide _)).
  all: try (specialize (Hst Hk); naive_solver).
  - match goal with H : thr s !! _ = Some ?c0 |- _ =>
      specialize (Hst Hk _ _ H) end. by destruct x.
Qed.

Lemma stay_run (sched : list action) (s0 s1 : cstate) :
  (keep_running (pool s0) = 1 ∨ keep_running (pool s0) = 0) →
  (keep_running (pool s0) ≠ 0 → ∀ t c, thr s0 !! t = Some c → leaving c = false) →
  run sched s0 = Some s1 →
  (keep_running (pool s1) = 1 ∨ keep_running (pool s1) = 0) ∧
  (keep_running (pool s1) ≠ 0 → ∀ t c, thr s1 !! t = Some c → leaving c = false).
Proof.
  revert s0. induction sched as [|a sched IH]; intros s0 H01 Hst Hrun;
    simpl in Hrun.
  - by simplify_eq.
  - destruct (step a s0) as [s2|] eqn:Hs; [|done]. simpl in Hrun.
    apply (IH s2); [|by eapply stay_step|done].
    destruct a as [k ch|k|k f x node|]; step_points Hs; simpl; auto.
Qed.

Lemma reachable_stay (m np : nat) (pre : list action) (s : cstate) :
  run pre (boot m np) = Some s →
  (keep_running (pool s) = 1 ∨ keep_running (pool s) = 0) ∧
  (keep_running (pool s) ≠ 0 → ∀ t c, thr s !! t = Some c → leaving c = false).
Proof.
  intros Hr. apply (stay_run pre (boot m np) s); [| |done].
  - rewrite boot_pool. by left.
  - intros _ t c Hc. apply boot_thr_lookup in Hc as [[_ ->]|[_ ->]]; done.
Qed.

(** X10.  While [keep_running] is set no worker leaves: none has returned
    and none is at the unlock before its return, so all [m] workers are in
    their loop.  The flag is then still the 1 written by
    [thread_pool_init], and the shutdown has not passed its first
    assignment. *)
Theorem workers_stay_while_running (m np : nat) (pre : list action)
    (s : cstate) :
  run pre (boot m np) = Some s → keep_running (pool s) ≠ 0 →
  keep_running (pool s) = 1 ∧ (sd s = SIdle ∨ sd s = SFlag) ∧
  ∀ t, (t < m)%nat →
    ∃ c, thr s !! t = Some c ∧ is_worker c = true ∧ leaving c = false.
Proof.
  intros Hr Hk.
  destruct (reachable_stay _ _ _ _ Hr) as [H01 Hst].
  destruct (reachable_inv _ _ _ _ Hr) as ((Hlen & Hkind) & Hp & _).
  split; [by destruct H01|]. split.
  - unfold phase_ok in Hp. destruct (sd s); naive_solver.
  - intros t Ht.
    destruct (lookup_lt_is_Some_2 (thr s) t) as [c Hc]; [lia|].
    exists c. split; [done|]. split; [by apply (Hkind t c Hc)|by eapply Hst].
Qed.

Lemma workers_stay_while_running_witness :
  ∃ s, run worker_locks (boot 2 1) = Some s ∧
       keep_running (pool s) = 1 ∧
       ∀ t, (t < 2)%nat →
         ∃ c, thr s !! t = Some c ∧ is_worker c = true ∧ leaving c = false.
Proof.
  eexists. split; [vm_compute; reflexivity|].
  match goal with
  | |- keep_running (pool ?s0) = 1 ∧ _ =>
      destruct (workers_stay_while_running 2 1 worker_locks s0) as (Hk & _ & Hw)
  end.
  - vm_compute. reflexivity.
  - vm_compute. discriminate.
  - split; [exact Hk|exact Hw].
Defined.

Lemma can_move_step (m : nat) (s : cstate) (t : nat) (c : pc) :
  Inv m s → thr s !! t = Some c → can_move c s →
  ∃ choice s', step (Step t choice) s = Some s'.
Proof.
  intros (_ & _ & (L1 & L2 & L3 & L4) & _ & (l & Hrep & O1 & O2 & O3)) Hc Hmv.
  assert (Hm : holds c = true → mutex s = MHeld (Thread t)) by (by apply L1).
  destruct (decide (c = PSignal)) as [->|Hns].
  { destruct (decide (WBlocked ∈ thr s)) as [Hin|Hnin].
    - apply list_elem_of_lookup in Hin as [i Hi].
      exists (Some i). simpl. unfold thread_step. rewrite Hc. simpl.
      rewrite Hi. by eexists.
    - exists None. simpl. unfold thread_step. rewrite Hc. simpl.
      rewrite bool_decide_eq_false_2 by done. by eexists. }
  exists None. simpl. unfold thread_step. rewrite Hc.
  destruct c; try done; simpl in *; unfold acquire, wait_reacquire;
    rewrite ?Hmv, ?(release_owner _ _ (Hm eq_refl)),
            ?(wait_release_owner _ _ (Hm eq_refl)); simpl; try (by eexists).
  - destruct l as [|it l].
    + apply queue_repr_nil_iff in Hrep as [Hf Hrr].
      unfold queue_pop. rewrite decide_True by done. by eexists.
    + destruct (queue_pop_repr _ _ it l Hrep) as (q' & -> & _). by eexists.
  - destruct (O1 _ _ _ Hc eq_refl) as (_ & [nd ->] & _). by eexists.
  - destruct (O1 _ _ _ Hc eq_refl) as (_ & [nd ->] & _). by eexists.
  - destruct (O1 t _ _ Hc eq_refl) as (Hnn & _ & Hout).
    destruct (O3 t _ _ Hc eq_refl) as (nd & Hnd & Hnext).
    destruct (push_link_repr _ _ l _ nd Hrep Hout Hnn Hnd Hnext)
      as (q' & h' & -> & _).
    by eexists.
Qed.



(** ** Threads: where the submitted tasks are *)

Lemma fmap_insert_same {A B : Type} (f : A → B) (l : list A) (t : nat)
    (c c' : A) :
  l !! t = Some c → f c' = f c → f <$> <[t := c']> l = f <$> l.
Proof.
  intros Hl Hf. rewrite list_fmap_insert, Hf.
  apply list_insert_id. by rewrite list_lookup_fmap, Hl.
Qed.

Lemma invoked_tasks_call (tr : list event) (c : platform_call) :
  invoked_tasks (tr ++ [Platform c]) = invoked_tasks tr.
Proof. unfold invoked_tasks. rewrite omap_app. simpl. apply app_nil_r. Qed.

Lemma invoked_tasks_stderr (tr : list event) (msg : string) :
  invoked_tasks (tr ++ [Stderr msg]) = invoked_tasks tr.
Proof. unfold invoked_tasks. rewrite omap_app. simpl. apply app_nil_r. Qed.

Lemma unrun_wake (c : pc) : unrun (wake c) = unrun c.
Proof. by destruct c. Qed.

Lemma unrun_node_of (c : pc) (x : Z) : unrun c = Some x → node_of c = Some x.
Proof. by destruct c. Qed.

(** Every step is one of the moves of [change]. *)
Lemma step_change (m : nat) (a : action) (s s' : cstate) (l : list item) :
  Inv m s → queue_repr (heap (mem s)) (queue (pool s)) l →
  step a s = Some s' → moves l s s' a.
Proof.
  intros (_ & _ & _ & _ & (l0 & Hrep0 & O1 & O2 & O3)) Hrep Hs.
  assert (l0 = l) as ->.
  { destruct Hrep0 as (Hc0 & _), Hrep as (Hc & _). by eapply chain_functional. }
  clear Hrep0.
  assert (Hnone : ∀ s1, heap (mem s1) = heap (mem s) →
            queue (pool s1) = queue (pool s) →
            node_of <$> thr s1 = node_of <$> thr s →
            unrun <$> thr s1 = unrun <$> thr s →
            invoked_tasks (trace (mem s1)) = invoked_tasks (trace (mem s)) →
            accepted_task a = None →
            moves l s s1 a).
  { intros s1 Hh Hq Hn Hu Hi Ha. exists l. split; [by constructor|].
    by rewrite Hh, Hq. }
  destruct a as [t ch|t|t f x node|]; step_points Hs.
  all: try (apply Hnone; simpl; rewrite ?invoked_tasks_call, ?invoked_tasks_stderr;
            try done; eapply fmap_insert_same; eauto; fail).
  - (* queue_pop *)
    destruct l as [|it l].
    + apply queue_repr_nil_iff in Hrep as Hnil. destruct Hnil as [Hf Hr].
      unfold queue_pop in *. rewrite decide_True in * by done. simplify_eq.
      apply Hnone; simpl; try done; by eapply fmap_insert_same.
    + destruct (queue_pop_repr _ _ it l Hrep) as (q' & Hpop & Hrep').
      simplify_eq. exists l. split; [|done].
      by eapply (change_pop _ _ _ _ t it l).
  - (* the unlock before the call *)
    apply Hnone; simpl; rewrite ?invoked_tasks_call; try done;
      (eapply fmap_insert_same; [eassumption|]); simpl;
      by rewrite ?decide_False.
  - (* the call *)
    exists l. split; [|done].
    eapply (change_run _ _ _ _ t task); eauto.
    simpl. unfold invoked_tasks. by rewrite omap_app.
  - (* free *)
    exists l. split; [by eapply (change_free _ _ _ _ t task)|]. simpl.
    destruct (O1 t (WFree task) task) as (Hnn & Hlive & Hout); [done|done|].
    destruct Hrep as (Hc & Hr & Hnd). split; [|done].
    by apply chain_delete_other.
  - (* the link of a new node *)
    destruct (O1 t _ node Heqo eq_refl) as (Hnn & _ & Hout).
    destruct (O3 t _ node Heqo eq_refl) as (nd & Hnd & Hnext).
    destruct (push_link_repr _ _ l node nd Hrep Hout Hnn Hnd Hnext)
      as (q' & h' & Hpl & Hrep' & Hsame & Hlive).
    simplify_eq. exists (l ++ [Item node (func nd) (arg nd)]).
    split; [|done].
    eapply (change_link _ _ _ _ t node nd); eauto.
    intros y. simpl. split; [|by apply Hlive].
    intros Hy. destruct (decide (y ∈ map addr l)) as [Hin|Hnin].
    + destruct Hrep as (Hc & _). by eapply chain_live.
    + by rewrite <- Hsame.
  - (* the signal *)
    apply Hnone; simpl; rewrite ?invoked_tasks_call; try done.
    all: assert (n ≠ t) by congruence.
    all: rewrite (fmap_insert_same _ (<[n := WWoken]> (thr s)) t PSignal PUnlock);
      [|by rewrite list_lookup_insert_ne|done].
    all: by eapply fmap_insert_same.
  - apply Hnone; simpl; rewrite ?invoked_tasks_call; try done.
    all: assert (n ≠ t) by congruence.
    all: rewrite (fmap_insert_same _ (<[n := WWoken]> (thr s)) t PSignal PUnlock);
      [|by rewrite list_lookup_insert_ne|done].
    all: by eapply fmap_insert_same.
  - (* malloc of a new node *)
    exists l. split; [by eapply (change_alloc _ _ _ _ t f x node)|]. simpl.
    assert (Hout : node ∉ map addr l).
    { intros Hin. destruct Hrep as (Hc & _).
      destruct (chain_live _ _ _ _ Hc Hin) as [? ?]. congruence. }
    destruct Hrep as (Hc & Hr & Hnd). split; [|done].
    by apply chain_insert_other.
  - (* broadcast *)
    apply Hnone; simpl; rewrite ?invoked_tasks_call; try done.
    all: rewrite <- list_fmap_compose; apply list_fmap_ext; intros _ c _; simpl.
    + apply node_of_wake.
    + apply unrun_wake.
  - (* queue_destroy *)
    destruct (queue_destroy_repr _ _ l Hrep) as (w' & Hd & Hh & Ht).
    simplify_eq. exists []. split; [|by apply queue_repr_nil_iff].
    apply change_destroy; simpl; try done.
    rewrite Ht. unfold invoked_tasks. rewrite omap_app. simpl. apply app_nil_r.
Qed.

Lemma returned_stable (a : action) (s s' : cstate) :
  step a s = Some s' → sd s = SReturned → sd s' = SReturned.
Proof.
  intros Hs Hsd.
  assert (a = Shutdown ∨ a ≠ Shutdown) as [->|Ha] by (destruct a; auto).
  - simpl in Hs. unfold shutdown_step in Hs. by rewrite Hsd in Hs.
  - destruct (others_leave_pool a s s' Ha Hs) as (_ & _ & _ & ->). done.
Qed.







(** *** Every submitted task is in one place *)

Lemma in_hand_insert (h : gmap Z task_node_t) (l : list pc) (t : nat)
    (c old : pc) :
  l !! t = Some old →
  in_hand h (<[t := c]> l) ++ hand h (unrun old)
  ≡ₚ in_hand h l ++ hand h (unrun c).
Proof.
  revert t. induction l as [|c0 l IH]; intros t Ht; [done|].
  destruct t as [|t]; simpl in *.
  - simplify_eq. solve_Permutation.
  - rewrite <- !app_assoc. by rewrite (IH t Ht).
Qed.

Lemma in_hand_fmap (h : gmap Z task_node_t) (l l' : list pc) :
  unrun <$> l' = unrun <$> l → in_hand h l' = in_hand h l.
Proof.
  revert l'. induction l as [|c l IH]; intros [|c' l'] Heq; try done.
  simpl in *. injection Heq as Hc Hl. by rewrite Hc, (IH l' Hl).
Qed.

Lemma in_hand_ext (h h' : gmap Z task_node_t) (l : list pc) :
  (∀ k c x, l !! k = Some c → unrun c = Some x → h' !! x = h !! x) →
  in_hand h' l = in_hand h l.
Proof.
  induction l as [|c l IH]; intros Hsame; [done|]. simpl.
  rewrite IH by (intros k c0 x Hk; apply (Hsame (S k) c0 x Hk)).
  f_equal. destruct (unrun c) as [x|] eqn:Hu; [|done]. simpl.
  unfold task_of. by rewrite (Hsame 0%nat c x eq_refl Hu).
Qed.

Lemma queued_app (l1 l2 : list item) : queued (l1 ++ l2) = queued l1 ++ queued l2.
Proof. unfold queued. apply fmap_app. Qed.

(** What a move does to the list of tasks. *)
Lemma tasks_change (m : nat) (a : action) (s s' : cstate) (l l' : list item) :
  Inv m s → queue_repr (heap (mem s)) (queue (pool s)) l →
  change l s s' a l' →
  (sd s' = SReturned ∧ tasks s' l' ⊆+ tasks s l ∧ accepted_task a = None ∧
   invoked_tasks (trace (mem s')) = invoked_tasks (trace (mem s))) ∨
  tasks s' l' ≡ₚ tasks s l ++ option_list (accepted_task a).
Proof.
  intros (_ & _ & _ & _ & (l0 & Hrep0 & O1 & O2 & O3)) Hrep Hch.
  assert (l0 = l) as ->.
  { destruct Hrep0 as (Hc0 & _), Hrep as (Hc & _). by eapply chain_functional. }
  clear Hrep0. unfold tasks.
  assert (Hother : ∀ t c k c0 x, thr s !! t = Some c → thr s !! k = Some c0 →
            unrun c0 = Some x → node_of c = Some x → k = t).
  { intros t c k c0 x Hc Hk Hu Hn. apply unrun_node_of in Hu. by eapply O2. }
  destruct Hch as [Hh Hq Hn Hu Hi Ha|t it l1 -> Ht Hthr Hh Hi Ha
    |t task nd Ht Hnd Hthr Hh Hq Hi Ha|t task Ht Hthr Hh Hq Hi Ha
    |t node nd Ht Hnd Hthr Hsame Hdom Hi Ha
    |t f y node -> Hnn Hfresh Ht Hthr Hh Hq Hi
    | -> Hsd Hsd' Hthr Hh Hi]; [right..|left].
  - rewrite Hh, Hi, Ha, (in_hand_fmap _ _ _ Hu). simpl. by rewrite app_nil_r.
  - rewrite Hh, Hi, Ha, Hthr. simpl. rewrite app_nil_r.
    pose proof (in_hand_insert (heap (mem s)) (thr s) t (WUnlock (addr it))
                  WPop Ht) as Hp.
    simpl in Hp. rewrite app_nil_r in Hp. rewrite Hp.
    destruct Hrep as ((Hf & Hnn & nx & Hl & _) & _).
    rewrite decide_False by congruence. simpl. unfold task_of.
    rewrite <- Hf, Hl. simpl. solve_Permutation.
  - rewrite Hh, Hi, Ha, Hthr. simpl. rewrite app_nil_r.
    pose proof (in_hand_insert (heap (mem s)) (thr s) t (WFree task)
                  (WRun task) Ht) as Hp.
    simpl in Hp. rewrite app_nil_r in Hp. rewrite <- Hp.
    unfold task_of. rewrite Hnd. solve_Permutation.
  - rewrite Hi, Ha, Hthr. simpl. rewrite app_nil_r.
    pose proof (in_hand_insert (heap (mem s')) (thr s) t WTop (WFree task) Ht)
      as Hp.
    simpl in Hp. rewrite !app_nil_r in Hp. rewrite Hp.
    rewrite (in_hand_ext (heap (mem s)) (heap (mem s')) (thr s)); [done|].
    intros k c x Hk Hx. rewrite Hh. rewrite lookup_delete_ne; [done|].
    intros <-. assert (k = t) by (by eapply Hother). subst k.
    rewrite Ht in Hk. by simplify_eq.
  - rewrite Hi, Ha, Hthr, queued_app. simpl. rewrite app_nil_r.
    pose proof (in_hand_insert (heap (mem s')) (thr s) t PSignal (PLink node) Ht)
      as Hp.
    simpl in Hp. rewrite app_nil_r in Hp.
    destruct (O1 t _ node Ht eq_refl) as (_ & _ & Hout).
    unfold task_of in Hp. rewrite (Hsame node Hout), Hnd in Hp.
    rewrite (in_hand_ext (heap (mem s)) (heap (mem s')) (thr s)) in Hp.
    + rewrite <- Hp. solve_Permutation.
    + intros k c x Hk Hx. apply Hsame. apply unrun_node_of in Hx.
      by destruct (O1 k c x Hk Hx) as (_ & _ & ?).
  - rewrite Hi, Hthr. simpl. rewrite decide_False by done. simpl.
    pose proof (in_hand_insert (heap (mem s')) (thr s) t (PLock node) PIdle Ht)
      as Hp.
    simpl in Hp. rewrite app_nil_r in Hp. rewrite Hp.
    unfold task_of at 1. rewrite Hh, lookup_insert_eq. simpl.
    rewrite (in_hand_ext (heap (mem s)) _ (thr s)).
    + by rewrite !app_assoc.
    + intros k c x Hk Hx. rewrite lookup_insert_ne; [done|]. intros <-.
      apply unrun_node_of in Hx.
      destruct (O1 k c node Hk Hx) as (_ & [? ?] & _). congruence.
  - split; [done|]. split; [|done]. rewrite Hi, Hthr. simpl.
    rewrite (in_hand_ext (heap (mem s)) (heap (mem s')) (thr s)).
    + apply submseteq_app; [done|]. apply submseteq_inserts_l. done.
    + intros k c x Hk Hx. rewrite Hh. apply free_all_lookup_out.
      apply unrun_node_of in Hx. by destruct (O1 k c x Hk Hx) as (_ & _ & ?).
Qed.

Lemma returned_run (sched : list action) (s s' : cstate) :
  run sched s = Some s' → sd s = SReturned → sd s' = SReturned.
Proof.
  revert s. induction sched as [|a sched IH]; intros s Hr Hsd; simpl in Hr.
  - by simplify_eq.
  - destruct (step a s) as [s1|] eqn:Hs; [|done]. simpl in Hr.
    apply (IH s1 Hr). by eapply returned_stable.
Qed.

Lemma accepted_cons (a : action) (sched : list action) :
  accepted (a :: sched) = option_list (accepted_task a) ++ accepted sched.
Proof. unfold accepted. simpl. by destruct (accepted_task a). Qed.

Lemma tasks_run (m : nat) (sched : list action) (s s' : cstate) (l : list item) :
  Inv m s → queue_repr (heap (mem s)) (queue (pool s)) l →
  run sched s = Some s' →
  ∃ l', queue_repr (heap (mem s')) (queue (pool s')) l' ∧
        tasks s' l' ⊆+ tasks s l ++ accepted sched ∧
        (sd s' ≠ SReturned → tasks s' l' ≡ₚ tasks s l ++ accepted sched).
Proof.
  revert s l. induction sched as [|a sched IH]; intros s l Hinv Hrep Hr.
  - simpl in Hr. simplify_eq. exists l. rewrite app_nil_r. done.
  - simpl in Hr. destruct (step a s) as [s1|] eqn:Hs; [|done]. simpl in Hr.
    destruct (step_change m a s s1 l Hinv Hrep Hs) as (l1 & Hch & Hrep1).
    destruct (IH s1 l1 (inv_step m a s s1 Hinv Hs) Hrep1 Hr)
      as (l' & Hrep' & Hsub & Heq).
    exists l'. split; [done|]. rewrite accepted_cons.
    destruct (tasks_change m a s s1 l l1 Hinv Hrep Hch)
      as [(Hsd1 & Hsub1 & Ha & _)|Hp].
    + rewrite Ha. simpl. split.
      * etrans; [exact Hsub|]. by apply submseteq_app.
      * intros Hne. destruct Hne. by eapply returned_run.
    + rewrite app_assoc, <- Hp. done.
Qed.

Lemma count_invoked_tasks (tr : list event) :
  count_invoked tr = length (invoked_tasks tr).
Proof.
  induction tr as [|e tr IH]; [done|]. simpl. rewrite IH.
  unfold invoked_tasks. by destruct e.
Qed.

Lemma boot_tasks (m np : nat) : tasks (boot m np) [] = [].
Proof.
  unfold tasks.
  assert (Hi : invoked_tasks (trace (mem (boot m np))) = []).
  { apply length_zero_iff_nil. rewrite <- count_invoked_tasks. apply boot_trace. }
  rewrite Hi. unfold queued. rewrite fmap_nil, !app_nil_l.
  assert (Hn : ∀ h l, (∀ k c, l !! k = Some c → unrun c = None) → in_hand h l = []).
  { intros h l. induction l as [|c l IH]; intros Hl; [done|]. simpl.
    rewrite (Hl 0%nat c eq_refl). simpl. apply IH.
    intros k c0 Hk. apply (Hl (S k) c0 Hk). }
  apply Hn. intros k c Hk. apply boot_thr_lookup in Hk as [[_ ->]|[_ ->]]; done.
Qed.

(** X13.  At most once.  The task bodies entered are, counted with
    repetitions, among the submissions for which [queue_push] got a node:
    no task is called that was not submitted, and none more often than it
    was submitted.  Until the shutdown returns none is lost either: each of
    these submissions is in exactly one place, called, queued, or in the
    hand of the thread that is linking or about to call it. *)
Theorem at_most_once (m np : nat) (sched : list action) (s : cstate) :
  run sched (boot m np) = Some s →
  invoked_tasks (trace (mem s)) ⊆+ accepted sched ∧
  (invocations s ≤ length (accepted sched))%nat ∧
  (sd s ≠ SReturned →
     ∃ l, queue_repr (heap (mem s)) (queue (pool s)) l ∧
          invoked_tasks (trace (mem s)) ++ queued l ++
            in_hand (heap (mem s)) (thr s) ≡ₚ accepted sched).
Proof.
  intros Hr.
  destruct (tasks_run m sched (boot m np) s [] (inv_boot m np))
    as (l & Hrep & Hsub & Heq); [|done|].
  { rewrite boot_pool. by apply queue_repr_nil_iff. }
  rewrite boot_tasks in Hsub, Heq. simpl in Hsub, Heq.
  assert (Hinv : invoked_tasks (trace (mem s)) ⊆+ accepted sched).
  { etrans; [|exact Hsub]. unfold tasks. by apply submseteq_inserts_r. }
  split; [done|]. split.
  - unfold invocations. rewrite count_invoked_tasks.
    by apply submseteq_length.
  - intros Hsd. exists l. split; [done|]. by apply Heq.
Qed.

Lemma at_most_once_witness :
  ∃ s, run two_tasks_shutdown (boot 1 1) = Some s ∧
       invoked_tasks (trace (mem s)) = [(7, 9)] ∧
       accepted two_tasks_shutdown = [(7, 9); (8, 10)] ∧
       invoked_tasks (trace (mem s)) ⊆+ accepted two_tasks_shutdown.
Proof.
  eexists. split; [vm_compute; reflexivity|]. split; [reflexivity|].
  split; [reflexivity|].
  match goal with
  | |- invoked_tasks (trace (mem ?s0)) ⊆+ _ =>
      apply (at_most_once 1 1 two_tasks_shutdown s0)
  end.
  vm_compute. reflexivity.
Defined.

(** *** One worker, one submitter: the order of the calls *)

Lemma order_change (a : action) (s s' : cstate) (l l' : list item) :
  Inv 1 s → length (thr s) = 2%nat →
  queue_repr (heap (mem s)) (queue (pool s)) l →
  change l s s' a l' →
  length (thr s') = 2%nat ∧
  (invoked_tasks (trace (mem s')) = invoked_tasks (trace (mem s)) ∨
   ∃ task, thr s !! 0%nat = Some (WRun task)) ∧
  ((sd s' = SReturned ∧ accepted_task a = None ∧
    invoked_tasks (trace (mem s')) = invoked_tasks (trace (mem s))) ∨
   tasks_in_order s' l' = tasks_in_order s l ++ option_list (accepted_task a)).
Proof.
  intros ((_ & Hkind) & _ & _ & _ & (l0 & Hrep0 & O1 & O2 & O3)) Hlen Hrep Hch.
  assert (l0 = l) as ->.
  { destruct Hrep0 as (Hc0 & _), Hrep as (Hc & _). by eapply chain_functional. }
  clear Hrep0.
  assert (∃ cw cp, thr s = [cw; cp]) as (cw & cp & Hthr0).
  { destruct (thr s) as [|cw [|cp [|]]]; try done. by exists cw, cp. }
  clear Hlen.
  assert (Hw : is_worker cw = true).
  { apply (Hkind 0%nat cw); [by rewrite Hthr0|lia]. }
  assert (Hp : is_worker cp = false).
  { destruct (is_worker cp) eqn:E; [|done].
    apply (Hkind 1%nat cp) in E; [lia|by rewrite Hthr0]. }
  assert (Hat : ∀ t c, [cw; cp] !! t = Some c →
            (t = 0%nat ∧ c = cw) ∨ (t = 1%nat ∧ c = cp)).
  { intros [|[|t]] c Hc; simpl in Hc; simplify_eq; auto. }
  assert (Hdiff : ∀ x y, node_of cw = Some x → node_of cp = Some y → x ≠ y).
  { intros x y Hx Hy ->.
    assert (0 = 1)%nat; [|done].
    apply (O2 0%nat 1%nat cw cp y); by rewrite ?Hthr0. }
  unfold tasks_in_order.
  destruct Hch as [Hh Hq Hn Hu Hi Ha|t it l1 -> Ht Hthr Hh Hi Ha
    |t task nd Ht Hnd Hthr Hh Hq Hi Ha|t task Ht Hthr Hh Hq Hi Ha
    |t node nd Ht Hnd Hthr Hsame Hdom Hi Ha
    |t f y node -> Hnn Hfresh Ht Hthr Hh Hq Hi
    | -> Hsd Hsd' Hthr Hh Hi]; rewrite Hthr0 in *.
  - destruct (thr s') as [|cw' [|cp' [|]]]; simpl in Hu; try done.
    injection Hu as Hu1 Hu2.
    split; [done|]. split; [by left|]. right. simpl.
    rewrite Hh, Hi, Ha, Hu1, Hu2. simpl. by rewrite app_nil_r.
  - destruct (Hat t _ Ht) as [[-> <-]|[-> <-]]; [|done].
    rewrite Hthr. simpl. split; [done|]. split; [by left|]. right.
    rewrite Hh, Hi, Ha. simpl. rewrite app_nil_r.
    destruct Hrep as ((Hf & Hnn & nx & Hl & _) & _).
    rewrite decide_False by congruence. simpl. unfold task_of.
    rewrite <- Hf, Hl. done.
  - destruct (Hat t _ Ht) as [[-> <-]|[-> <-]]; [|done].
    rewrite Hthr. simpl. split; [done|]. split; [right; by exists task|]. right.
    rewrite Hh, Hi, Ha. simpl. rewrite app_nil_r. unfold task_of.
    rewrite Hnd. by rewrite <- !app_assoc.
  - destruct (Hat t _ Ht) as [[-> <-]|[-> <-]]; [|done].
    rewrite Hthr. simpl. split; [done|]. split; [by left|]. right.
    rewrite Hi, Ha. simpl. rewrite app_nil_r. do 2 f_equal.
    destruct (unrun cp) as [y|] eqn:Hy; [|done]. simpl. unfold task_of.
    rewrite Hh, lookup_delete_ne; [done|].
    apply unrun_node_of in Hy. by apply (Hdiff task y).
  - destruct (Hat t _ Ht) as [[-> <-]|[-> <-]]; [done|].
    rewrite Hthr. simpl. split; [done|]. split; [by left|]. right.
    rewrite Hi, Ha, queued_app. simpl. rewrite !app_nil_r.
    destruct (O1 1%nat _ node eq_refl eq_refl) as (_ & _ & Hout).
    unfold task_of at 1. rewrite Hnd. do 2 f_equal.
    destruct (unrun cw) as [y|] eqn:Hy; [|done]. simpl. unfold task_of.
    rewrite Hsame; [done|]. apply unrun_node_of in Hy.
    by destruct (O1 0%nat cw y eq_refl Hy) as (_ & _ & ?).
  - destruct (Hat t _ Ht) as [[-> <-]|[-> <-]]; [done|].
    rewrite Hthr. simpl. split; [done|]. split; [by left|]. right.
    rewrite Hi. rewrite decide_False by done. simpl. rewrite app_nil_r.
    unfold task_of. rewrite Hh, lookup_insert_eq. simpl.
    rewrite <- !app_assoc. do 2 f_equal.
    destruct (unrun cw) as [z|] eqn:Hz; [|done]. simpl. unfold task_of.
    rewrite lookup_insert_ne; [done|]. intros <-. apply unrun_node_of in Hz.
    destruct (O1 0%nat cw node eq_refl Hz) as (_ & [? ?] & _). congruence.
  - rewrite Hthr. split; [done|]. split; [by left|]. by left.
Qed.

Lemma order_run (sched : list action) (s s' : cstate) (l : list item)
    (acc : list (Z * Z)) :
  Inv 1 s → length (thr s) = 2%nat →
  queue_repr (heap (mem s)) (queue (pool s)) l →
  invoked_tasks (trace (mem s)) `prefix_of` acc →
  (sd s ≠ SReturned → tasks_in_order s l = acc) →
  run sched s = Some s' →
  invoked_tasks (trace (mem s')) `prefix_of` acc ++ accepted sched ∧
  (sd s' ≠ SReturned →
     ∃ l', queue_repr (heap (mem s')) (queue (pool s')) l' ∧
           tasks_in_order s' l' = acc ++ accepted sched).
Proof.
  revert s l acc. induction sched as [|a sched IH];
    intros s l acc Hinv Hlen Hrep Hpre Heq Hr.
  - simpl in Hr. simplify_eq. rewrite app_nil_r. split; [done|]. eauto.
  - simpl in Hr. destruct (step a s) as [s1|] eqn:Hs; [|done]. simpl in Hr.
    destruct (step_change 1 a s s1 l Hinv Hrep Hs) as (l1 & Hch & Hrep1).
    destruct (order_change a s s1 l l1 Hinv Hlen Hrep Hch)
      as (Hlen1 & Hsame & Hcase).
    rewrite accepted_cons, app_assoc.
    apply (IH s1 l1); [by eapply inv_step|done|done| | |done].
    + assert (sd s = SReturned ∨ sd s ≠ SReturned) as [Hsd|Hsd]
        by (destruct (sd s); auto).
      * destruct Hsame as [->|[task Hrun]]; [by apply prefix_app_r|].
        destruct Hinv as (_ & Hph & _). unfold phase_ok in Hph.
        rewrite Hsd in Hph. destruct Hph as [_ Hex].
        rewrite (Hex 0%nat) in Hrun by lia. done.
      * destruct Hcase as [(_ & -> & ->)|Hord].
        -- simpl. by rewrite app_nil_r.
        -- rewrite <- (Heq Hsd), <- Hord. unfold tasks_in_order.
           by apply prefix_app_r.
    + intros Hsd1.
      assert (Hsd : sd s ≠ SReturned).
      { intros Hsd. apply Hsd1. by eapply returned_stable. }
      destruct Hcase as [(? & _)|Hord]; [done|].
      by rewrite Hord, (Heq Hsd).
Qed.

(** X14.  With one worker and one submitting thread the task bodies are
    entered in the order of submission: at every moment the sequence of
    calls is an initial segment of the sequence of submissions for which
    [queue_push] got a node.  Until the shutdown returns these submissions
    are, in this order: the tasks called, the task in the worker's hand, the
    tasks in the queue from [front] on, and the task that the submitter is
    linking. *)
Theorem single_worker_fifo (sched : list action) (s : cstate) :
  run sched (boot 1 1) = Some s →
  invoked_tasks (trace (mem s)) `prefix_of` accepted sched ∧
  (sd s ≠ SReturned →
     ∃ l, queue_repr (heap (mem s)) (queue (pool s)) l ∧
          tasks_in_order s l = accepted sched).
Proof.
  intros Hr.
  assert (Hi : invoked_tasks (trace (mem (boot 1 1))) = []).
  { apply length_zero_iff_nil. rewrite <- count_invoked_tasks. apply boot_trace. }
  apply (order_run sched (boot 1 1) s [] []).
  - apply inv_boot.
  - done.
  - rewrite boot_pool. by apply queue_repr_nil_iff.
  - by rewrite Hi.
  - intros _. unfold tasks_in_order. by rewrite Hi.
  - done.
Qed.

Lemma single_worker_fifo_witness :
  ∃ s, run two_tasks_run (boot 1 1) = Some s ∧
       invoked_tasks (trace (mem s)) = [(7, 9)] ∧
       accepted two_tasks_run = [(7, 9); (8, 10)] ∧
       invoked_tasks (trace (mem s)) `prefix_of` accepted two_tasks_run.
Proof.
  eexists. split; [vm_compute; reflexivity|]. split; [reflexivity|].
  split; [reflexivity|].
  match goal with
  | |- invoked_tasks (trace (mem ?s0)) `prefix_of` _ =>
      apply (single_worker_fifo two_tasks_run s0)
  end.
  vm_compute. reflexivity.
Defined.

(** *** No lost wake-up *)

Lemma total_pos (g : pc → nat) (l : list pc) :
  (0 < total g l)%nat ↔ ∃ k c, l !! k = Some c ∧ (0 < g c)%nat.
Proof.
  induction l as [|c l IH]; simpl.
  - split; [lia|]. by intros (k & c & Hk & _).
  - split.
    + intros Hpos. destruct (decide (0 < g c)%nat) as [Hc|Hc].
      * by exists 0%nat, c.
      * destruct (proj1 IH) as (k & c0 & Hk & Hg); [lia|]. by exists (S k), c0.
    + intros ([|k] & c0 & Hk & Hg); simpl in Hk.
      * simplify_eq. lia.
      * assert (0 < total g l)%nat by (apply IH; eauto). lia.
Qed.

Lemma nobody_asleep (l : list pc) : WBlocked ∉ l → total asleep l = 0%nat.
Proof.
  intros Hno. apply total_zero. intros k c Hk.
  destruct c; try done. destruct Hno. by eapply list_elem_of_lookup_2.
Qed.

Lemma total_ge (g : pc → nat) (l : list pc) (t : nat) (c : pc) :
  l !! t = Some c → (g c ≤ total g l)%nat.
Proof.
  revert t. induction l as [|c0 l IH]; intros [|t] Ht; simpl in *; try done.
  - simplify_eq. lia.
  - specialize (IH t Ht). lia.
Qed.

Lemma wakeup_step (m : nat) (a : action) (s s' : cstate) :
  Inv m s → wakeup_ok s → step a s = Some s' → wakeup_ok s'.
Proof.
  intros (_ & Hp & (L1 & _) & _) Hw Hs Hk'.
  assert (Hstop : keep_running (pool s) ≠ 0 → stopped s = false).
  { intros Hne. unfold stopped. by rewrite bool_decide_eq_false. }
  assert (Hrun : keep_running (pool s) ≠ 0 → sd s = SIdle ∨ sd s = SFlag).
  { intros Hne. unfold phase_ok in Hp. destruct (sd s); naive_solver. }
  assert (Hex : ∀ t t' c c', thr s !! t = Some c → thr s !! t' = Some c' →
            holds c = true → holds c' = true → t = t').
  { intros t t' c c' Hc Hc' Hh Hh'.
    pose proof (L1 _ _ Hc Hh). pose proof (L1 _ _ Hc' Hh'). congruence. }
  destruct a as [t ch|t|t f x node|]; step_points Hs; simpl in *.
  all: try (specialize (Hrun Hk'); destruct Hrun; congruence).
  all: try (rewrite Hstop in *; [|done]).
  all: try done.
  all: destruct (Hw Hk') as [A B]; clear Hw; split.
  all: try exact B.
  all: try (intros k c Hc Hcw; lookup_split; destruct Hcw; simplify_eq;
            try done; eapply A; eauto; fail).
  all: try (intros Hf Hb;
            match goal with
            | Hl : thr ?s0 !! ?t0 = Some ?old
              |- context [total alert (<[?t0 := ?c]> (thr ?s0))] =>
                pose proof (total_insert alert (thr s0) t0 c old Hl) as Hti;
                pose proof (total_insert asleep (thr s0) t0 c old Hl) as Htj;
                pose proof (total_ge alert (thr s0) t0 old Hl) as Htg;
                simpl in Hti, Htj, Htg, Hb; try specialize (B Hf); lia
            end).
  - (* the worker goes to sleep *)
    intros Hf. destruct Hf. eapply A; eauto.
  - (* queue_pop *)
    intros k c Hc Hcw. lookup_split; [by destruct Hcw|].
    assert (k = t); [|done].
    eapply Hex; eauto. by destruct Hcw; subst.
  - (* the link *)
    intros k c Hc Hcw. lookup_split; [by destruct Hcw|].
    assert (k = t); [|done].
    eapply Hex; eauto. by destruct Hcw; subst.
  - (* the signal wakes a sleeper *)
    intros Hf Hb. assert (Hne : n ≠ t) by congruence.
    match goal with
    | Hi : thr s !! n = Some WBlocked, Ht : thr s !! t = Some PSignal |- _ =>
        pose proof (total_insert2 alert (thr s) t n PUnlock PSignal WWoken
                      WBlocked Hi Ht Hne) as Hti;
        pose proof (total_ge alert (thr s) t PSignal Ht) as Htg
    end.
    simpl in Hti, Htg. lia.
  - intros Hf Hb. assert (Hne : n ≠ t) by congruence.
    match goal with
    | Hi : thr s !! n = Some WBlocked, Ht : thr s !! t = Some PSignal |- _ =>
        pose proof (total_insert2 alert (thr s) t n PUnlock PSignal WWoken
                      WBlocked Hi Ht Hne) as Hti;
        pose proof (total_ge alert (thr s) t PSignal Ht) as Htg
    end.
    simpl in Hti, Htg. lia.
  - (* the signal finds nobody asleep *)
    intros Hf Hb.
    match goal with
    | Hno : WBlocked ∉ thr s, Ht : thr s !! t = Some PSignal |- _ =>
        pose proof (nobody_asleep _ Hno) as Hz;
        pose proof (total_insert asleep (thr s) t PUnlock PSignal Ht) as Htj
    end.
    simpl in Htj. lia.
Qed.

Lemma wakeup_run (m : nat) (sched : list action) (s s' : cstate) :
  Inv m s → wakeup_ok s → run sched s = Some s' → wakeup_ok s'.
Proof.
  revert s. induction sched as [|a sched IH]; intros s Hinv Hw Hr; simpl in Hr.
  - by simplify_eq.
  - destruct (step a s) as [s1|] eqn:Hs; [|done]. simpl in Hr.
    apply (IH s1); [by eapply inv_step|by eapply wakeup_step|done].
Qed.

(** X11.  No lost wake-up.  While the pool is running and a task is queued,
    no worker is at the flag test of the inner loop or about to call
    [platform_cond_wait], none has left, and, if the pool has any worker,
    some worker is in its loop and not asleep, or a submitter holds the
    mutex and is about to call [platform_cond_signal]: the queue is never
    non-empty with every worker asleep and no signal on its way. *)
Theorem no_lost_wakeup (m np : nat) (pre : list action) (s : cstate) :
  run pre (boot m np) = Some s → keep_running (pool s) ≠ 0 →
  front (queue (pool s)) ≠ NULL →
  (∀ t c, thr s !! t = Some c →
     c ≠ WCheckRun ∧ c ≠ WWait ∧ leaving c = false) ∧
  ((0 < m)%nat →
     ∃ t c, thr s !! t = Some c ∧ (awake c = true ∨ c = PSignal)).
Proof.
  intros Hr Hk Hf.
  pose proof (reachable_inv _ _ _ _ Hr) as Hinv.
  destruct (reachable_stay _ _ _ _ Hr) as [_ Hst]. specialize (Hst Hk).
  assert (Hw : wakeup_ok s).
  { apply (wakeup_run m pre (boot m np)); [apply inv_boot| |done].
    intros _. split; [|by rewrite boot_pool].
    intros t c Hc Hcw. apply boot_thr_lookup in Hc as [[_ ->]|[_ ->]];
      by destruct Hcw. }
  destruct (Hw Hk) as [A B]. split.
  - intros t c Hc. split; [|split; [|by eapply Hst]].
    + intros ->. apply Hf. eapply A; eauto.
    + intros ->. apply Hf. eapply A; eauto.
  - intros Hm. destruct Hinv as ((Hlen & Hkind) & _).
    destruct (decide (0 < total asleep (thr s))%nat) as [Hsl|Hno].
    + specialize (B Hf Hsl). apply total_pos in B as (k & c & Hc & Hal).
      exists k, c. split; [done|]. destruct c; simpl in Hal; auto; lia.
    + destruct (lookup_lt_is_Some_2 (thr s) 0%nat) as [c Hc]; [lia|].
      exists 0%nat, c. split; [done|]. left.
      assert (Hwk : is_worker c = true) by (apply (Hkind _ _ Hc); lia).
      pose proof (Hst _ _ Hc) as Hlv.
      pose proof (total_ge asleep _ _ _ Hc) as Hge.
      destruct c; simpl in *; try done; lia.
Qed.

Lemma no_lost_wakeup_witness :
  ∃ s, run sleeper_signalled (boot 1 1) = Some s ∧
       front (queue (pool s)) = 100 ∧ thr s !! 0%nat = Some WWoken ∧
       ∃ t c, thr s !! t = Some c ∧ (awake c = true ∨ c = PSignal).
Proof.
  eexists. split; [vm_compute; reflexivity|]. split; [reflexivity|].
  split; [reflexivity|].
  match goal with
  | |- ∃ t c, thr ?s0 !! t = Some c ∧ _ =>
      destruct (no_lost_wakeup 1 1 sleeper_signalled s0) as [_ Hw]
  end.
  - vm_compute. reflexivity.
  - vm_compute. discriminate.
  - vm_compute. discriminate.
  - apply Hw. lia.
Defined.

(** *** Every submitted task is called *)

Lemma run_app (sched1 sched2 : list action) (s : cstate) :
  run (sched1 ++ sched2) s = s1 ← run sched1 s; run sched2 s1.
Proof.
  revert s. induction sched1 as [|a sched1 IH]; intros s; [done|].
  simpl. destruct (step a s) as [s1|]; [|done]. simpl. apply IH.
Qed.

Lemma pop_step (m : nat) (a : action) (s s' : cstate) :
  Inv m s → pop_ok s → step a s = Some s' → pop_ok s'.
Proof.
  intros (_ & Hp & (L1 & _) & _ & (l & Hrep & _)) Hw Hs Hk'.
  assert (Hstop : keep_running (pool s) ≠ 0 → stopped s = false).
  { intros Hne. unfold stopped. by rewrite bool_decide_eq_false. }
  assert (Hrun : keep_running (pool s) ≠ 0 → sd s = SIdle ∨ sd s = SFlag).
  { intros Hne. unfold phase_ok in Hp. destruct (sd s); naive_solver. }
  assert (Hex : ∀ t t' c c', thr s !! t = Some c → thr s !! t' = Some c' →
            holds c = true → holds c' = true → t = t').
  { intros t t' c c' Hc Hc' Hh Hh'.
    pose proof (L1 _ _ Hc Hh). pose proof (L1 _ _ Hc' Hh'). congruence. }
  destruct a as [t ch|t|t f x node|]; step_points Hs; simpl in *.
  all: try (specialize (Hrun Hk'); destruct Hrun; congruence).
  all: try (specialize (Hstop Hk'); congruence).
  all: try done.
  all: specialize (Hw Hk').
  all: try (intros k Hk; lookup_split; try done; eapply Hw; eauto; fail).
  all: intros k Hk; lookup_split;
    match goal with
    | Hne : ?t0 ≠ k |- _ => destruct Hne; eapply Hex; eauto
    end.
Qed.

(** While the pool runs, every step of a thread uses up some of the work
    that is left. *)
Lemma effort_step (m : nat) (t : nat) (ch : option nat) (s s' : cstate)
    (l : list item) :
  Inv m s → pop_ok s → keep_running (pool s) ≠ 0 →
  queue_repr (heap (mem s)) (queue (pool s)) l →
  step (Step t ch) s = Some s' →
  ∃ l', queue_repr (heap (mem s')) (queue (pool s')) l' ∧
        (work_left s' l' < work_left s l)%nat.
Proof.
  intros Hinv Hpop Hk Hrep Hs.
  destruct (step_change m _ s s' l Hinv Hrep Hs) as (l' & Hch & Hrep').
  exists l'. split; [done|]. unfold work_left.
  assert (Hstop : stopped s = false).
  { unfold stopped. by rewrite bool_decide_eq_false. }
  destruct Hch as [Hh Hq Hn Hu Hi Ha|k it l1 -> Ht Hthr Hh Hi Ha
    |k task nd Ht Hnd Hthr Hh Hq Hi Ha|k task Ht Hthr Hh Hq Hi Ha
    |k node nd Ht Hnd Hthr Hsame Hdom Hi Ha
    |k f y node Heq Hnn Hfresh Ht Hthr Hh Hq Hi
    |Heq Hsd Hsd' Hthr Hh Hi]; try done.
  - (* no node moves *)
    assert (total effort (thr s') < total effort (thr s))%nat; [|lia].
    clear Hrep'. simpl in Hs. step_points Hs; simpl in *; try congruence.
    all: try match goal with
      | Hl : thr ?s0 !! ?t0 = Some ?old
        |- context [total effort (<[?t0 := ?c]> (thr ?s0))] =>
          pose proof (total_insert effort (thr s0) t0 c old Hl) as Hti;
          simpl in Hti; rewrite ?decide_True in Hti by done;
          rewrite ?decide_False in Hti by done; lia
      end.
    + (* a dequeue moves a node *)
      exfalso.
      assert (Hz : z ≠ NULL).
      { assert (Hfr : front (queue (pool s)) ≠ NULL) by (by eapply Hpop).
        match goal with
        | Hq : queue_pop _ _ = Some _ |- _ =>
            unfold queue_pop in Hq; rewrite decide_False in Hq by done;
            destruct (heap (mem s) !! front (queue (pool s)));
            simplify_option_eq; done
        end. }
      match goal with
      | Hl : thr s !! ?t0 = Some WPop |- _ =>
          apply (f_equal (λ x, x !! t0)) in Hu;
          rewrite !list_lookup_fmap, Hl in Hu;
          rewrite list_lookup_insert_eq in Hu by (by eapply lookup_lt_Some)
      end.
      simpl in Hu. rewrite decide_False in Hu by done. done.
    + (* the signal wakes a sleeper *)
      match goal with
      | Hi : thr s !! ?i = Some WBlocked, Ht : thr s !! ?t0 = Some PSignal |- _ =>
          assert (Hne : i ≠ t0) by congruence;
          pose proof (total_insert2 effort (thr s) t0 i PUnlock PSignal WWoken
                        WBlocked Hi Ht Hne) as Hti
      end.
      simpl in Hti. lia.
    + match goal with
      | Hi : thr s !! ?i = Some WBlocked, Ht : thr s !! ?t0 = Some PSignal |- _ =>
          assert (Hne : i ≠ t0) by congruence;
          pose proof (total_insert2 effort (thr s) t0 i PUnlock PSignal WWoken
                        WBlocked Hi Ht Hne) as Hti
      end.
      simpl in Hti. lia.
  - rewrite Hthr. simpl.
    pose proof (total_insert effort (thr s) k (WUnlock (addr it)) WPop Ht) as Hti.
    simpl in Hti. rewrite decide_False in Hti; [lia|].
    destruct Hrep as ((Hf & Hnn & _) & _). congruence.
  - rewrite Hthr.
    pose proof (total_insert effort (thr s) k (WFree task) (WRun task) Ht) as Hti.
    simpl in Hti. lia.
  - rewrite Hthr.
    pose proof (total_insert effort (thr s) k WTop (WFree task) Ht) as Hti.
    simpl in Hti. lia.
  - rewrite Hthr, length_app.
    pose proof (total_insert effort (thr s) k PSignal (PLink node) Ht) as Hti.
    simpl in *. lia.
Qed.

Lemma thread_action_keeps (a : action) (s s' : cstate) :
  thread_action a → step a s = Some s' →
  keep_running (pool s') = keep_running (pool s) ∧ accepted_task a = None.
Proof.
  intros Ha Hs. destruct a as [t ch| | |]; try done. split; [|done].
  by destruct (others_leave_pool (Step t ch) s s' ltac:(done) Hs) as (_ & _ & ? & _).
Qed.

Lemma work_run (m : nat) (sched : list action) (s s' : cstate) (l : list item) :
  Inv m s → pop_ok s → keep_running (pool s) ≠ 0 →
  queue_repr (heap (mem s)) (queue (pool s)) l →
  Forall thread_action sched → run sched s = Some s' →
  ∃ l', queue_repr (heap (mem s')) (queue (pool s')) l' ∧
        (length sched + work_left s' l' ≤ work_left s l)%nat ∧
        keep_running (pool s') ≠ 0 ∧ accepted sched = [].
Proof.
  revert s l. induction sched as [|a sched IH];
    intros s l Hinv Hpop Hk Hrep Hact Hr.
  - simpl in Hr. simplify_eq. exists l. split; [done|].
    split; [simpl; lia|]. split; done.
  - apply Forall_cons in Hact as [Ha Hact].
    simpl in Hr. destruct (step a s) as [s1|] eqn:Hs; [|done]. simpl in Hr.
    destruct (thread_action_keeps a s s1 Ha Hs) as [Hk1 Hacc].
    destruct a as [t ch| | |]; try done.
    destruct (effort_step m t ch s s1 l Hinv Hpop Hk Hrep Hs) as (l1 & Hrep1 & Hlt).
    destruct (IH s1 l1) as (l' & Hrep' & Hle & Hk' & Hnone); try done.
    + by eapply inv_step.
    + by eapply pop_step.
    + congruence.
    + exists l'. split; [done|]. split; [simpl; lia|]. split; [done|].
      by rewrite accepted_cons, Hnone.
Qed.

Lemma rest_or_step (m : nat) (s : cstate) :
  Inv m s → keep_running (pool s) ≠ 0 →
  (∀ t c, thr s !! t = Some c → leaving c = false) →
  (∃ t choice s', step (Step t choice) s = Some s') ∨ at_rest s.
Proof.
  intros Hinv Hk Hst.
  pose proof Hinv as (_ & Hp & (L1 & L2 & L3 & L4) & _).
  assert (Hsd : sd s = SIdle ∨ sd s = SFlag).
  { unfold phase_ok in Hp. destruct (sd s); naive_solver. }
  destruct (mutex s) as [|[t|]|] eqn:Hm.
  - destruct (decide (Forall (λ c, rests c = true) (thr s))) as [Hall|Hex].
    + right. intros t c Hc. rewrite Forall_forall in Hall.
      assert (Hr : rests c = true)
        by (apply Hall; by eapply list_elem_of_lookup_2).
      specialize (Hst t c Hc). destruct c; simpl in *; try done; auto.
    + left. apply not_Forall_Exists in Hex; [|apply _].
      apply Exists_exists in Hex as (c & Hin & Hr).
      apply list_elem_of_lookup in Hin as [t Hc].
      assert (Hmv : can_move c s).
      { clear -Hm Hr. destruct c; simpl in *; try done; by destruct Hr. }
      destruct (can_move_step m s t c Hinv Hc Hmv) as (ch & s' & Hs). eauto.
  - left. destruct (L2 t eq_refl) as (c & Hc & Hh).
    assert (Hmv : can_move c s) by (clear -Hh; by destruct c).
    destruct (can_move_step m s t c Hinv Hc Hmv) as (ch & s' & Hs). eauto.
  - assert (Hb : sd s = SBroadcast ∨ sd s = SUnlock) by (by apply L3).
    destruct Hsd, Hb; congruence.
  - specialize (L4 eq_refl). destruct Hsd; congruence.
Qed.

(** X23.  Every submitted task is called.  Take any reachable state of a
    running pool with at least one worker, and let only the workers and the
    submissions under way take steps (no new submission, no wake-up without
    a signal, no shutdown).  However the steps are interleaved, their number
    is bounded by the work left in the state; and whenever no thread can
    take a step, every worker sleeps in [platform_cond_wait], the queue is
    empty and the task bodies entered are exactly the submissions for which
    [queue_push] got a node. *)
Theorem submitted_tasks_all_run (m np : nat) (pre : list action) (s : cstate) :
  run pre (boot m np) = Some s → keep_running (pool s) ≠ 0 → (0 < m)%nat →
  ∃ l, queue_repr (heap (mem s)) (queue (pool s)) l ∧
    ∀ sched s', Forall thread_action sched → run sched s = Some s' →
      (length sched ≤ work_left s l)%nat ∧
      ((∃ t choice s'', step (Step t choice) s' = Some s'') ∨
       (at_rest s' ∧
        queue (pool s') = {| front := NULL; rear := NULL |} ∧
        invoked_tasks (trace (mem s')) ≡ₚ accepted pre)).
Proof.
  intros Hr Hk Hm.
  pose proof (reachable_inv _ _ _ _ Hr) as Hinv.
  assert (Hpop0 : ∀ sched s1, run sched (boot m np) = Some s1 → pop_ok s1).
  { intros sched.
    assert (Hgen : ∀ s0 s1, Inv m s0 → pop_ok s0 → run sched s0 = Some s1 →
                             pop_ok s1).
    { induction sched as [|a sched IH]; intros s0 s1 Hi Hp Hrun; simpl in Hrun.
      - by simplify_eq.
      - destruct (step a s0) as [s2|] eqn:Hs; [|done]. simpl in Hrun.
        apply (IH s2 s1); [by eapply inv_step|by eapply pop_step|done]. }
    intros s1 Hrun. apply (Hgen (boot m np) s1 (inv_boot m np)); [|done].
    intros _ t Ht. apply boot_thr_lookup in Ht as [[_ ?]|[_ ?]]; done. }
  destruct Hinv as (Hkinds & Hph & Hlk & Hsl & (l & Hrep & Hown)).
  exists l. split; [done|]. intros sched s' Hact Hrun.
  assert (Hinv : Inv m s) by (by eapply reachable_inv).
  destruct (work_run m sched s s' l Hinv (Hpop0 pre s Hr) Hk Hrep Hact Hrun)
    as (l' & Hrep' & Hle & Hk' & Hnone).
  split; [lia|].
  assert (Hr' : run (pre ++ sched) (boot m np) = Some s').
  { rewrite run_app, Hr. done. }
  pose proof (reachable_inv _ _ _ _ Hr') as Hinv'.
  destruct (reachable_stay _ _ _ _ Hr') as [_ Hst]. specialize (Hst Hk').
  destruct (rest_or_step m s' Hinv' Hk' Hst) as [Hstep|Hrest]; [by left|].
  right. split; [done|].
  assert (Hw : wakeup_ok s').
  { apply (wakeup_run m (pre ++ sched) (boot m np)); [apply inv_boot| |done].
    intros _. split; [|by rewrite boot_pool].
    intros t c Hc Hcw. apply boot_thr_lookup in Hc as [[_ ->]|[_ ->]];
      by destruct Hcw. }
  destruct (Hw Hk') as [_ B].
  assert (Hf : front (queue (pool s')) = NULL).
  { destruct (decide (front (queue (pool s')) = NULL)) as [|Hf]; [done|].
    exfalso. destruct Hinv' as ((Hlen & Hkind) & _).
    destruct (lookup_lt_is_Some_2 (thr s') 0%nat) as [c Hc]; [lia|].
    assert (Hwk : is_worker c = true) by (apply (Hkind _ _ Hc); lia).
    assert (c = WBlocked) as ->.
    { destruct (Hrest _ _ Hc) as [->| ->]; done. }
    pose proof (total_ge asleep _ _ _ Hc) as Hge. simpl in Hge.
    assert (Hal : (0 < total alert (thr s'))%nat) by (apply B; [done|lia]).
    apply total_pos in Hal as (k & c' & Hc' & Hpos).
    destruct (Hrest _ _ Hc') as [->| ->]; simpl in Hpos; lia. }
  assert (l' = []) as ->.
  { destruct Hrep' as (Hc & _). rewrite Hf in Hc. by eapply chain_null. }
  split.
  - apply queue_repr_nil_iff in Hrep' as [? ?].
    destruct (queue (pool s')). simpl in *. by subst.
  - destruct (tasks_run m (pre ++ sched) (boot m np) s' [] (inv_boot m np))
      as (l1 & Hrep1 & _ & Heq); [|done|].
    { rewrite boot_pool. by apply queue_repr_nil_iff. }
    assert (l1 = []) as ->.
    { destruct Hrep1 as (Hc & _). rewrite Hf in Hc. by eapply chain_null. }
    rewrite boot_tasks in Heq. simpl in Heq.
    assert (Hsd : sd s' ≠ SReturned).
    { destruct Hinv' as (_ & Hp' & _). unfold phase_ok in Hp'.
      intros Hsd. rewrite Hsd in Hp'. by destruct Hp'. }
    specialize (Heq Hsd). unfold accepted in Heq. rewrite omap_app in Heq.
    fold (accepted pre) in Heq. fold (accepted sched) in Heq.
    rewrite Hnone, app_nil_r in Heq. rewrite <- Heq. unfold tasks.
    assert (Hn : ∀ ths, (∀ t c, ths !! t = Some c → c = WBlocked ∨ c = PIdle) →
                   in_hand (heap (mem s')) ths = []).
    { induction ths as [|c ths IH]; intros Hall; [done|]. simpl.
      rewrite IH by (intros t c0 Hc0; apply (Hall (S t) c0 Hc0)).
      destruct (Hall 0%nat c eq_refl) as [->| ->]; done. }
    rewrite (Hn _ Hrest). unfold queued. simpl. by rewrite app_nil_r.
Qed.

Lemma submitted_tasks_all_run_witness :
  ∃ s l, run two_submissions (boot 2 1) = Some s ∧
    queue_repr (heap (mem s)) (queue (pool s)) l ∧
    ∀ sched s', Forall thread_action sched → run sched s = Some s' →
      (length sched ≤ work_left s l)%nat.
Proof.
  destruct (run two_submissions (boot 2 1)) as [s|] eqn:Hs;
    [|vm_compute in Hs; discriminate Hs].
  destruct (submitted_tasks_all_run 2 1 two_submissions s Hs) as (l & Hrep & Hall).
  - vm_compute in Hs. injection Hs as <-. vm_compute. discriminate.
  - lia.
  - exists s, l. split; [reflexivity|]. split; [exact Hrep|].
    intros sched s' Hact Hrun. exact (proj1 (Hall sched s' Hact Hrun)).
Defined.

(** ** The sleep wrapper: where the two branches agree *)

(** X16.  For a duration that fits [unsigned int], the POSIX branch asks
    [usleep] for exactly [1000 * ms] microseconds if and only if [ms] is at
    most 4294967; for every longer duration it asks for less.  The argument
    never exceeds the duration, so the POSIX branch never sleeps longer than
    the Windows branch, which passes [ms] on as it is. *)
Theorem platform_sleep_ms_exact_iff (ms : Z) (w : world) :
  0 ≤ ms < 2 ^ UINT_WIDTH →
  (usleep_arg ms = 1000 * ms ↔ ms ≤ 4294967) ∧
  0 ≤ usleep_arg ms ≤ 1000 * ms ∧ usleep_arg ms < 2 ^ UINT_WIDTH ∧
  trace (platform_sleep_ms ms w) = trace w ++ [Platform (Usleep (usleep_arg ms))] ∧
  trace (platform_sleep_ms_win ms w) = trace w ++ [Platform (WinSleep ms)] ∧
  heap (platform_sleep_ms ms w) = heap w.
Proof.
  intros Hms. split; [|split; [|split]].
  - split.
    + intros Heq. destruct (decide (ms ≤ 4294967)) as [|Hgt]; [done|].
      pose proof (usleep_arg_short ms). lia.
    + intros Hle. apply usleep_arg_exact. lia.
  - unfold usleep_arg, uint_mul, UINT_WIDTH in *.
    pose proof (Z.mod_pos_bound (ms * 1000) (2 ^ 32)).
    pose proof (Z.mod_le (ms * 1000) (2 ^ 32)). lia.
  - unfold usleep_arg, uint_mul.
    apply Z.mod_pos_bound. unfold UINT_WIDTH. lia.
  - done.
Qed.

Lemma platform_sleep_ms_exact_iff_witness :
  usleep_arg 500 = 1000 * 500 ↔ 500 ≤ 4294967.
Proof.
  apply (platform_sleep_ms_exact_iff 500 (World ∅ [])).
  unfold UINT_WIDTH. lia.
Defined.

(** ** disable_quick_edit.c *)

Lemma clear_quick_edit_bits (mode : Z) (i : Z) :
  0 ≤ i →
  Z.testbit (clear_quick_edit mode) i
  = if decide (i = 6) then false else Z.testbit mode i.
Proof.
  intros Hi. unfold clear_quick_edit, ENABLE_QUICK_EDIT_MODE.
  rewrite Z.land_spec, Z.lnot_spec by done.
  change 64 with (2 ^ 6). rewrite Z.pow2_bits_eqb by lia.
  destruct (decide (i = 6)) as [->|Hne].
  - simpl. apply andb_false_r.
  - rewrite (proj2 (Z.eqb_neq 6 i)) by lia. simpl. apply andb_true_r.
Qed.

(** X17.  [mode &= ~ENABLE_QUICK_EDIT_MODE] on a 32-bit mode: bit 6 (0x40)
    of the result is clear and every other bit is the bit of [mode]; the
    result is again a 32-bit value, it is [mode] itself when the flag was
    not set and [mode - 0x40] when it was, and doing it twice changes
    nothing more. *)
Theorem clear_quick_edit_spec (mode : Z) :
  0 ≤ mode < 2 ^ DWORD_WIDTH →
  (∀ i, 0 ≤ i → Z.testbit (clear_quick_edit mode) i
                = if decide (i = 6) then false else Z.testbit mode i) ∧
  0 ≤ clear_quick_edit mode < 2 ^ DWORD_WIDTH ∧
  clear_quick_edit mode
    = (if Z.testbit mode 6 then mode - ENABLE_QUICK_EDIT_MODE else mode) ∧
  Z.land (clear_quick_edit mode) ENABLE_QUICK_EDIT_MODE = 0 ∧
  clear_quick_edit (clear_quick_edit mode) = clear_quick_edit mode.
Proof.
  intros Hm.
  assert (Hval : clear_quick_edit mode
                 = if Z.testbit mode 6 then mode - ENABLE_QUICK_EDIT_MODE else mode).
  { destruct (Z.testbit mode 6) eqn:Hb.
    - unfold clear_quick_edit. rewrite <- Z.ldiff_land.
      symmetry. apply Z.sub_nocarry_ldiff.
      apply Z.bits_inj'. intros i Hi. rewrite Z.ldiff_spec, Z.bits_0.
      unfold ENABLE_QUICK_EDIT_MODE. change 64 with (2 ^ 6).
      rewrite Z.pow2_bits_eqb by lia.
      destruct (Z.eqb_spec 6 i) as [<-|Hne]; [by rewrite Hb|done].
    - apply Z.bits_inj'. intros i Hi. rewrite clear_quick_edit_bits by done.
      destruct (decide (i = 6)) as [->|Hne]; done. }
  split; [intros i Hi; by apply clear_quick_edit_bits|].
  split; [|split; [done|split]].
  - rewrite Hval. unfold ENABLE_QUICK_EDIT_MODE, DWORD_WIDTH in *.
    destruct (Z.testbit mode 6) eqn:Hb; [|lia].
    assert (64 ≤ mode); [|lia].
    destruct (decide (64 ≤ mode)) as [|Hlt]; [done|].
    rewrite (Z.bits_above_log2 mode 6) in Hb; [done|lia|].
    destruct (decide (mode = 0)) as [->|Hnz]; [simpl; lia|].
    apply Z.log2_lt_pow2; lia.
  - apply Z.bits_inj'. intros i Hi.
    rewrite Z.land_spec, clear_quick_edit_bits, Z.bits_0 by done.
    unfold ENABLE_QUICK_EDIT_MODE. change 64 with (2 ^ 6).
    rewrite Z.pow2_bits_eqb by lia.
    destruct (decide (i = 6)) as [->|Hne]; [done|].
    rewrite (proj2 (Z.eqb_neq 6 i)) by lia. apply andb_false_r.
  - apply Z.bits_inj'. intros i Hi. rewrite !clear_quick_edit_bits by done.
    by destruct (decide (i = 6)).
Qed.

Lemma clear_quick_edit_spec_witness :
  clear_quick_edit 0x1F7 = 0x1B7 ∧ 0 ≤ clear_quick_edit 0x1F7 < 2 ^ DWORD_WIDTH.
Proof.
  destruct (clear_quick_edit_spec 0x1F7) as (_ & Hr & Hv & _).
  - unfold DWORD_WIDTH. lia.
  - split; [exact Hv|exact Hr].
Defined.

(** X18.  [disable_quick_edit_mode] calls [SetConsoleMode] at most once,
    exactly when [GetStdHandle] gave a handle other than
    [INVALID_HANDLE_VALUE] and [GetConsoleMode] succeeded, on that handle
    and with the mode just read less the quick-edit flag; it writes one
    diagnostic when one of the three calls fails and none otherwise. *)
Theorem disable_quick_edit_mode_calls (hInput : Z) (got : option Z)
    (set_ok : bool) :
  set_modes (disable_quick_edit_mode hInput got set_ok)
    = (if decide (hInput = INVALID_HANDLE_VALUE) then []
       else match got with
            | Some mode => [(hInput, clear_quick_edit mode)]
            | None => []
            end) ∧
  (∀ hd mode', (hd, mode') ∈ set_modes (disable_quick_edit_mode hInput got set_ok) →
     hd = hInput ∧ Z.testbit mode' 6 = false) ∧
  length (console_errors (disable_quick_edit_mode hInput got set_ok))
    = (if decide (hInput ≠ INVALID_HANDLE_VALUE ∧ is_Some got ∧ set_ok = true)
       then 0%nat else 1%nat).
Proof.
  unfold disable_quick_edit_mode.
  destruct (decide (hInput = INVALID_HANDLE_VALUE)) as [Hh|Hh].
  - split; [done|]. split.
    + intros hd mode' Hin. by apply elem_of_nil in Hin.
    + rewrite decide_False; [done|]. by intros [? _].
  - destruct got as [mode|].
    + split; [by destruct set_ok|]. split.
      * intros hd mode' Hin.
        assert (Hin' : (hd, mode') ∈ [(hInput, clear_quick_edit mode)])
          by (by destruct set_ok).
        apply list_elem_of_singleton in Hin'. injection Hin' as -> ->.
        split; [done|]. by rewrite clear_quick_edit_bits.
      * destruct set_ok.
        -- rewrite decide_True; [done|]. split; [done|]. split; [by eexists|done].
        -- rewrite decide_False; [done|]. by intros (_ & _ & ?).
    + split; [done|]. split.
      * intros hd mode' Hin. by apply elem_of_nil in Hin.
      * rewrite decide_False; [done|]. intros (_ & [? ?] & _). done.
Qed.

(** ** main.c *)

Lemma run_bodies_none (tr : list event) (st : main_state) :
  invoked_tasks tr = [] → run_bodies tr st = Some st.
Proof.
  induction tr as [|e tr IH]; [done|]. intros Hi.
  destruct e; simpl in *; try by apply IH. done.
Qed.

Lemma null_in_passes (p : Z) (done : list event) (its : list (Z * list event)) :
  p ≠ NULL → (NULL ∈ ((p, done) :: its).*1 ↔ NULL ∈ its.*1).
Proof.
  intros Hp. rewrite fmap_cons, elem_of_cons. simpl. naive_solver.
Qed.

Lemma main_loop_quiet (its : list (Z * list event)) (counter : Z)
    (st : main_state) :
  Forall (λ it, invoked_tasks it.2 = []) its →
  0 ≤ counter → counter + Z.of_nat (length its) ≤ INT_MAX →
  ∃ st' tr, main_loop its counter st = Some st' ∧ out st' = out st ++ tr ∧
    submitted tr = (λ p, (EXAMPLE_TASK, p)) <$> allocated its ∧
    main_stdout tr
      = enqueued_line <$> seqZ counter (Z.of_nat (length (allocated its))) ∧
    main_stderr tr
      = (if decide (NULL ∈ its.*1)
         then ["Failed to allocate task ID." +:+ nl] else []) ∧
    PoolShutdown ∉ tr.
Proof.
  revert counter st. induction its as [|[p done] its IH]; intros counter st Hq Hc Hlen.
  - exists st, []. rewrite app_nil_r. repeat (split; [done|]).
    apply not_elem_of_nil.
  - apply Forall_cons in Hq as [Hd Hq]. simpl in Hd.
    destruct (decide (p = NULL)) as [->|Hp].
    + rewrite (decide_True (P := NULL ∈ ((NULL, done) :: its).*1))
        by (apply elem_of_cons; by left).
      eexists _, [MainStderr ("Failed to allocate task ID." +:+ nl)].
      split; [done|]. repeat (split; [done|]).
      intros Hin. apply list_elem_of_singleton in Hin. done.
    + rewrite (decide_ext _ _ _ _ (null_in_passes p done its Hp)).
      cbn [main_loop allocated]. rewrite !(decide_False (P := p = NULL)) by done.
      simpl in Hlen. rewrite decide_False by lia. cbn zeta.
      rewrite (run_bodies_none done _ Hd). cbn [mbind option_bind].
      unfold print_enqueued. cbn [print ids]. rewrite lookup_insert_eq.
      cbn [mbind option_bind].
      match goal with
      | |- ∃ st' tr, main_loop its (counter + 1) ?st0 = _ ∧ _ =>
          destruct (IH (counter + 1) st0 Hq)
            as (st' & tr & Hl & Hout & Hs & Ho & He & Hn); [lia|lia|]
      end.
      exists st', ([PoolAddTask EXAMPLE_TASK p; Stdout (enqueued_line counter);
                    SleepMs 500] ++ tr).
      split; [done|]. split.
      { rewrite Hout. simpl. rewrite <- !app_assoc. done. }
      split; [|split; [|split]].
      * cbn. by rewrite <- Hs.
      * change (length (p :: allocated its)) with (S (length (allocated its))).
        rewrite (seqZ_cons counter) by lia.
        replace (Z.succ counter) with (counter + 1) by lia.
        replace (Z.pred (Z.of_nat (S (length (allocated its)))))
          with (Z.of_nat (length (allocated its))) by lia.
        cbn. by rewrite <- Ho.
      * cbn. by rewrite <- He.
      * intros Hin. apply elem_of_app in Hin as [Hin|Hin]; [|done].
        repeat (apply elem_of_cons in Hin as [Hin|Hin]; [done|]).
        by apply elem_of_nil in Hin.
Qed.

(** X19.  [main], in the runs in which no task body completes between the
    return of [thread_pool_add_task] and the [printf] that follows it.  The
    program returns; it hands [example_task] to the pool once per pass, with
    the cell that [malloc] gave, and the ids it announces are 0, 1, 2, ...
    in order; a failed [malloc] ends the loop with one diagnostic; and in
    every case [thread_pool_shutdown] is called exactly once, after the last
    submission and before the last line. *)
Theorem main_protocol (its : list (Z * list event)) :
  Forall (λ it, invoked_tasks it.2 = []) its →
  Z.of_nat (length its) ≤ INT_MAX →
  ∃ st tr, main its = Some st ∧
    out st = [SignalInstall; PoolInit 4] ++ tr ++
             [PoolShutdown;
              Stdout ("[Main] All threads shut down, exiting." +:+ nl)] ∧
    (PoolShutdown ∉ tr) ∧
    submitted tr = (λ p, (EXAMPLE_TASK, p)) <$> allocated its ∧
    main_stdout tr
      = enqueued_line <$> seqZ 0 (Z.of_nat (length (allocated its))) ∧
    main_stderr tr
      = (if decide (NULL ∈ its.*1)
         then ["Failed to allocate task ID." +:+ nl] else []).
Proof.
  intros Hq Hlen. unfold main.
  destruct (main_loop_quiet its 0
              (print (PoolInit 4) (print SignalInstall (MainState ∅ []))) Hq)
    as (st' & tr & -> & Hout & Hs & Ho & He & Hn); [lia|lia|].
  eexists _, tr. split; [done|]. cbn [print out mbind option_bind].
  rewrite Hout. cbn [print out]. split; [by rewrite <- !app_assoc|]. done.
Qed.

Lemma main_protocol_witness :
  ∃ st tr, main [(500, []); (600, []); (NULL, [])] = Some st ∧
    out st = [SignalInstall; PoolInit 4] ++ tr ++
             [PoolShutdown;
              Stdout ("[Main] All threads shut down, exiting." +:+ nl)] ∧
    (PoolShutdown ∉ tr) ∧
    submitted tr = [(EXAMPLE_TASK, 500); (EXAMPLE_TASK, 600)].
Proof.
  destruct (main_protocol [(500, []); (600, []); (NULL, [])])
    as (st & tr & Hm & Hout & Hn & Hs & _).
  - repeat constructor.
  - vm_compute. discriminate.
  - exists st, tr. split; [exact Hm|]. split; [exact Hout|].
    split; [exact Hn|exact Hs].
Defined.

(** X20.  In [main] the id cell is read (line 62) after the pointer has been
    handed to the pool.  There is an interleaving in which, by the time
    [thread_pool_add_task] has returned, a worker has dequeued the task and
    called [example_task], which frees the cell: the read at line 62 is then
    a read of freed memory, and the first pass of the loop has no defined
    behaviour. *)
Theorem main_reads_freed_id :
  ∃ s st, run early_task_run (boot 4 1) = Some s ∧
    thr s !! 4%nat = Some PIdle ∧
    accepted early_task_run = [(EXAMPLE_TASK, 500)] ∧
    invoked_tasks (trace (mem s)) = [(EXAMPLE_TASK, 500)] ∧
    run_bodies (trace (mem s))
      {| ids := {[ 500 := 0 ]};
         out := [SignalInstall; PoolInit 4; PoolAddTask EXAMPLE_TASK 500] |}
      = Some st ∧
    ids st !! 500 = None ∧
    print_enqueued 500 st = None ∧
    main [(500, trace (mem s))] = None.
Proof.
  eexists _, _. split; [vm_compute; reflexivity|].
  split; [reflexivity|]. split; [reflexivity|]. split; [reflexivity|].
  split; [vm_compute; reflexivity|].
  split; [reflexivity|]. split; [reflexivity|]. vm_compute. reflexivity.
Qed.

(** ** endian.c *)

(** X21.  The four fields of [struct BitFields] occupy disjoint bits of the
    32-bit word that [print_struct_details] reads through the union:
    [msg_type] bits 0-3, [msg_source] bits 4-7, [counter] bits 8-15 and
    [length] bits 16-31.  The word fits 32 bits, each field is recovered
    from it, and two structures with the same word are equal. *)
Theorem bitfields_word_round_trip (bf : Endian.BitFields) :
  Endian.fits bf →
  0 ≤ Endian.value bf < 2 ^ 32 ∧
  Endian.value bf mod 16 = Endian.msg_type bf ∧
  (Endian.value bf / 16) mod 16 = Endian.msg_source bf ∧
  (Endian.value bf / 256) mod 256 = Endian.counter bf ∧
  Endian.value bf / 65536 = Endian.length bf ∧
  (∀ i b, Endian.bytes bf !! i = Some b →
     Endian.byte_of (Endian.value bf) (Z.of_nat i) = b) ∧
  (∀ bf', Endian.fits bf' → Endian.value bf' = Endian.value bf → bf' = bf).
Proof.
  intros (Ht & Hs & Hc & Hl).
  assert (Hv : ∀ b : Endian.BitFields, Endian.value b
    = Endian.msg_type b + 16 * Endian.msg_source b + 256 * Endian.counter b
      + 65536 * Endian.length b).
  { intros b. unfold Endian.value, Endian.bytes, Endian.word_of. simpl.
    pose proof (Z.div_mod (Endian.length b) 256). lia. }
  rewrite Hv. split; [lia|].
  split; [Z.div_mod_to_equations; lia|].
  split; [Z.div_mod_to_equations; lia|].
  split; [Z.div_mod_to_equations; lia|].
  split; [Z.div_mod_to_equations; lia|].
  split.
  - intros i b Hb. unfold Endian.byte_of.
    destruct i as [|[|[|[|i]]]]; simpl in Hb; simplify_eq.
    + change (256 ^ Z.of_nat 0) with 1. Z.div_mod_to_equations. lia.
    + change (256 ^ Z.of_nat 1) with 256. Z.div_mod_to_equations. lia.
    + change (256 ^ Z.of_nat 2) with 65536. Z.div_mod_to_equations. lia.
    + change (256 ^ Z.of_nat 3) with 16777216. Z.div_mod_to_equations. lia.
  - intros bf' (Ht' & Hs' & Hc' & Hl') Heq. rewrite Hv in Heq.
    destruct bf as [t s c l], bf' as [t' s' c' l']. simpl in *.
    assert (t' = t ∧ s' = s ∧ c' = c ∧ l' = l) as (-> & -> & -> & ->) by lia.
    done.
Qed.

Lemma bitfields_word_round_trip_witness :
  0 ≤ Endian.value Endian.bf1 < 2 ^ 32 ∧
  Endian.value Endian.bf1 mod 16 = 3.
Proof.
  destruct (bitfields_word_round_trip Endian.bf1) as (Hr & Ht & _).
  - unfold Endian.fits. simpl. lia.
  - split; [exact Hr|exact Ht].
Defined.

(** X22.  The network value printed by [print_struct_details] has the byte
    at the lowest address as its most significant byte: byte [i] of
    [htonl(value)] is byte [3 - i] of the structure; it fits 32 bits, and
    [htonl] applied twice gives the word back. *)
Theorem network_order_reverses_bytes (v : Z) :
  0 ≤ v < 2 ^ 32 →
  0 ≤ Endian.htonl v < 2 ^ 32 ∧
  (∀ i, 0 ≤ i ≤ 3 →
     Endian.byte_of (Endian.htonl v) i = Endian.byte_of v (3 - i)) ∧
  Endian.htonl (Endian.htonl v) = v.
Proof.
  intros Hv.
  assert (Hb : ∀ w, 0 ≤ w < 2 ^ 32 →
    0 ≤ Endian.htonl w < 2 ^ 32 ∧
    Endian.byte_of (Endian.htonl w) 0 = Endian.byte_of w 3 ∧
    Endian.byte_of (Endian.htonl w) 1 = Endian.byte_of w 2 ∧
    Endian.byte_of (Endian.htonl w) 2 = Endian.byte_of w 1 ∧
    Endian.byte_of (Endian.htonl w) 3 = Endian.byte_of w 0 ∧
    w = Endian.word_of [Endian.byte_of w 0; Endian.byte_of w 1;
                        Endian.byte_of w 2; Endian.byte_of w 3]).
  { intros w Hw. unfold Endian.htonl, Endian.word_of, Endian.byte_of. simpl.
    change (256 ^ 0) with 1. change (256 ^ 1) with 256.
    change (256 ^ 2) with 65536. change (256 ^ 3) with 16777216.
    repeat split; Z.div_mod_to_equations; lia. }
  destruct (Hb v Hv) as (Hr & H0 & H1 & H2 & H3 & Hw).
  split; [done|]. split.
  - intros i Hi.
    assert (i = 0 ∨ i = 1 ∨ i = 2 ∨ i = 3) as [->|[->|[->| ->]]] by lia; done.
  - destruct (Hb (Endian.htonl v) Hr) as (_ & _ & _ & _ & _ & Hw').
    unfold Endian.htonl at 1. rewrite H0, H1, H2, H3. by rewrite <- Hw.
Qed.

Lemma network_order_reverses_bytes_witness :
  Endian.htonl (Endian.htonl 0xABCD7863) = 0xABCD7863.
Proof.
  apply (network_order_reverses_bytes 0xABCD7863). lia.
Defined.

(** The values that the program prints are those of the expected output
    recorded in the file. *)
Example endian_expected_output :
  Endian.main =
    ["=== Test 1: All fields set ===" +:+ nl;
     "32-bit value: 0xABCD7863" +:+ nl;
     "Bytes in memory (left to right, low to high address):" +:+ nl;
     "Byte 0: 0x63" +:+ nl; "Byte 1: 0x78" +:+ nl;
     "Byte 2: 0xCD" +:+ nl; "Byte 3: 0xAB" +:+ nl;
     "Network byte order (big endian): 0x6378CDAB" +:+ nl; nl;
     "=== Test 2: Only msg_type=0xF ===" +:+ nl;
     "32-bit value: 0x0000000F" +:+ nl;
     "Bytes in memory (left to right, low to high address):" +:+ nl;
     "Byte 0: 0x0F" +:+ nl; "Byte 1: 0x00" +:+ nl;
     "Byte 2: 0x00" +:+ nl; "Byte 3: 0x00" +:+ nl;
     "Network byte order (big endian): 0x0F000000" +:+ nl; nl].
Proof. by vm_compute. Qed.

(** ** zip_logs.c *)

Lemma compress_loop_writes (reads : list (list Byte.byte)) (wr : nat → Z)
    (name : string) (i : nat) :
  gz_written (compress_loop i reads wr name) `prefix_of` delivered reads ∧
  removed (compress_loop i reads wr name) = [] ∧
  fcloses (compress_loop i reads wr name) = 0%nat ∧
  gzcloses (compress_loop i reads wr name) = 0%nat ∧
  sleeps (compress_loop i reads wr name) = [].
Proof.
  revert i. induction reads as [|buf rest IH]; intros i; simpl; [done|].
  destruct (decide (length buf = 0%nat)) as [Hz|Hz]; [done|].
  destruct (IH (S i)) as (Hpre & Hrm & Hfc & Hgc & Hsl).
  destruct (decide (wr i = Z.of_nat (length buf))) as [Hw|Hw].
  - split; [|done]. unfold gz_written in *. simpl. by apply prefix_cons.
  - split; [|done]. unfold gz_written. simpl. apply prefix_cons, prefix_nil.
Qed.

Lemma compress_loop_complete (reads : list (list Byte.byte)) (wr : nat → Z)
    (name : string) (i : nat) :
  (∀ k buf, delivered reads !! k = Some buf →
     wr (i + k)%nat = Z.of_nat (length buf)) →
  compress_loop i reads wr name = Gzwrite <$> delivered reads.
Proof.
  revert i. induction reads as [|buf rest IH]; intros i Hok; simpl; [done|].
  simpl in Hok.
  destruct (decide (length buf = 0%nat)) as [Hz|Hz]; [done|].
  rewrite decide_True.
  - simpl. f_equal. apply IH. intros k b Hk.
    replace (S i + k)%nat with (i + S k)%nat by lia. by apply Hok.
  - replace i with (i + 0)%nat at 1 by lia. by apply Hok.
Qed.

Lemma compress_loop_short (reads : list (list Byte.byte)) (wr : nat → Z)
    (name : string) (i k : nat) (buf : list Byte.byte) :
  delivered reads !! k = Some buf →
  wr (i + k)%nat ≠ Z.of_nat (length buf) →
  (∀ j b, (j < k)%nat → delivered reads !! j = Some b →
     wr (i + j)%nat = Z.of_nat (length b)) →
  compress_loop i reads wr name =
    (Gzwrite <$> take (S k) (delivered reads)) ++
    [Logged LOG_ERROR ("Error writing compressed log: " +:+ name)].
Proof.
  revert i k. induction reads as [|b0 rest IH]; intros i k Hk Hw Hok; simpl in *;
    [done|].
  destruct (decide (length b0 = 0%nat)) as [Hz|Hz]; [done|].
  destruct k as [|k]; simpl in *.
  - injection Hk as ->. rewrite decide_False.
    + by destruct (delivered rest).
    + by replace (i + 0)%nat with i in Hw by lia.
  - rewrite decide_True.
    + simpl. f_equal. apply (IH (S i) k); [done| |].
      * by replace (S i + k)%nat with (i + S k)%nat by lia.
      * intros j b Hj Hb. replace (S i + j)%nat with (i + S j)%nat by lia.
        apply Hok; [lia|done].
    + replace i with (i + 0)%nat at 1 by lia. apply Hok; [lia|done].
Qed.

Lemma gz_written_fmap (bufs : list (list Byte.byte)) :
  gz_written (Gzwrite <$> bufs) = bufs.
Proof.
  induction bufs as [|b bufs IH]; [done|].
  unfold gz_written in *. simpl. f_equal. apply IH.
Qed.

Lemma compress_pass_counts (p : pass) :
  removed (compress_pass p) = option_list (both_opened p) ∧
  fcloses (compress_pass p) = length (option_list (fopened p)) ∧
  gzcloses (compress_pass p) = length (option_list (both_opened p)) ∧
  sleeps (compress_pass p) =
    match popped p with Some _ => [] | None => [500] end.
Proof.
  unfold compress_pass, both_opened, fopened.
  destruct (popped p) as [name|]; [|done].
  destruct (file p) as [reads|]; [|done].
  destruct (gz_ok p); [|done].
  destruct (compress_loop_writes reads (written p) (compressed_name name) 0)
    as (_ & Hrm & Hfc & Hgc & Hsl).
  unfold removed, fcloses, gzcloses, sleeps in *. simpl.
  rewrite !omap_app, !length_app, Hrm, Hsl, Hfc, Hgc.
  by destruct (remove_ok p).
Qed.

(** X24.  One pass of [log_compression_thread] once both files are open:
    the buffers handed to [gzwrite] are, in order, an initial part of what
    [fread] delivers before it returns 0, and all of it when every
    [gzwrite] returns the number of bytes it was given. *)
Theorem compress_pass_writes_in_order (p : pass) (name : string)
    (reads : list (list Byte.byte)) :
  popped p = Some name → file p = Some reads → gz_ok p = true →
  gz_written (compress_pass p) `prefix_of` delivered reads ∧
  ((∀ k buf, delivered reads !! k = Some buf →
      written p k = Z.of_nat (length buf)) →
   gz_written (compress_pass p) = delivered reads).
Proof.
  intros Hp Hf Hg. unfold compress_pass. rewrite Hp, Hf, Hg.
  assert (Hgz : ∀ l, gz_written
            (Logged LOG_INFO ("Compressing log: " +:+ name) :: Fopen name ::
             Gzopen (compressed_name name) ::
             l ++ [Fclose; Gzclose; Remove name;
                   if remove_ok p
                   then Logged LOG_INFO
                          ("Log file compressed and deleted: " +:+ name)
                   else Logged LOG_ERROR
                          ("Failed to delete original log: " +:+ name)]) =
            gz_written l).
  { intros l. unfold gz_written. simpl. rewrite omap_app. simpl.
    destruct (remove_ok p); simpl; by rewrite app_nil_r. }
  rewrite Hgz. split.
  - apply compress_loop_writes.
  - intros Hok. rewrite compress_loop_complete by (intros k b Hk; by apply Hok).
    apply gz_written_fmap.
Qed.

Lemma compress_pass_writes_in_order_witness :
  gz_written (compress_pass short_write) `prefix_of`
    delivered [[Byte.x01; Byte.x02]; [Byte.x03]; [Byte.x04]] ∧
  ((∀ k buf, delivered [[Byte.x01; Byte.x02]; [Byte.x03]; [Byte.x04]] !! k
             = Some buf →
      written short_write k = Z.of_nat (length buf)) →
   gz_written (compress_pass short_write) =
     delivered [[Byte.x01; Byte.x02]; [Byte.x03]; [Byte.x04]]).
Proof.
  apply (compress_pass_writes_in_order short_write "app.log"); reflexivity.
Defined.

(** X25.  A pass in which a [gzwrite] returns something else than the number
    of bytes it was given, the earlier ones having succeeded: the buffers up
    to that one are written, the error is reported and the loop is left;
    both files are closed and [remove] is still called on the log file, so
    the original is deleted although its compressed copy is incomplete, and
    if [remove] succeeds the pass ends on the message
    "Log file compressed and deleted". *)
Theorem remove_after_failed_write (p : pass) (name : string)
    (reads : list (list Byte.byte)) (k : nat) (buf : list Byte.byte) :
  popped p = Some name → file p = Some reads → gz_ok p = true →
  delivered reads !! k = Some buf →
  written p k ≠ Z.of_nat (length buf) →
  (∀ j b, (j < k)%nat → delivered reads !! j = Some b →
     written p j = Z.of_nat (length b)) →
  compress_pass p =
    [Logged LOG_INFO ("Compressing log: " +:+ name); Fopen name;
     Gzopen (compressed_name name)] ++
    (Gzwrite <$> take (S k) (delivered reads)) ++
    [Logged LOG_ERROR
       ("Error writing compressed log: " +:+ compressed_name name);
     Fclose; Gzclose; Remove name; remove_message p name] ∧
  gz_written (compress_pass p) = take (S k) (delivered reads) ∧
  removed (compress_pass p) = [name].
Proof.
  intros Hp Hf Hg Hk Hw Hok.
  assert (Htr : compress_pass p =
    [Logged LOG_INFO ("Compressing log: " +:+ name); Fopen name;
     Gzopen (compressed_name name)] ++
    (Gzwrite <$> take (S k) (delivered reads)) ++
    [Logged LOG_ERROR
       ("Error writing compressed log: " +:+ compressed_name name);
     Fclose; Gzclose; Remove name; remove_message p name]).
  { unfold compress_pass. rewrite Hp, Hf, Hg.
    rewrite (compress_loop_short reads (written p) _ 0 k buf Hk Hw Hok).
    unfold remove_message. simpl. do 3 f_equal.
    by rewrite <- app_assoc. }
  split; [done|]. split.
  - rewrite Htr. unfold gz_written, remove_message. simpl.
    rewrite omap_app. simpl.
    destruct (remove_ok p); simpl; rewrite app_nil_r; apply gz_written_fmap.
  - destruct (compress_pass_counts p) as (Hrm & _).
    rewrite Hrm. unfold both_opened, fopened. by rewrite Hp, Hf, Hg.
Qed.

Lemma remove_after_failed_write_witness :
  compress_pass short_write =
    [Logged LOG_INFO "Compressing log: app.log"; Fopen "app.log";
     Gzopen "app.log.gz";
     Gzwrite [Byte.x01; Byte.x02]; Gzwrite [Byte.x03];
     Logged LOG_ERROR "Error writing compressed log: app.log.gz";
     Fclose; Gzclose; Remove "app.log";
     Logged LOG_INFO "Log file compressed and deleted: app.log"] ∧
  gz_written (compress_pass short_write) = [[Byte.x01; Byte.x02]; [Byte.x03]] ∧
  removed (compress_pass short_write) = ["app.log"].
Proof.
  apply (remove_after_failed_write short_write "app.log"
           [[Byte.x01; Byte.x02]; [Byte.x03]; [Byte.x04]] 1 [Byte.x03]).
  - reflexivity.
  - reflexivity.
  - reflexivity.
  - reflexivity.
  - simpl. lia.
  - intros j b Hj Hb. assert (j = 0%nat) as -> by lia.
    simpl in Hb. injection Hb as <-. reflexivity.
Defined.

(** X26.  The whole thread, whatever the calls answer: [fclose] is called
    once for each [fopen] that succeeded and [gzclose] once for each
    [gzopen] that succeeded; the files removed are, in the order popped,
    those of the passes in which both could be opened, whether or not the
    writes succeeded; the thread sleeps 500 ms for each pass in which the
    queue gave nothing; and the exit message comes last. *)
Theorem thread_closes_what_it_opens (passes : list pass) :
  fcloses (log_compression_thread passes) = length (omap fopened passes) ∧
  gzcloses (log_compression_thread passes) =
    length (omap both_opened passes) ∧
  removed (log_compression_thread passes) = omap both_opened passes ∧
  sleeps (log_compression_thread passes) =
    (λ _, 500) <$> filter (λ p, popped p = None) passes ∧
  last (log_compression_thread passes) =
    Some (Logged LOG_INFO "Log compression thread exiting.").
Proof.
  unfold log_compression_thread. split; [|split; [|split; [|split]]].
  - unfold fcloses. rewrite omap_app, length_app. simpl. rewrite Nat.add_0_r.
    induction passes as [|p ps IH]; [done|].
    rewrite bind_cons, omap_app, length_app.
    destruct (compress_pass_counts p) as (_ & Hfc & _).
    unfold fcloses in Hfc. rewrite Hfc, IH. simpl.
    by destruct (fopened p).
  - unfold gzcloses. rewrite omap_app, length_app. simpl. rewrite Nat.add_0_r.
    induction passes as [|p ps IH]; [done|].
    rewrite bind_cons, omap_app, length_app.
    destruct (compress_pass_counts p) as (_ & _ & Hgc & _).
    unfold gzcloses in Hgc. rewrite Hgc, IH. simpl.
    by destruct (both_opened p).
  - unfold removed. rewrite omap_app. simpl. rewrite app_nil_r.
    induction passes as [|p ps IH]; [done|].
    rewrite bind_cons, omap_app, IH.
    destruct (compress_pass_counts p) as (Hrm & _).
    unfold removed in Hrm. rewrite Hrm. simpl.
    by destruct (both_opened p).
  - unfold sleeps. rewrite omap_app. simpl. rewrite app_nil_r.
    induction passes as [|p ps IH]; [done|].
    rewrite bind_cons, omap_app, IH.
    destruct (compress_pass_counts p) as (_ & _ & _ & Hsl).
    unfold sleeps in Hsl. rewrite Hsl.
    destruct (popped p) eqn:Hp.
    + by rewrite filter_cons_False by (by rewrite Hp).
    + by rewrite filter_cons_True by done.
  - apply last_snoc.
Qed.

Lemma substring_all (s : string) (n : nat) :
  (String.length s ≤ n)%nat → String.substring 0 n s = s.
Proof.
  revert n. induction s as [|a s IH]; intros n Hn.
  - by destruct n.
  - destruct n as [|n]; simpl in *; [lia|]. f_equal. apply IH. lia.
Qed.

Lemma substring_length (s : string) (n : nat) :
  String.length (String.substring 0 n s) = (n `min` String.length s)%nat.
Proof.
  revert n. induction s as [|a s IH]; intros n.
  - by destruct n.
  - destruct n as [|n]; simpl; [done|]. by rewrite IH.
Qed.

Lemma substring_app_short (s t : string) (n : nat) :
  (n ≤ String.length s)%nat →
  String.substring 0 n (s +:+ t) = String.substring 0 n s.
Proof.
  revert n. induction s as [|a s IH]; intros n Hn; simpl in *.
  - assert (n = 0%nat) as -> by lia. by destruct t.
  - destruct n as [|n]; [done|]. simpl. f_equal. apply IH. lia.
Qed.

Lemma string_app_length (s t : string) :
  String.length (s +:+ t) = (String.length s + String.length t)%nat.
Proof. induction s as [|a s IH]; simpl; [done|]. by rewrite IH. Qed.

(** X27.  The name of the compressed file is the log file's name followed
    by ".gz" exactly when that name has at most 252 characters, since
    [snprintf] stores at most 255.  A name of 255 characters or more, for
    which [log_filename] has room, loses the suffix entirely: the compressed
    file is then named by the first 255 characters, and for a name of
    exactly 255 characters it is the log file itself. *)
Theorem compressed_name_exact_iff (name : string) :
  (compressed_name name = name +:+ ".gz" ↔ (String.length name ≤ 252)%nat) ∧
  ((255 ≤ String.length name)%nat →
   compressed_name name = String.substring 0 255 name) ∧
  (String.length name = 255%nat → compressed_name name = name).
Proof.
  unfold compressed_name, NAME_SIZE.
  change (256 - 1)%nat with 255%nat.
  split; [split|split].
  - intros Heq. apply (f_equal String.length) in Heq.
    rewrite substring_length, !string_app_length in Heq.
    change (String.length ".gz") with 3%nat in Heq. lia.
  - intros Hle. apply substring_all. rewrite string_app_length.
    change (String.length ".gz") with 3%nat. lia.
  - intros Hge. by apply substring_app_short.
  - intros Heq. rewrite substring_app_short by lia. apply substring_all. lia.
Qed.
